(** * SkDeque: a deque of fixed-size raw slots over a chain of Blocks

    Shallow embedding of [src/core/SkDeque.cpp].

    - A [Block*] and a [char*] are addresses, integers of [Z]; [NULL] is 0.
      The arithmetic of addresses, of [size_t] and of [int] is the
      arithmetic of [Z]: what wraps around on the machine does not wrap
      here.  The functions below and the code agree as long as no value
      leaves the range of its type; [machine_ok] describes these states,
      and the theorems that depend on it are stated for them
      ([machine_reachable], [machine_run]).
    - The Block headers that live in memory form the [heap], a finite map
      from the address of a header to its five fields.  Dereferencing
      [NULL] or an address that holds no header is a [Fault].
    - [sk_malloc_throw] hands out fresh addresses in increasing order;
      [sk_free] removes the header and is recorded in the [freed] log.  It
      is defined on every address; on storage of the caller's the real one
      is not, and a state whose log holds [fInitialStorage] is no state of
      [machine_ok].
    - [SkASSERT] is compiled in when [debug] is [true] and aborts the run
      when its condition is false; with [debug = false] it is erased.
    - The loops over the chain take fuel; running out of it is [Spin]. *)

From stdpp Require Import gmap list.
From Stdlib Require Import ZArith Lia.
From Stdlib.Strings Require Import Byte.

Local Open Scope Z_scope.

(** ** Outcomes *)

Inductive Result (A : Type) : Type :=
| Ok (a : A)
| Abort          (* an SkASSERT failed (debug build) *)
| Fault          (* NULL or dangling pointer dereferenced *)
| Spin.          (* a loop ran out of fuel *)

Arguments Ok {A} a.
Arguments Abort {A}.
Arguments Fault {A}.
Arguments Spin {A}.

Definition bind {A B : Type} (m : Result A) (k : A -> Result B) : Result B :=
  match m with
  | Ok a => k a
  | Abort => Abort
  | Fault => Fault
  | Spin => Spin
  end.

Notation "x <- m ;; k" := (bind m (fun x => k))
  (at level 63, m at next level, right associativity, only parsing).
Notation "m ;;; k" := (bind m (fun _ => k))
  (at level 63, right associativity, only parsing).

(** ** Data *)

Definition NULL : Z := 0.

(** [sizeof(Block)]: two [Block*] and three [char*] fields (LP64). *)
Definition sizeof_Block : Z := 40.
Arguments sizeof_Block : simpl never.

Record Block : Type := mkBlock {
  fNext : Z;
  fPrev : Z;
  fBegin : Z;   (* start of used section in this chunk *)
  fEnd : Z;     (* end of used section in this chunk *)
  fStop : Z     (* end of the allocated chunk *)
}.

(** [char* start() { return (char* )(this + 1); }] *)
Definition start (this : Z) : Z := this + sizeof_Block.

(** [Block::init] *)
Definition Block_init (this size : Z) : Block :=
  {| fNext := NULL; fPrev := NULL; fBegin := NULL; fEnd := NULL;
     fStop := this + size |}.

Definition set_fNext (v : Z) (b : Block) : Block :=
  {| fNext := v; fPrev := fPrev b; fBegin := fBegin b; fEnd := fEnd b;
     fStop := fStop b |}.
Definition set_fPrev (v : Z) (b : Block) : Block :=
  {| fNext := fNext b; fPrev := v; fBegin := fBegin b; fEnd := fEnd b;
     fStop := fStop b |}.
Definition set_fBegin (v : Z) (b : Block) : Block :=
  {| fNext := fNext b; fPrev := fPrev b; fBegin := v; fEnd := fEnd b;
     fStop := fStop b |}.
Definition set_fEnd (v : Z) (b : Block) : Block :=
  {| fNext := fNext b; fPrev := fPrev b; fBegin := fBegin b; fEnd := v;
     fStop := fStop b |}.

(** The members of [SkDeque], and the memory the deque's code works on. *)
Record State : Type := mkState {
  fElemSize : Z;
  fInitialStorage : Z;
  fCount : Z;
  fAllocCount : Z;
  fFront : Z;
  fBack : Z;
  heap : gmap Z Block;   (* Block headers in memory, by address *)
  brk : Z;               (* next address sk_malloc_throw returns *)
  freed : list Z         (* addresses passed to sk_free, latest first *)
}.

Definition set_fCount (v : Z) (s : State) : State :=
  mkState (fElemSize s) (fInitialStorage s) v (fAllocCount s) (fFront s)
          (fBack s) (heap s) (brk s) (freed s).
Definition set_fFront (v : Z) (s : State) : State :=
  mkState (fElemSize s) (fInitialStorage s) (fCount s) (fAllocCount s) v
          (fBack s) (heap s) (brk s) (freed s).
Definition set_fBack (v : Z) (s : State) : State :=
  mkState (fElemSize s) (fInitialStorage s) (fCount s) (fAllocCount s)
          (fFront s) v (heap s) (brk s) (freed s).
Definition set_heap (h : gmap Z Block) (s : State) : State :=
  mkState (fElemSize s) (fInitialStorage s) (fCount s) (fAllocCount s)
          (fFront s) (fBack s) h (brk s) (freed s).
Definition set_brk (v : Z) (s : State) : State :=
  mkState (fElemSize s) (fInitialStorage s) (fCount s) (fAllocCount s)
          (fFront s) (fBack s) (heap s) v (freed s).
Definition set_freed (l : list Z) (s : State) : State :=
  mkState (fElemSize s) (fInitialStorage s) (fCount s) (fAllocCount s)
          (fFront s) (fBack s) (heap s) (brk s) l.

(** ** Memory access *)

(** Reading through a [Block*]. *)
Definition load (s : State) (p : Z) : Result Block :=
  if decide (p = NULL) then Fault
  else match heap s !! p with
       | Some b => Ok b
       | None => Fault
       end.

(** Writing a whole header at [p]. *)
Definition store (p : Z) (b : Block) (s : State) : State :=
  set_heap (<[p := b]> (heap s)) s.

(** [p->field = v], for the field updated by [f]. *)
Definition poke (p : Z) (f : Block -> Block) (s : State) : Result State :=
  b <- load s p ;; Ok (store p (f b) s).

Definition sk_malloc_throw (size : Z) (s : State) : Z * State :=
  (brk s, set_brk (brk s + size) s).

Definition sk_free (p : Z) (s : State) : State :=
  if decide (p = NULL) then s
  else set_freed (p :: freed s) (set_heap (delete p (heap s)) s).

(** ** SkDeque *)

Section Build.

(** [true] for a build with SK_DEBUG, where SkASSERT checks. *)
Variable debug : bool.

Definition SkASSERT (c : bool) : Result unit :=
  if debug && negb c then Abort else Ok tt.

(** [SkDeque::SkDeque(size_t elemSize, int allocCount)], in a memory whose
    allocator is at [brk0]. *)
Definition SkDeque_new (elemSize allocCount brk0 : Z) : Result State :=
  SkASSERT (bool_decide (allocCount >= 1)) ;;;
  Ok {| fElemSize := elemSize; fInitialStorage := NULL; fCount := 0;
        fAllocCount := allocCount; fFront := NULL; fBack := NULL;
        heap := ∅; brk := brk0; freed := [] |}.

(** [SkDeque::SkDeque(size_t elemSize, void* storage, size_t storageSize,
    int allocCount)]. *)
Definition SkDeque_new_storage (elemSize storage storageSize allocCount brk0 : Z)
  : Result State :=
  SkASSERT (bool_decide (storageSize = 0 \/ storage <> NULL)) ;;;
  SkASSERT (bool_decide (allocCount >= 1)) ;;;
  let s := {| fElemSize := elemSize; fInitialStorage := storage; fCount := 0;
              fAllocCount := allocCount; fFront := NULL; fBack := NULL;
              heap := ∅; brk := brk0; freed := [] |} in
  let s :=
    if decide (storageSize >= sizeof_Block + elemSize) then
      store storage (Block_init storage storageSize) (set_fFront storage s)
    else set_fFront NULL s in
  Ok (set_fBack (fFront s) s).

(** [SkDeque::allocateBlock] *)
Definition allocateBlock (allocCount : Z) (s : State) : Z * State :=
  let size := sizeof_Block + allocCount * fElemSize s in
  let '(newBlock, s) := sk_malloc_throw size s in
  (newBlock, store newBlock (Block_init newBlock size) s).

(** [SkDeque::freeBlock] *)
Definition freeBlock (block : Z) (s : State) : State := sk_free block s.

(** [SkDeque::front] *)
Definition front (s : State) : Result Z :=
  let front := fFront s in
  if decide (NULL = front) then Ok NULL
  else
    b <- load s front ;;
    if decide (NULL = fBegin b) then
      let front := fNext b in
      if decide (NULL = front) then Ok NULL
      else
        b <- load s front ;;
        SkASSERT (bool_decide (fBegin b <> NULL)) ;;;
        Ok (fBegin b)
    else
      SkASSERT (bool_decide (fBegin b <> NULL)) ;;;
      Ok (fBegin b).

(** [SkDeque::back] *)
Definition back (s : State) : Result Z :=
  let back := fBack s in
  if decide (NULL = back) then Ok NULL
  else
    b <- load s back ;;
    if decide (NULL = fEnd b) then   (* marked as deleted *)
      let back := fPrev b in
      if decide (NULL = back) then Ok NULL
      else
        b <- load s back ;;
        SkASSERT (bool_decide (fEnd b <> NULL)) ;;;
        Ok (fEnd b - fElemSize s)
    else
      SkASSERT (bool_decide (fEnd b <> NULL)) ;;;
      Ok (fEnd b - fElemSize s).

(** The code of [push_front] from the label INIT_CHUNK to the return. *)
Definition push_front_init_chunk (first : Z) (s : State) : Result (Z * State) :=
  b <- load s first ;;
  s <- poke first (set_fEnd (fStop b)) s ;;
  let begin := fStop b - fElemSize s in
  s <- poke first (set_fBegin begin) s ;;
  Ok (begin, s).

(** [SkDeque::push_front] *)
Definition push_front (s : State) : Result (Z * State) :=
  let s := set_fCount (fCount s + 1) s in
  let s :=
    if decide (NULL = fFront s) then
      let '(p, s) := allocateBlock (fAllocCount s) s in
      set_fBack p (set_fFront p s)
    else s in
  let first := fFront s in
  b <- load s first ;;
  if decide (NULL = fBegin b) then push_front_init_chunk first s
  else
    let begin := fBegin b - fElemSize s in
    if decide (begin < start first) then   (* no more room in this chunk *)
      let '(first, s) := allocateBlock (fAllocCount s) s in
      s <- poke first (set_fNext (fFront s)) s ;;
      s <- poke (fFront s) (set_fPrev first) s ;;
      let s := set_fFront first s in
      push_front_init_chunk first s
    else
      s <- poke first (set_fBegin begin) s ;;
      Ok (begin, s).

(** The code of [push_back] from the label INIT_CHUNK to the return. *)
Definition push_back_init_chunk (last : Z) (s : State) : Result (Z * State) :=
  s <- poke last (set_fBegin (start last)) s ;;
  b <- load s last ;;
  let end_ := fBegin b + fElemSize s in
  s <- poke last (set_fEnd end_) s ;;
  Ok (end_ - fElemSize s, s).

(** [SkDeque::push_back] *)
Definition push_back (s : State) : Result (Z * State) :=
  let s := set_fCount (fCount s + 1) s in
  let s :=
    if decide (NULL = fBack s) then
      let '(p, s) := allocateBlock (fAllocCount s) s in
      set_fFront p (set_fBack p s)
    else s in
  let last := fBack s in
  b <- load s last ;;
  if decide (NULL = fBegin b) then push_back_init_chunk last s
  else
    let end_ := fEnd b + fElemSize s in
    if decide (end_ > fStop b) then   (* no more room in this chunk *)
      let '(last, s) := allocateBlock (fAllocCount s) s in
      s <- poke last (set_fPrev (fBack s)) s ;;
      s <- poke (fBack s) (set_fNext last) s ;;
      let s := set_fBack last s in
      push_back_init_chunk last s
    else
      s <- poke last (set_fEnd end_) s ;;
      Ok (end_ - fElemSize s, s).

(** The code of [pop_front] from [char* begin = ...] on, with [first] the
    Block the element is taken from. *)
Definition pop_front_shrink (first : Z) (s : State) : Result State :=
  b <- load s first ;;
  let begin := fBegin b + fElemSize s in
  SkASSERT (bool_decide (begin <= fEnd b)) ;;;
  fb <- load s (fFront s) ;;
  if decide (begin < fEnd fb) then poke first (set_fBegin begin) s
  else
    (* first->fBegin = first->fEnd = NULL;  mark as empty *)
    s <- poke first (set_fEnd NULL) s ;;
    poke first (set_fBegin NULL) s.

(** [SkDeque::pop_front] *)
Definition pop_front (s : State) : Result State :=
  SkASSERT (bool_decide (fCount s > 0)) ;;;
  let s := set_fCount (fCount s - 1) s in
  let first := fFront s in
  SkASSERT (bool_decide (first <> NULL)) ;;;
  b <- load s first ;;
  if decide (fBegin b = NULL) then   (* we were marked empty from before *)
    let first := fNext b in
    s <- poke first (set_fPrev NULL) s ;;
    let s := freeBlock (fFront s) s in
    let s := set_fFront first s in
    SkASSERT (bool_decide (first <> NULL)) ;;;   (* else we popped too far *)
    pop_front_shrink first s
  else pop_front_shrink first s.

(** The code of [pop_back] from [char* end = ...] on, with [last] the
    Block the element is taken from. *)
Definition pop_back_shrink (last : Z) (s : State) : Result State :=
  b <- load s last ;;
  let end_ := fEnd b - fElemSize s in
  SkASSERT (bool_decide (end_ >= fBegin b)) ;;;
  if decide (end_ > fBegin b) then poke last (set_fEnd end_) s
  else
    (* last->fBegin = last->fEnd = NULL;  mark as empty *)
    s <- poke last (set_fEnd NULL) s ;;
    poke last (set_fBegin NULL) s.

(** [SkDeque::pop_back] *)
Definition pop_back (s : State) : Result State :=
  SkASSERT (bool_decide (fCount s > 0)) ;;;
  let s := set_fCount (fCount s - 1) s in
  let last := fBack s in
  SkASSERT (bool_decide (last <> NULL)) ;;;
  b <- load s last ;;
  if decide (fEnd b = NULL) then   (* we were marked empty from before *)
    let last := fPrev b in
    s <- poke last (set_fNext NULL) s ;;
    let s := freeBlock (fBack s) s in
    let s := set_fBack last s in
    SkASSERT (bool_decide (last <> NULL)) ;;;   (* else we popped too far *)
    pop_back_shrink last s
  else pop_back_shrink last s.

(** The loop of [numBlocksAllocated], from [temp] on. *)
Fixpoint numBlocks_loop (fuel : nat) (s : State) (temp numBlocks : Z) : Result Z :=
  match fuel with
  | O => Spin
  | S fuel =>
      if decide (temp = NULL) then Ok numBlocks
      else
        b <- load s temp ;;
        numBlocks_loop fuel s (fNext b) (numBlocks + 1)
  end.

(** [SkDeque::numBlocksAllocated] *)
Definition numBlocksAllocated (s : State) : Result Z :=
  numBlocks_loop (S (size (heap s))) s (fFront s) 0.

(** The loop of the destructor, from [head] on. *)
Fixpoint SkDeque_delete_loop (fuel : nat) (initialHead head : Z) (s : State)
  : Result State :=
  match fuel with
  | O => Spin
  | S fuel =>
      if decide (head = NULL) then Ok s
      else
        b <- load s head ;;
        let next := fNext b in
        let s := if decide (head <> initialHead) then freeBlock head s else s in
        SkDeque_delete_loop fuel initialHead next s
  end.

(** [SkDeque::~SkDeque] *)
Definition SkDeque_delete (s : State) : Result State :=
  let head := fFront s in
  let initialHead := fInitialStorage s in
  SkDeque_delete_loop (S (size (heap s))) initialHead head s.

End Build.

(** ** SkDeque::Iter *)

Module Iter.

Local Abbreviation deque_fElemSize := fElemSize.

Inductive IterStart : Type := kFront_IterStart | kBack_IterStart.

Record Iter : Type := mkIter {
  fCurBlock : Z;
  fPos : Z;
  fElemSize : Z
}.

(** [SkDeque::Iter::Iter()] *)
Definition Iter_new : Iter :=
  {| fCurBlock := NULL; fPos := NULL; fElemSize := 0 |}.

Section Build.

Variable debug : bool.

(** [do { fCurBlock = fCurBlock->fNext; }
     while (fCurBlock != NULL && fCurBlock->fBegin == NULL);] *)
Fixpoint next_loop (fuel : nat) (d : State) (cur : Z) : Result Z :=
  match fuel with
  | O => Spin
  | S fuel =>
      b <- load d cur ;;
      let cur := fNext b in
      if decide (cur <> NULL) then
        b <- load d cur ;;
        if decide (fBegin b = NULL) then next_loop fuel d cur else Ok cur
      else Ok cur
  end.

(** [SkDeque::Iter::next], over the memory of the deque [d]. *)
Definition next (d : State) (it : Iter) : Result (Z * Iter) :=
  let pos := fPos it in
  if decide (pos <> NULL) then   (* if we were valid, try to move to the next setting *)
    let next := pos + fElemSize it in
    cur <- load d (fCurBlock it) ;;
    SkASSERT debug (bool_decide (next <= fEnd cur)) ;;;
    if decide (next = fEnd cur) then   (* exhausted this chunk, move to next *)
      cb <- next_loop (S (size (heap d))) d (fCurBlock it) ;;
      next <- (if decide (cb <> NULL) then b <- load d cb ;; Ok (fBegin b)
               else Ok NULL) ;;
      Ok (pos, {| fCurBlock := cb; fPos := next; fElemSize := fElemSize it |})
    else
      Ok (pos, {| fCurBlock := fCurBlock it; fPos := next;
                  fElemSize := fElemSize it |})
  else Ok (pos, it).

(** [do { fCurBlock = fCurBlock->fPrev; }
     while (fCurBlock != NULL && fCurBlock->fEnd == NULL);] *)
Fixpoint prev_loop (fuel : nat) (d : State) (cur : Z) : Result Z :=
  match fuel with
  | O => Spin
  | S fuel =>
      b <- load d cur ;;
      let cur := fPrev b in
      if decide (cur <> NULL) then
        b <- load d cur ;;
        if decide (fEnd b = NULL) then prev_loop fuel d cur else Ok cur
      else Ok cur
  end.

(** [SkDeque::Iter::prev] *)
Definition prev (d : State) (it : Iter) : Result (Z * Iter) :=
  let pos := fPos it in
  if decide (pos <> NULL) then   (* if we were valid, try to move to the prior setting *)
    let prev := pos - fElemSize it in
    cur <- load d (fCurBlock it) ;;
    SkASSERT debug (bool_decide (prev >= fBegin cur - fElemSize it)) ;;;
    if decide (prev < fBegin cur) then   (* exhausted this chunk, move to prior *)
      cb <- prev_loop (S (size (heap d))) d (fCurBlock it) ;;
      prev <- (if decide (cb <> NULL) then
                 b <- load d cb ;; Ok (fEnd b - fElemSize it)
               else Ok NULL) ;;
      Ok (pos, {| fCurBlock := cb; fPos := prev; fElemSize := fElemSize it |})
    else
      Ok (pos, {| fCurBlock := fCurBlock it; fPos := prev;
                  fElemSize := fElemSize it |})
  else Ok (pos, it).

End Build.

(** [while (NULL != fCurBlock && NULL == fCurBlock->fBegin)
      fCurBlock = fCurBlock->fNext;] *)
Fixpoint reset_front_loop (fuel : nat) (d : State) (cur : Z) : Result Z :=
  match fuel with
  | O => Spin
  | S fuel =>
      if decide (NULL <> cur) then
        b <- load d cur ;;
        if decide (NULL = fBegin b) then reset_front_loop fuel d (fNext b)
        else Ok cur
      else Ok cur
  end.

(** [while (NULL != fCurBlock && NULL == fCurBlock->fEnd)
      fCurBlock = fCurBlock->fPrev;] *)
Fixpoint reset_back_loop (fuel : nat) (d : State) (cur : Z) : Result Z :=
  match fuel with
  | O => Spin
  | S fuel =>
      if decide (NULL <> cur) then
        b <- load d cur ;;
        if decide (NULL = fEnd b) then reset_back_loop fuel d (fPrev b)
        else Ok cur
      else Ok cur
  end.

(** [SkDeque::Iter::reset]; the iterator's previous fields are all
    overwritten, so it is a function of the deque and the start alone. *)
Definition reset (d : State) (startLoc : IterStart) : Result Iter :=
  let es := deque_fElemSize d in
  match startLoc with
  | kFront_IterStart =>
      (* initialize the iterator to start at the front *)
      cb <- reset_front_loop (S (size (heap d))) d (fFront d) ;;
      pos <- (if decide (cb <> NULL) then b <- load d cb ;; Ok (fBegin b)
              else Ok NULL) ;;
      Ok {| fCurBlock := cb; fPos := pos; fElemSize := es |}
  | kBack_IterStart =>
      (* initialize the iterator to start at the back *)
      cb <- reset_back_loop (S (size (heap d))) d (fBack d) ;;
      pos <- (if decide (cb <> NULL) then b <- load d cb ;; Ok (fEnd b - es)
              else Ok NULL) ;;
      Ok {| fCurBlock := cb; fPos := pos; fElemSize := es |}
  end.

(** [SkDeque::Iter::Iter(const SkDeque& d, IterStart startLoc)] *)
Definition Iter_at (d : State) (startLoc : IterStart) : Result Iter :=
  reset d startLoc.

(** [n] calls of [next], with the slots they return in order. *)
Fixpoint nexts (debug : bool) (n : nat) (d : State) (it : Iter)
  : Result (list Z * Iter) :=
  match n with
  | O => Ok ([], it)
  | S n =>
      r <- next debug d it ;;
      rs <- nexts debug n d (snd r) ;;
      Ok (fst r :: fst rs, snd rs)
  end.

(** [n] calls of [prev], with the slots they return in order. *)
Fixpoint prevs (debug : bool) (n : nat) (d : State) (it : Iter)
  : Result (list Z * Iter) :=
  match n with
  | O => Ok ([], it)
  | S n =>
      r <- prev debug d it ;;
      rs <- prevs debug n d (snd r) ;;
      Ok (fst r :: fst rs, snd rs)
  end.

(** A sequence of calls, each of [next] or of [prev], with the slots they
    return in order. *)
Inductive move : Type := Next | Prev.

Definition step (debug : bool) (d : State) (m : move) (it : Iter)
  : Result (Z * Iter) :=
  match m with
  | Next => next debug d it
  | Prev => prev debug d it
  end.

Fixpoint steps (debug : bool) (ms : list move) (d : State) (it : Iter)
  : Result (list Z * Iter) :=
  match ms with
  | [] => Ok ([], it)
  | m :: ms =>
      r <- step debug d m it ;;
      rs <- steps debug ms d (snd r) ;;
      Ok (fst r :: fst rs, snd rs)
  end.

End Iter.

(** ** Runs of operations *)

Inductive op : Type := PushFront | PushBack | PopFront | PopBack.

Definition is_pop (o : op) : bool :=
  match o with
  | PopFront | PopBack => true
  | _ => false
  end.

Definition apply_op (debug : bool) (o : op) (s : State) : Result State :=
  match o with
  | PushFront => r <- push_front s ;; Ok (snd r)
  | PushBack => r <- push_back s ;; Ok (snd r)
  | PopFront => pop_front debug s
  | PopBack => pop_back debug s
  end.

(** A pop is valid on a deque that holds an element. *)
Definition valid_op (o : op) (s : State) : bool :=
  negb (is_pop o) || bool_decide (0 < fCount s).

(** A sequence of valid operations; it stops at a pop on an empty deque. *)
Fixpoint run (debug : bool) (os : list op) (s : State) : Result State :=
  match os with
  | [] => Ok s
  | o :: os =>
      if valid_op o s then s <- apply_op debug o s ;; run debug os s
      else Abort
  end.

(** The states a deque can be in: built by one of the two constructors
    with their assertions holding, in a memory where the caller's storage
    lies below the allocator's addresses, then driven by pushes and by
    pops, each pop on a deque with [fCount > 0]. *)
Inductive reachable : State -> Prop :=
| reach_new (elemSize allocCount brk0 : Z) (s : State) :
    0 <= elemSize -> 0 < brk0 ->
    SkDeque_new true elemSize allocCount brk0 = Ok s ->
    reachable s
| reach_new_storage (elemSize storage storageSize allocCount brk0 : Z) (s : State) :
    0 <= elemSize -> 0 <= storage -> 0 <= storageSize ->
    storage + storageSize <= brk0 -> 0 < brk0 ->
    SkDeque_new_storage true elemSize storage storageSize allocCount brk0 = Ok s ->
    reachable s
| reach_step (o : op) (s s' : State) :
    reachable s ->
    (is_pop o = true -> 0 < fCount s) ->
    apply_op false o s = Ok s' ->
    reachable s'.

(** ** The caller's elements *)

(** The bytes of the memory the slots lie in. *)
Definition Mem : Type := Z -> byte.

(** Writing the bytes [v] from address [p] on. *)
Definition write (p : Z) (v : list byte) (m : Mem) : Mem :=
  fun a =>
    if decide (p <= a < p + Z.of_nat (length v)) then
      default "000"%byte (v !! Z.to_nat (a - p))
    else m a.

(** The [n] bytes from address [p] on. *)
Definition read (p n : Z) (m : Mem) : list byte := m <$> seqZ p n.

(** [push_back] once for each value of [vs], which is written into the slot
    returned. *)
Fixpoint push_back_all (vs : list (list byte)) (s : State) (m : Mem)
  : Result (State * Mem) :=
  match vs with
  | [] => Ok (s, m)
  | v :: vs =>
      r <- push_back s ;;
      push_back_all vs (snd r) (write (fst r) v m)
  end.

(** [n] times: the element at [front()] is read, then [pop_front] is
    called.  Reading through a null [front()] is a fault. *)
Fixpoint pop_front_all (debug : bool) (n : nat) (s : State) (m : Mem)
  : Result (list (list byte) * State) :=
  match n with
  | O => Ok ([], s)
  | S n =>
      p <- front debug s ;;
      if decide (p = NULL) then Fault
      else
        let v := read p (fElemSize s) m in
        s <- pop_front debug s ;;
        r <- pop_front_all debug n s m ;;
        Ok (v :: fst r, snd r)
  end.

(** The four bytes of a 32-bit value, least significant first. *)
Definition int32_bytes (z : Z) : list byte :=
  (fun i => default "000"%byte (Byte.of_N (Z.to_N ((z / 2 ^ (8 * i)) mod 256))))
    <$> [0; 1; 2; 3].

#[local] Set Warnings "-clear-no-such-hyp".

(** * Chains, slots and the invariant of the deque *)

(** ** The chain of Blocks *)

Definition head0 (l : list Z) : Z := default NULL (head l).

Definition last0 (l : list Z) : Z := default NULL (last l).

(** [chain h front back l]: the headers of [h] are exactly the Blocks at
    the addresses [l], doubly linked in this order from [front] to [back]. *)
Record chain (h : gmap Z Block) (front back : Z) (l : list Z) : Prop := mk_chain {
  chain_nodup : NoDup l;
  chain_nonnull : NULL ∉ l;
  chain_dom : forall a, a ∈ l <-> is_Some (h !! a);
  chain_front : front = head0 l;
  chain_back : back = last0 l;
  chain_links : forall l1 a l2, l = l1 ++ a :: l2 ->
    exists b, h !! a = Some b /\ fPrev b = last0 l1 /\ fNext b = head0 l2
}.

(** ** Slots *)

(** [n] consecutive slots of [es] bytes from [p] on. *)
Fixpoint slots_from (p es : Z) (n : nat) : list Z :=
  match n with
  | O => []
  | S n => p :: slots_from (p + es) es n
  end.

(** The number of elements in the used section of a Block. *)
Definition nslots (es : Z) (b : Block) : nat :=
  Z.to_nat ((fEnd b - fBegin b) / es).

(** The element slots of a Block, front to back. *)
Definition slots (es : Z) (b : Block) : list Z :=
  if decide (fBegin b = NULL) then [] else slots_from (fBegin b) es (nslots es b).

Definition slots_at (es : Z) (h : gmap Z Block) (a : Z) : list Z :=
  match h !! a with
  | Some b => slots es b
  | None => []
  end.

(** The element slots of the Blocks at [l], in the order of [l]. *)
Definition contents_of (es : Z) (h : gmap Z Block) (l : list Z) : list Z :=
  l ≫= slots_at es h.

(** The addresses of the Blocks met from [p] on along [fNext]. *)
Fixpoint walk (fuel : nat) (h : gmap Z Block) (p : Z) : list Z :=
  match fuel with
  | O => []
  | S fuel =>
      if decide (p = NULL) then []
      else match h !! p with
           | Some b => p :: walk fuel h (fNext b)
           | None => []
           end
  end.

(** The Blocks of the deque, from the front one on. *)
Definition blocks (s : State) : list Z :=
  walk (size (heap s)) (heap s) (fFront s).

(** The slots of the live elements of the deque, front to back. *)
Definition contents (s : State) : list Z :=
  contents_of (fElemSize s) (heap s) (blocks s).

(** ** The invariant *)

(** What holds of the Block at [a], for elements of [es] bytes in a memory
    allocated up to [lim]. *)
Definition block_ok (es lim : Z) (a : Z) (b : Block) : Prop :=
  0 < a /\ start a + es <= fStop b /\ fStop b <= lim /\
  ((fBegin b = NULL /\ fEnd b = NULL) \/
   (start a <= fBegin b /\ fEnd b <= fStop b /\
    exists n : nat, fEnd b = fBegin b + Z.of_nat n * es /\
                    (0 < es -> (0 < n)%nat))).

(** Distinct Blocks occupy disjoint ranges of addresses. *)
Definition regions_disjoint (h : gmap Z Block) : Prop :=
  forall a1 b1 a2 b2, h !! a1 = Some b1 -> h !! a2 = Some b2 -> a1 <> a2 ->
    fStop b1 <= a2 \/ fStop b2 <= a1.

Record Inv (s : State) (l : list Z) : Prop := mk_Inv {
  inv_es : 0 <= fElemSize s;
  inv_ac : 1 <= fAllocCount s;
  inv_brk : 0 < brk s;
  inv_chain : chain (heap s) (fFront s) (fBack s) l;
  inv_blocks : map_Forall (block_ok (fElemSize s) (brk s)) (heap s);
  inv_disjoint : regions_disjoint (heap s);
  inv_middle : 0 < fElemSize s ->
    forall l1 a l2 b, l = l1 ++ a :: l2 -> l1 <> [] -> l2 <> [] ->
      heap s !! a = Some b -> fBegin b <> NULL;
  inv_count : 0 < fElemSize s ->
    fCount s = Z.of_nat (length (contents_of (fElemSize s) (heap s) l))
}.

Definition same_config (s s' : State) : Prop :=
  fElemSize s' = fElemSize s /\ fInitialStorage s' = fInitialStorage s /\
  fAllocCount s' = fAllocCount s.

(** The header of a Block after [pop_front] took an element from it. *)
Definition shrink_front (es : Z) (b : Block) : Block :=
  if decide (fBegin b + es < fEnd b) then set_fBegin (fBegin b + es) b
  else set_fBegin NULL (set_fEnd NULL b).

(** The header of a Block after [pop_back] took an element from it. *)
Definition shrink_back (es : Z) (b : Block) : Block :=
  if decide (fEnd b - es > fBegin b) then set_fEnd (fEnd b - es) b
  else set_fBegin NULL (set_fEnd NULL b).

(** From [s] to [s'] the deque kept its configuration, the allocator did
    not go back, and every Block of [s'] is a Block of [s] or lies where
    the allocator of [s] stood or above. *)
Definition grows (s s' : State) : Prop :=
  same_config s s' /\ brk s <= brk s' /\
  forall a, is_Some (heap s' !! a) -> is_Some (heap s !! a) \/ brk s <= a.

(** ** The machine's integers

    The code counts in [int] and computes sizes and addresses in [size_t]
    and [char*] of 64 bits, which wrap around; the definitions above compute
    in [Z].  The two agree as long as no value leaves the range of its type,
    and [sk_free] is defined for what [sk_malloc_throw] returned only. *)

Definition INT_MAX : Z := 2 ^ 31 - 1.

Definition SIZE_MAX : Z := 2 ^ 64 - 1.

(** The state [s] is within the machine's range:
    - [fCount], [fAllocCount] and the number of Blocks fit an [int];
    - every address up to the allocator's, with one element more, fits a
      pointer: [fEnd + fElemSize] does not wrap, and neither did the size
      and [fStop] of any Block allocated so far;
    - no Block lies so low that [fBegin - fElemSize] wraps below 0;
    - the caller's storage lies below what the allocator hands out, and was
      not passed to [sk_free]. *)
Definition machine_ok (s : State) : Prop :=
  fCount s <= INT_MAX /\
  fAllocCount s <= INT_MAX /\
  Z.of_nat (size (heap s)) <= INT_MAX /\
  brk s + fElemSize s <= SIZE_MAX /\
  map_Forall (fun a _ => fElemSize s <= start a) (heap s) /\
  fInitialStorage s < brk s /\
  fInitialStorage s ∉ freed s.

(** [machine_ok], computed. *)
Definition machine_okb (s : State) : bool :=
  bool_decide (fCount s <= INT_MAX) &&
  bool_decide (fAllocCount s <= INT_MAX) &&
  bool_decide (Z.of_nat (size (heap s)) <= INT_MAX) &&
  bool_decide (brk s + fElemSize s <= SIZE_MAX) &&
  bool_decide (map_Forall (fun a _ => fElemSize s <= start a) (heap s)) &&
  bool_decide (fInitialStorage s < brk s) &&
  bool_decide (fInitialStorage s ∉ freed s).

(** The states of a deque that the program itself reaches: as [reachable],
    with every state on the way within the machine's range, and with the
    size test of the constructor, [sizeof(Block) + elemSize], not wrapping. *)
Inductive machine_reachable : State -> Prop :=
| mreach_new (elemSize allocCount brk0 : Z) (s : State) :
    0 <= elemSize -> 0 < brk0 ->
    SkDeque_new true elemSize allocCount brk0 = Ok s ->
    machine_ok s ->
    machine_reachable s
| mreach_new_storage (elemSize storage storageSize allocCount brk0 : Z) (s : State) :
    0 <= elemSize -> 0 <= storage -> 0 <= storageSize ->
    storage + storageSize <= brk0 -> 0 < brk0 ->
    sizeof_Block + elemSize <= SIZE_MAX ->
    SkDeque_new_storage true elemSize storage storageSize allocCount brk0 = Ok s ->
    machine_ok s ->
    machine_reachable s
| mreach_step (o : op) (s s' : State) :
    machine_reachable s ->
    (is_pop o = true -> 0 < fCount s) ->
    apply_op false o s = Ok s' ->
    machine_ok s' ->
    machine_reachable s'.

(** The operations [os] are valid one after the other from [s] on, and every
    state they lead to is within the machine's range. *)
Fixpoint machine_run (os : list op) (s : State) : bool :=
  match os with
  | [] => true
  | o :: os =>
      valid_op o s &&
      match apply_op false o s with
      | Ok s' => machine_okb s' && machine_run os s'
      | _ => false
      end
  end.

(** [pop_front] on [s] does not pass the caller's storage to [sk_free]: the
    front Block, if marked empty, is not the caller's. *)
Definition pop_front_ok (s : State) : Prop :=
  forall b, heap s !! fFront s = Some b -> fBegin b = NULL ->
            fFront s <> fInitialStorage s.

(** The same for [pop_back]. *)
Definition pop_back_ok (s : State) : Prop :=
  forall b, heap s !! fBack s = Some b -> fEnd b = NULL ->
            fBack s <> fInitialStorage s.

(** The Blocks of [s] are Blocks of [s']. *)
Definition keeps (s s' : State) : Prop :=
  forall a, is_Some (heap s !! a) -> is_Some (heap s' !! a).

(** From [s] to [s'] nothing was freed: the Blocks of [s] are still there,
    and the count and the allocator did not go back. *)
Definition extends (s s' : State) : Prop :=
  same_config s s' /\
  fCount s <= fCount s' /\ brk s <= brk s' /\ freed s' = freed s /\
  keeps s s'.

(** The occupancy of the Block at [a], for elements of [es] bytes. *)
Definition occupancy (es : Z) (a : Z) (b : Block) : Prop :=
  (fBegin b = NULL <-> fEnd b = NULL) /\
  (fBegin b <> NULL ->
   start a <= fBegin b /\ fBegin b <= fEnd b /\ fEnd b <= fStop b /\
   (es | fEnd b - fBegin b) /\
   (0 < es -> fBegin b < fEnd b)).

Definition occupancy_all (s : State) : Prop :=
  forall a b, heap s !! a = Some b -> occupancy (fElemSize s) a b.

(** The memory before anything is written. *)
Definition blank : Mem := fun _ => "000"%byte.

(** ** Iteration *)

(** The first Block of [l] whose cursor [cur] is not null, or NULL. *)
Fixpoint first_live (cur : Block -> Z) (h : gmap Z Block) (l : list Z) : Z :=
  match l with
  | [] => NULL
  | a :: l =>
      match h !! a with
      | Some b => if decide (cur b = NULL) then first_live cur h l else a
      | None => NULL
      end
  end.

(** [it] is an iterator over [d] from which [next] yields the slots [R]
    and is then exhausted. *)
Definition it_fwd (d : State) (l : list Z) (it : Iter.Iter) (R : list Z) : Prop :=
  Iter.fElemSize it = fElemSize d /\
  ((Iter.fPos it = NULL /\ R = []) \/
   (exists l1 a l2 b (n j : nat),
      l = l1 ++ a :: l2 /\ heap d !! a = Some b /\ fBegin b <> NULL /\
      fEnd b = fBegin b + Z.of_nat n * fElemSize d /\ (j < n)%nat /\
      Iter.fCurBlock it = a /\
      Iter.fPos it = fBegin b + Z.of_nat j * fElemSize d /\
      R = slots_from (Iter.fPos it) (fElemSize d) (n - j) ++
          contents_of (fElemSize d) (heap d) l2)).

(** [it] is an iterator over [d] from which [prev] yields the slots [R]
    and is then exhausted. *)
Definition it_bwd (d : State) (l : list Z) (it : Iter.Iter) (R : list Z) : Prop :=
  Iter.fElemSize it = fElemSize d /\
  ((Iter.fPos it = NULL /\ R = []) \/
   (exists l1 a l2 b (n j : nat),
      l = l1 ++ a :: l2 /\ heap d !! a = Some b /\ fBegin b <> NULL /\
      fEnd b = fBegin b + Z.of_nat n * fElemSize d /\ (j < n)%nat /\
      Iter.fCurBlock it = a /\
      Iter.fPos it = fBegin b + Z.of_nat j * fElemSize d /\
      R = rev (contents_of (fElemSize d) (heap d) l1 ++
               slots_from (fBegin b) (fElemSize d) (S j)))).

(** What holds besides of a deque of elements of size 0: it has one Block
    at most, and this Block is marked empty when the count is 0. *)
Definition InvZ (s : State) : Prop :=
  (size (heap s) <= 1)%nat /\ 0 <= fCount s /\
  (forall a b, heap s !! a = Some b -> fBegin b <> NULL -> 0 < fCount s).

(** The step from [s] to [s'] did not pass the Block at [a] to [sk_free]. *)
Definition not_released (a : Z) (s s' : State) : Prop :=
  freed s' = freed s \/ exists x, freed s' = x :: freed s /\ x <> a.

(** The slots of [c] do not overlap: any two are [es] bytes apart. *)
Fixpoint apart (es : Z) (c : list Z) : Prop :=
  match c with
  | [] => True
  | x :: c => (forall y, y ∈ c -> x + es <= y \/ y + es <= x) /\ apart es c
  end.

(** The deque of [elemSize]-byte elements and Blocks of [allocCount]
    elements (the allocator at address 1000) after the operations [os]. *)
Definition example_deque (elemSize allocCount : Z) (os : list op) : State :=
  let s0 := {| fElemSize := elemSize; fInitialStorage := NULL; fCount := 0;
               fAllocCount := allocCount; fFront := NULL; fBack := NULL;
               heap := ∅; brk := 1000; freed := [] |} in
  match run false os s0 with
  | Ok s => s
  | _ => s0
  end.

(** The state after the Blocks at [l], the one at [init] apart, have been
    passed to [freeBlock] in this order. *)
Fixpoint free_all (init : Z) (l : list Z) (s : State) : State :=
  match l with
  | [] => s
  | a :: l => free_all init l (if decide (a <> init) then freeBlock a s else s)
  end.

(** No address was passed to [sk_free] twice, and what was passed is gone
    from the heap and lies below the allocator. *)
Definition freed_ok (s : State) : Prop :=
  NoDup (freed s) /\ forall a, a ∈ freed s -> heap s !! a = None /\ a < brk s.

(** The index a cursor over the slots [c] moves to from the index [i]; off
    the list there is none. *)
Definition cursor_move (c : list Z) (i : nat) (m : Iter.move) : option nat :=
  match m with
  | Iter.Next => if decide (S i < length c)%nat then Some (S i) else None
  | Iter.Prev => match i with O => None | S j => Some j end
  end.

(** What a cursor over the slots [c] yields on the moves [ms]: at an index
    a move yields the slot there, then steps; off the list every move
    yields null and the cursor stays off. *)
Fixpoint cursor (c : list Z) (pos : option nat) (ms : list Iter.move) : list Z :=
  match ms with
  | [] => []
  | m :: ms =>
      match pos with
      | None => NULL :: cursor c None ms
      | Some i => default NULL (c !! i) :: cursor c (cursor_move c i m) ms
      end
  end.

(** Where a reset puts the cursor. *)
Definition cursor_start (c : list Z) (startLoc : Iter.IterStart) : option nat :=
  match c with
  | [] => None
  | _ :: _ =>
      match startLoc with
      | Iter.kFront_IterStart => Some O
      | Iter.kBack_IterStart => Some (length c - 1)%nat
      end
  end.

(** The iterator [it] over [d] stands where the cursor [pos] does. *)
Definition it_at (d : State) (l : list Z) (it : Iter.Iter) (pos : option nat) : Prop :=
  match pos with
  | None => Iter.fPos it = NULL
  | Some i =>
      exists x, contents_of (fElemSize d) (heap d) l !! i = Some x /\
        it_fwd d l it (x :: drop (S i) (contents_of (fElemSize d) (heap d) l))
  end.

(** The deque of 8-byte elements over a caller's storage at address 1000
    with room for three of them (Blocks of one element, the allocator at
    address 2000) after the operations [os]. *)
Definition example_inline_deque (os : list op) : State :=
  let s0 := {| fElemSize := 8; fInitialStorage := 1000; fCount := 0;
               fAllocCount := 1; fFront := 1000; fBack := 1000;
               heap := {[1000 := Block_init 1000 (sizeof_Block + 24)]};
               brk := 2000; freed := [] |} in
  match run false os s0 with
  | Ok s => s
  | _ => s0
  end.

(** * Properties *)

Lemma head0_cons a l : head0 (a :: l) = a.
Proof. reflexivity. Qed.

Lemma last0_snoc l a : last0 (l ++ [a]) = a.
Proof. unfold last0. by rewrite last_snoc. Qed.

Lemma head0_app_cons l1 a l2 : head0 ((l1 ++ [a]) ++ l2) = head0 (l1 ++ [a]).
Proof. destruct l1; reflexivity. Qed.

Lemma last0_cons_cons a b l : last0 (a :: b :: l) = last0 (b :: l).
Proof. reflexivity. Qed.

Lemma last0_cons_ne a l : l <> [] -> last0 (a :: l) = last0 l.
Proof. destruct l; [done | reflexivity]. Qed.

Lemma head0_snoc_ne l a : l <> [] -> head0 (l ++ [a]) = head0 l.
Proof. destruct l; [done | reflexivity]. Qed.

Lemma head0_elem l : l <> [] -> head0 l ∈ l.
Proof. destruct l; [done | intros _; left]. Qed.

Lemma last0_elem l : l <> [] -> last0 l ∈ l.
Proof.
  destruct (decide (l = [])) as [|Hne]; [done | intros _].
  destruct (exists_last Hne) as (l' & a & ->).
  rewrite last0_snoc. set_solver.
Qed.

(** Two ways to split a duplicate-free list at the same element agree. *)
Lemma split_unique (l1 l1' : list Z) a l2 l2' :
  NoDup (l1 ++ a :: l2) -> l1 ++ a :: l2 = l1' ++ a :: l2' ->
  l1 = l1' /\ l2 = l2'.
Proof.
  revert l1'. induction l1 as [|x l1 IH]; intros [|x' l1'] Hnd Heq; simpl in *.
  - by simplify_eq.
  - simplify_eq. apply NoDup_cons in Hnd as [Hx _]. set_solver.
  - simplify_eq. apply NoDup_cons in Hnd as [Hx _]. set_solver.
  - simplify_eq. apply NoDup_cons in Hnd as [_ Hnd].
    destruct (IH l1' Hnd) as [-> ->]; auto.
Qed.

Lemma chain_lookup h f k l l1 a l2 :
  chain h f k l -> l = l1 ++ a :: l2 ->
  exists b, h !! a = Some b /\ fPrev b = last0 l1 /\ fNext b = head0 l2.
Proof. intros C. apply (chain_links _ _ _ _ C). Qed.

Lemma chain_elem h f k l a :
  chain h f k l -> a ∈ l ->
  exists l1 l2, l = l1 ++ a :: l2.
Proof. intros _ Hin. by apply list_elem_of_split. Qed.

Lemma chain_empty : chain ∅ NULL NULL [].
Proof.
  split; try done.
  - apply NoDup_nil_2.
  - set_solver.
  - intros a. rewrite lookup_empty. split; [set_solver | by intros [? ?]].
  - intros [|??] ???; done.
Qed.

Lemma chain_nil_inv h f k : chain h f k [] -> h = ∅ /\ f = NULL /\ k = NULL.
Proof.
  intros C. split; [| split; [apply (chain_front _ _ _ _ C) | apply (chain_back _ _ _ _ C)]].
  apply map_empty. intros a. apply eq_None_not_Some.
  rewrite <- (chain_dom _ _ _ _ C). set_solver.
Qed.

Lemma chain_single p b :
  p <> NULL -> fPrev b = NULL -> fNext b = NULL -> chain {[p := b]} p p [p].
Proof.
  intros Hp Hpr Hnx. split; try done.
  - apply NoDup_singleton.
  - set_solver.
  - intros a. rewrite lookup_singleton_is_Some. set_solver.
  - intros l1 a l2 Heq.
    destruct l1 as [|x l1]; simpl in Heq.
    + simplify_eq. exists b. by rewrite lookup_singleton_eq.
    + simplify_eq. by destruct l1.
Qed.

(** Rewriting the fields of one Block that are not links keeps the chain. *)
Lemma chain_data h f k l a b b' :
  chain h f k l -> h !! a = Some b ->
  fPrev b' = fPrev b -> fNext b' = fNext b ->
  chain (<[a := b']> h) f k l.
Proof.
  intros C Ha Hp Hn. split; try apply C.
  - intros x. rewrite (chain_dom _ _ _ _ C), lookup_insert_is_Some.
    destruct (decide (a = x)) as [<- | Hne]; [| naive_solver].
    split; [auto | eauto].
  - intros l1 x l2 Heq.
    destruct (chain_links _ _ _ _ C _ _ _ Heq) as (bx & Hx & Hpx & Hnx).
    destruct (decide (a = x)) as [<- | Hne].
    + exists b'. rewrite lookup_insert_eq. split; [done |]. 
      assert (bx = b) by congruence. subst. split; congruence.
    + exists bx. by rewrite lookup_insert_ne.
Qed.

Lemma snoc_split (l l1 l2 : list Z) p a :
  l ++ [p] = l1 ++ a :: l2 ->
  (l2 = [] /\ l1 = l /\ a = p) \/
  (exists l2', l2 = l2' ++ [p] /\ l = l1 ++ a :: l2').
Proof.
  intros Heq. destruct (decide (l2 = [])) as [-> | Hne].
  - left. change (l1 ++ [a]) with (l1 ++ [a]) in Heq.
    apply app_inj_tail in Heq as [-> ->]. done.
  - right. destruct (exists_last Hne) as (l2' & q & ->).
    exists l2'. rewrite app_comm_cons, app_assoc in Heq.
    apply app_inj_tail in Heq as [-> ->]. done.
Qed.

Lemma cons_split (l l1 l2 : list Z) p a :
  p :: l = l1 ++ a :: l2 ->
  (l1 = [] /\ l2 = l /\ a = p) \/
  (exists l1', l1 = p :: l1' /\ l = l1' ++ a :: l2).
Proof.
  intros Heq. destruct l1 as [|x l1]; simpl in Heq; simplify_eq.
  - by left.
  - right. by exists l1.
Qed.

(** Linking a new Block before the front. *)
Lemma chain_cons h f k l p bf bp :
  chain h f k l -> l <> [] -> h !! f = Some bf ->
  p ∉ l -> p <> NULL -> fPrev bp = NULL -> fNext bp = f ->
  chain (<[p := bp]> (<[f := set_fPrev p bf]> h)) p k (p :: l).
Proof.
  intros C Hl Hf Hp Hp0 Hpr Hnx.
  assert (Hfl : f ∈ l) by (rewrite (chain_front _ _ _ _ C); by apply head0_elem).
  split.
  - apply NoDup_cons. split; [done | apply C].
  - pose proof (chain_nonnull _ _ _ _ C). set_solver.
  - intros x. rewrite !lookup_insert_is_Some, <- (chain_dom _ _ _ _ C).
    rewrite elem_of_cons.
    destruct (decide (p = x)), (decide (f = x)); subst; naive_solver.
  - reflexivity.
  - rewrite last0_cons_ne by done. apply C.
  - intros l1 a l2 Heq. apply cons_split in Heq as [(-> & -> & ->) | (l1' & -> & Hl')].
    + exists bp. rewrite lookup_insert_eq. split; [done|]. split; [done|]. rewrite Hnx. apply C.
    + destruct (chain_links _ _ _ _ C _ _ _ Hl') as (bx & Hx & Hpx & Hnx').
      assert (a ∈ l) by (rewrite Hl'; set_solver).
      assert (p <> a) by (intros ->; done).
      rewrite lookup_insert_ne by done.
      destruct l1' as [|y l1'].
      * simpl in Hl'. assert (f = a) as <-.
        { rewrite (chain_front _ _ _ _ C), Hl'. reflexivity. }
        exists (set_fPrev p bf). rewrite lookup_insert_eq.
        split; [done|]. simpl. split; [done|]. congruence.
      * assert (f <> a).
        { rewrite (chain_front _ _ _ _ C), Hl'. simpl.
          pose proof (chain_nodup _ _ _ _ C) as Hnd. rewrite Hl' in Hnd.
          simpl in Hnd. apply NoDup_cons in Hnd as [Hy _]. set_solver. }
        rewrite lookup_insert_ne by done. exists bx. done.
Qed.

(** Linking a new Block after the back. *)
Lemma chain_snoc h f k l p bk bp :
  chain h f k l -> l <> [] -> h !! k = Some bk ->
  p ∉ l -> p <> NULL -> fPrev bp = k -> fNext bp = NULL ->
  chain (<[p := bp]> (<[k := set_fNext p bk]> h)) f p (l ++ [p]).
Proof.
  intros C Hl Hk Hp Hp0 Hpr Hnx.
  assert (Hkl : k ∈ l) by (rewrite (chain_back _ _ _ _ C); by apply last0_elem).
  split.
  - apply NoDup_app. split; [apply C|]. split; [| apply NoDup_singleton].
    intros x Hx. set_solver.
  - pose proof (chain_nonnull _ _ _ _ C). set_solver.
  - intros x. rewrite !lookup_insert_is_Some, <- (chain_dom _ _ _ _ C).
    rewrite elem_of_app, list_elem_of_singleton.
    destruct (decide (p = x)), (decide (k = x)); subst; naive_solver.
  - rewrite head0_snoc_ne by done. apply C.
  - by rewrite last0_snoc.
  - intros l1 a l2 Heq. apply snoc_split in Heq as [(-> & -> & ->) | (l2' & -> & Hl')].
    + exists bp. rewrite lookup_insert_eq. split; [done|]. split; [|done].
      rewrite Hpr. apply C.
    + destruct (chain_links _ _ _ _ C _ _ _ Hl') as (bx & Hx & Hpx & Hnx').
      assert (a ∈ l) by (rewrite Hl'; set_solver).
      assert (p <> a) by (intros ->; done).
      rewrite lookup_insert_ne by done.
      destruct (decide (l2' = [])) as [-> | Hne].
      * assert (k = a) as <-.
        { rewrite (chain_back _ _ _ _ C), Hl'. by rewrite last0_snoc. }
        exists (set_fNext p bk). rewrite lookup_insert_eq.
        split; [done|]. simpl. split; [congruence | done].
      * assert (k <> a).
        { destruct (exists_last Hne) as (l3 & q & ->).
          rewrite (chain_back _ _ _ _ C), Hl'.
          rewrite app_comm_cons, app_assoc, last0_snoc.
          pose proof (chain_nodup _ _ _ _ C) as Hnd. rewrite Hl' in Hnd.
          apply NoDup_app in Hnd as (_ & _ & Hnd).
          apply NoDup_cons in Hnd as [Hy _]. set_solver. }
        rewrite lookup_insert_ne by done. exists bx.
        split; [done|]. split; [done|]. rewrite Hnx'. by destruct l2'.
Qed.

(** Unlinking the front Block. *)
Lemma chain_pop_head h f k a a2 l b2 :
  chain h f k (a :: a2 :: l) -> h !! a2 = Some b2 ->
  chain (delete a (<[a2 := set_fPrev NULL b2]> h)) a2 k (a2 :: l).
Proof.
  intros C H2.
  pose proof (chain_nodup _ _ _ _ C) as Hnd.
  apply NoDup_cons in Hnd as [Ha Hnd].
  assert (a <> a2) by set_solver.
  split.
  - done.
  - pose proof (chain_nonnull _ _ _ _ C). set_solver.
  - intros x. rewrite lookup_delete_is_Some, lookup_insert_is_Some.
    rewrite <- (chain_dom _ _ _ _ C).
    destruct (decide (a = x)), (decide (a2 = x)); subst; set_solver.
  - reflexivity.
  - rewrite (chain_back _ _ _ _ C). reflexivity.
  - intros l1 x l2 Heq.
    assert (x ∈ a2 :: l) by (rewrite Heq; set_solver).
    assert (a <> x) by (intros ->; done).
    rewrite lookup_delete_ne by done.
    destruct (chain_links _ _ _ _ C (a :: l1) x l2) as (bx & Hx & Hpx & Hnx).
    { by rewrite Heq. }
    destruct l1 as [|y l1]; simpl in Heq; simplify_eq.
    + eexists. rewrite lookup_insert_eq. split; [done|]. simpl. split; [done|]. congruence.
    + apply NoDup_cons in Hnd as [Hy _].
      assert (y <> x) by set_solver.
      rewrite lookup_insert_ne by done. exists bx. done.
Qed.

(** Unlinking the back Block. *)
Lemma chain_pop_last h f k a a1 l b1 :
  chain h f k (l ++ [a1; a]) -> h !! a1 = Some b1 ->
  chain (delete a (<[a1 := set_fNext NULL b1]> h)) f a1 (l ++ [a1]).
Proof.
  intros C H1.
  assert (Hll : l ++ [a1; a] = (l ++ [a1]) ++ [a]) by by rewrite <- app_assoc.
  rewrite Hll in C.
  pose proof (chain_nodup _ _ _ _ C) as Hnd.
  apply NoDup_app in Hnd as (Hnd & Ha & _).
  assert (a ∉ l ++ [a1]) by (intros Hin; apply (Ha _ Hin); set_solver).
  assert (a <> a1) by set_solver.
  split.
  - done.
  - pose proof (chain_nonnull _ _ _ _ C). set_solver.
  - intros x. rewrite lookup_delete_is_Some, lookup_insert_is_Some.
    rewrite <- (chain_dom _ _ _ _ C).
    destruct (decide (a = x)), (decide (a1 = x)); subst; set_solver.
  - rewrite (chain_front _ _ _ _ C). destruct l; reflexivity.
  - by rewrite last0_snoc.
  - intros l1 x l2 Heq.
    assert (x ∈ l ++ [a1]) by (rewrite Heq; set_solver).
    assert (a <> x) by (intros ->; done).
    rewrite lookup_delete_ne by done.
    destruct (chain_links _ _ _ _ C l1 x (l2 ++ [a])) as (bx & Hx & Hpx & Hnx).
    { rewrite Heq. by rewrite <- app_assoc. }
    apply snoc_split in Heq as [(-> & -> & ->) | (l2' & -> & Hl')].
    + eexists. rewrite lookup_insert_eq. split; [done|]. simpl. split; [congruence|done].
    + assert (a1 <> x).
      { rewrite Hl' in Hnd. rewrite <- app_assoc in Hnd.
        apply NoDup_app in Hnd as (_ & _ & Hnd). simpl in Hnd.
        apply NoDup_cons in Hnd as [Hy _]. set_solver. }
      rewrite lookup_insert_ne by done. exists bx.
      split; [done|]. split; [done|]. rewrite Hnx. by destruct l2'.
Qed.

(** *** Slots *)

Lemma slots_from_length p es n : length (slots_from p es n) = n.
Proof. revert p. induction n; intros; simpl; auto. Qed.

Lemma slots_from_snoc p es n :
  slots_from p es (S n) = slots_from p es n ++ [p + Z.of_nat n * es].
Proof.
  revert p. induction n as [|n IH]; intros p.
  - simpl. f_equal. lia.
  - change (slots_from p es (S (S n))) with (p :: slots_from (p + es) es (S n)).
    rewrite IH. simpl. do 2 f_equal. f_equal. lia.
Qed.

Lemma elem_of_slots_from x p es n :
  x ∈ slots_from p es n <-> exists i : nat, (i < n)%nat /\ x = p + Z.of_nat i * es.
Proof.
  revert p. induction n as [|n IH]; intros p; simpl.
  - split; [set_solver | intros (? & ? & _); lia].
  - rewrite elem_of_cons, IH. split.
    + intros [-> | (i & Hi & ->)].
      * exists 0%nat. split; lia.
      * exists (S i). split; lia.
    + intros ([|i] & Hi & ->).
      * left. lia.
      * right. exists i. split; lia.
Qed.

Lemma nslots_eq es b (n : nat) :
  0 < es -> fEnd b = fBegin b + Z.of_nat n * es -> nslots es b = n.
Proof.
  intros Hes Hb. unfold nslots.
  replace (fEnd b - fBegin b) with (Z.of_nat n * es) by lia.
  rewrite Z.div_mul by lia. lia.
Qed.

Lemma slots_dead es b : fBegin b = NULL -> slots es b = [].
Proof. intros H. unfold slots. by rewrite decide_True. Qed.

Lemma slots_live es b (n : nat) :
  0 < es -> fBegin b <> NULL -> fEnd b = fBegin b + Z.of_nat n * es ->
  slots es b = slots_from (fBegin b) es n.
Proof.
  intros Hes Hl Hb. unfold slots. rewrite decide_False by done.
  by rewrite (nslots_eq es b n).
Qed.

(** *** Contents *)

Lemma contents_of_nil es h : contents_of es h [] = [].
Proof. reflexivity. Qed.

Lemma contents_of_cons es h a l :
  contents_of es h (a :: l) = slots_at es h a ++ contents_of es h l.
Proof. reflexivity. Qed.

Lemma contents_of_app es h l1 l2 :
  contents_of es h (l1 ++ l2) = contents_of es h l1 ++ contents_of es h l2.
Proof. unfold contents_of. apply bind_app. Qed.

Lemma contents_of_snoc es h l a :
  contents_of es h (l ++ [a]) = contents_of es h l ++ slots_at es h a.
Proof.
  rewrite contents_of_app, contents_of_cons, contents_of_nil.
  by rewrite app_nil_r.
Qed.

Lemma contents_of_ext es h h' l :
  (forall a, a ∈ l -> h' !! a = h !! a) ->
  contents_of es h' l = contents_of es h l.
Proof.
  induction l as [|a l IH]; intros Hext; [done |].
  rewrite !contents_of_cons. rewrite IH by (intros; apply Hext; set_solver).
  f_equal. unfold slots_at. rewrite Hext by set_solver. done.
Qed.

Lemma slots_at_insert_eq es h a b : slots_at es (<[a := b]> h) a = slots es b.
Proof. unfold slots_at. by rewrite lookup_insert_eq. Qed.

Lemma slots_at_lookup es h a b : h !! a = Some b -> slots_at es h a = slots es b.
Proof. unfold slots_at. by intros ->. Qed.

(** *** Walking the chain *)

Lemma walk_chain h f k l l1 l2 n :
  chain h f k l -> l = l1 ++ l2 -> (length l2 <= n)%nat ->
  walk n h (head0 l2) = l2.
Proof.
  intros C. revert l1 n. induction l2 as [|a l2 IH]; intros l1 n Hl Hn.
  - by destruct n.
  - destruct n as [|n]; simpl in Hn; [lia |].
    destruct (chain_links _ _ _ _ C _ _ _ Hl) as (b & Hb & _ & Hnx).
    assert (a <> NULL).
    { intros ->. apply (chain_nonnull _ _ _ _ C). rewrite Hl. set_solver. }
    rewrite head0_cons. cbn [walk]. rewrite decide_False by done. rewrite Hb. f_equal.
    rewrite Hnx. apply (IH (l1 ++ [a])); [| lia].
    by rewrite <- app_assoc.
Qed.

Lemma chain_size h f k l : chain h f k l -> size h = length l.
Proof.
  intros C. rewrite <- size_dom.
  assert (dom h = list_to_set l) as ->.
  { apply set_eq. intros a. rewrite elem_of_dom, elem_of_list_to_set.
    symmetry. apply C. }
  rewrite size_list_to_set; [done | apply C].
Qed.

Lemma blocks_chain s l : chain (heap s) (fFront s) (fBack s) l -> blocks s = l.
Proof.
  intros C. unfold blocks. rewrite (chain_front _ _ _ _ C).
  apply (walk_chain _ _ _ _ [] l _ C); [done |].
  rewrite (chain_size _ _ _ _ C). lia.
Qed.

Lemma contents_Inv s l :
  Inv s l -> contents s = contents_of (fElemSize s) (heap s) l.
Proof. intros I. unfold contents. by rewrite (blocks_chain s l (inv_chain _ _ I)). Qed.

Lemma sizeof_Block_pos : 0 < sizeof_Block.
Proof. reflexivity. Qed.

Lemma load_Some s p b : p <> NULL -> heap s !! p = Some b -> load s p = Ok b.
Proof. intros Hp Hb. unfold load. rewrite decide_False by done. by rewrite Hb. Qed.

Lemma poke_Some s p f b :
  p <> NULL -> heap s !! p = Some b -> poke p f s = Ok (store p (f b) s).
Proof. intros Hp Hb. unfold poke. by rewrite (load_Some s p b). Qed.

Lemma SkASSERT_holds debug (P : Prop) `{Decision P} :
  P -> SkASSERT debug (bool_decide P) = Ok tt.
Proof.
  intros HP. unfold SkASSERT. rewrite bool_decide_eq_true_2 by done.
  by destruct debug.
Qed.

Lemma SkASSERT_release c : SkASSERT false c = Ok tt.
Proof. reflexivity. Qed.

(** Projections of an explicit state. *)
Ltac proj :=
  cbn [fElemSize fInitialStorage fCount fAllocCount fFront fBack heap brk freed] in *.

(** Equality of heaps built by insertions and deletions. *)
Ltac heap_eq :=
  apply map_eq; intros ?;
  repeat (rewrite ?lookup_insert, ?lookup_delete; case_decide; subst);
  try done; try congruence.

(** *** Blocks *)

Lemma block_ok_mono es lim lim' a b :
  lim <= lim' -> block_ok es lim a b -> block_ok es lim' a b.
Proof. unfold block_ok. intros Hle (? & ? & ? & ?). repeat split; auto; lia. Qed.

Lemma blocks_ok_mono es lim lim' (h : gmap Z Block) :
  lim <= lim' -> map_Forall (block_ok es lim) h -> map_Forall (block_ok es lim') h.
Proof. intros Hle F a b Hb. apply (block_ok_mono es lim); [done | by apply F]. Qed.

Lemma block_ok_init es lim p size :
  0 < p -> sizeof_Block + es <= size -> p + size <= lim ->
  block_ok es lim p (Block_init p size).
Proof.
  intros Hp Hsz Hlim. unfold block_ok, start. simpl.
  split; [lia |]. split; [lia |]. split; [lia |]. by left.
Qed.

Lemma regions_disjoint_empty : regions_disjoint ∅.
Proof. intros a1 b1 a2 b2 H. by rewrite lookup_empty in H. Qed.

Lemma regions_disjoint_data (h : gmap Z Block) a b b' :
  regions_disjoint h -> h !! a = Some b -> fStop b' = fStop b ->
  regions_disjoint (<[a := b']> h).
Proof.
  intros D Ha Hs a1 b1 a2 b2 H1 H2 Hne.
  rewrite lookup_insert in H1, H2.
  repeat case_decide; simplify_eq; rewrite ?Hs; eapply D; eauto.
Qed.

Lemma regions_disjoint_new es lim (h : gmap Z Block) p bp :
  regions_disjoint h -> map_Forall (block_ok es lim) h -> 0 <= es ->
  lim <= p -> p < fStop bp ->
  regions_disjoint (<[p := bp]> h).
Proof.
  intros D F Hes Hlim Hp a1 b1 a2 b2 H1 H2 Hne.
  rewrite lookup_insert in H1, H2.
  repeat case_decide; simplify_eq.
  - match goal with H : h !! _ = Some _ |- _ =>
      destruct (F _ _ H) as (? & ? & ? & _) end.
    unfold start in *. pose proof sizeof_Block_pos. lia.
  - match goal with H : h !! _ = Some _ |- _ =>
      destruct (F _ _ H) as (? & ? & ? & _) end.
    unfold start in *. pose proof sizeof_Block_pos. lia.
  - eapply D; eauto.
Qed.

Lemma regions_disjoint_delete (h : gmap Z Block) a :
  regions_disjoint h -> regions_disjoint (delete a h).
Proof.
  intros D a1 b1 a2 b2 H1 H2 Hne.
  apply lookup_delete_Some in H1 as [_ H1].
  apply lookup_delete_Some in H2 as [_ H2].
  by apply (D a1 b1 a2 b2).
Qed.

Lemma blocks_ok_fresh es lim (h : gmap Z Block) p :
  map_Forall (block_ok es lim) h -> 0 <= es -> lim <= p -> h !! p = None.
Proof.
  intros F Hes Hlim. destruct (h !! p) as [b|] eqn:Hb; [| done].
  destruct (F _ _ Hb) as (? & ? & ? & _). unfold start in *.
  pose proof sizeof_Block_pos. lia.
Qed.

(** *** Contents under updates *)

Lemma contents_of_insert_notin es (h : gmap Z Block) l a b :
  a ∉ l -> contents_of es (<[a := b]> h) l = contents_of es h l.
Proof.
  intros Ha. apply contents_of_ext. intros x Hx.
  rewrite lookup_insert_ne; [done | set_solver].
Qed.

Lemma contents_of_delete_notin es (h : gmap Z Block) l a :
  a ∉ l -> contents_of es (delete a h) l = contents_of es h l.
Proof.
  intros Ha. apply contents_of_ext. intros x Hx.
  rewrite lookup_delete_ne; [done | set_solver].
Qed.

Lemma contents_of_split es (h : gmap Z Block) l1 a l2 b :
  h !! a = Some b ->
  contents_of es h (l1 ++ a :: l2) =
  contents_of es h l1 ++ slots es b ++ contents_of es h l2.
Proof.
  intros Hb. rewrite contents_of_app, contents_of_cons.
  by rewrite (slots_at_lookup es h a b).
Qed.

Lemma contents_of_insert_split es (h : gmap Z Block) l1 a l2 b' :
  NoDup (l1 ++ a :: l2) ->
  contents_of es (<[a := b']> h) (l1 ++ a :: l2) =
  contents_of es h l1 ++ slots es b' ++ contents_of es h l2.
Proof.
  intros Hnd. apply NoDup_app in Hnd as (_ & H1 & Hnd).
  apply NoDup_cons in Hnd as [H2 _].
  rewrite (contents_of_split es _ l1 a l2 b') by apply lookup_insert_eq.
  rewrite !contents_of_insert_notin; [done | done |].
  intros Hin. apply (H1 _ Hin). set_solver.
Qed.

Lemma contents_of_head es (h : gmap Z Block) a l b :
  h !! a = Some b ->
  contents_of es h (a :: l) = slots es b ++ contents_of es h l.
Proof. apply (contents_of_split es h [] a l b). Qed.

Lemma contents_of_insert_head es (h : gmap Z Block) a l b' :
  NoDup (a :: l) ->
  contents_of es (<[a := b']> h) (a :: l) = slots es b' ++ contents_of es h l.
Proof. apply (contents_of_insert_split es h [] a l b'). Qed.

Lemma contents_of_last es (h : gmap Z Block) a l b :
  h !! a = Some b ->
  contents_of es h (l ++ [a]) = contents_of es h l ++ slots es b.
Proof.
  intros Hb. rewrite (contents_of_split es h l a [] b) by done.
  by rewrite contents_of_nil, app_nil_r.
Qed.

Lemma contents_of_insert_last es (h : gmap Z Block) a l b' :
  NoDup (l ++ [a]) ->
  contents_of es (<[a := b']> h) (l ++ [a]) = contents_of es h l ++ slots es b'.
Proof.
  intros Hnd. rewrite (contents_of_insert_split es h l a [] b') by done.
  by rewrite contents_of_nil, app_nil_r.
Qed.

(** *** The invariant under a change of the used section of one Block *)

Lemma Inv_update es sto cnt cnt' ac fr bk (h : gmap Z Block) br fre l l1 a l2 b b' :
  Inv (mkState es sto cnt ac fr bk h br fre) l ->
  l = l1 ++ a :: l2 -> h !! a = Some b ->
  fPrev b' = fPrev b -> fNext b' = fNext b -> fStop b' = fStop b ->
  block_ok es br a b' ->
  (0 < es -> fBegin b' <> NULL \/ l1 = [] \/ l2 = []) ->
  (0 < es -> cnt' = Z.of_nat (length (contents_of es h l1 ++ slots es b' ++
                                      contents_of es h l2))) ->
  Inv (mkState es sto cnt' ac fr bk (<[a := b']> h) br fre) l.
Proof.
  intros I Hl Hb Hpr Hnx Hst Hok Hmid Hcnt.
  destruct I as [Hes Hac Hbr C F D M N]. proj.
  split; proj; auto.
  - by apply (chain_data _ _ _ _ _ b).
  - by apply map_Forall_insert_2.
  - by apply (regions_disjoint_data _ _ b).
  - intros Hpos k1 x k2 bx Hl' Hk1 Hk2 Hx.
    rewrite lookup_insert in Hx. case_decide; simplify_eq.
    + pose proof (chain_nodup _ _ _ _ C) as Hnd.
      destruct (split_unique _ _ _ _ _ Hnd Hl') as [-> ->].
      destruct (Hmid Hpos) as [? | [? | ?]]; done.
    + by apply (M Hpos k1 x k2 bx).
  - intros Hpos. rewrite (Hcnt Hpos). subst l.
    rewrite contents_of_insert_split; [done | apply C].
Qed.

Lemma slots_set_fPrev es v b : slots es (set_fPrev v b) = slots es b.
Proof. reflexivity. Qed.

Lemma slots_set_fNext es v b : slots es (set_fNext v b) = slots es b.
Proof. reflexivity. Qed.

Lemma Inv_back s l : Inv s l -> fBack s = last0 l.
Proof. intros I. apply (chain_back _ _ _ _ (inv_chain _ _ I)). Qed.

Lemma Inv_front s l : Inv s l -> fFront s = head0 l.
Proof. intros I. apply (chain_front _ _ _ _ (inv_chain _ _ I)). Qed.

Lemma Inv_nonnull s l a : Inv s l -> a ∈ l -> a <> NULL.
Proof.
  intros I Ha ->. by apply (chain_nonnull _ _ _ _ (inv_chain _ _ I)).
Qed.

Lemma Inv_lookup s l a : Inv s l -> a ∈ l -> exists b, heap s !! a = Some b.
Proof. intros I Ha. by apply (chain_dom _ _ _ _ (inv_chain _ _ I)). Qed.

(** *** The invariant when an empty Block is linked or unlinked *)

Lemma Inv_link_back es sto cnt ac fr bk (h : gmap Z Block) br fre l b size :
  Inv (mkState es sto cnt ac fr bk h br fre) l ->
  l <> [] -> h !! bk = Some b -> fBegin b <> NULL ->
  sizeof_Block + es <= size ->
  Inv (mkState es sto cnt ac fr br
         (<[br := set_fPrev bk (Block_init br size)]> (<[bk := set_fNext br b]> h))
         (br + size) fre) (l ++ [br]).
Proof.
  intros I Hl Hb Hlive Hsz.
  destruct I as [Hes Hac Hbr C F D M N]. proj.
  pose proof sizeof_Block_pos as Hhdr.
  assert (Hfresh : h !! br = None) by (apply (blocks_ok_fresh es br); auto; lia).
  assert (Hbrl : br ∉ l).
  { intros Hin. apply (chain_dom _ _ _ _ C) in Hin as [? ?]. congruence. }
  assert (Hbkl : bk ∈ l).
  { rewrite (chain_back _ _ _ _ C). by apply last0_elem. }
  assert (Hne : bk <> br) by (intros ->; done).
  split; proj; auto; try lia.
  - apply chain_snoc; auto. unfold NULL. lia.
  - apply map_Forall_insert_2.
    + apply (block_ok_init es (br + size) br size); lia.
    + apply map_Forall_insert_2.
      * apply (block_ok_mono es br); [lia |]. by apply (F bk b).
      * apply (blocks_ok_mono es br); [lia | done].
  - apply (regions_disjoint_new es br); auto; try lia.
    + by apply (regions_disjoint_data _ _ b).
    + apply map_Forall_insert_2; [by apply (F bk b) | done].
    + simpl. lia.
  - intros Hpos k1 x k2 bx Hl' Hk1 Hk2 Hx.
    apply snoc_split in Hl' as [(-> & _) | (k2' & -> & Hl')]; [done |].
    assert (x ∈ l) by (rewrite Hl'; set_solver).
    rewrite lookup_insert_ne in Hx by (intros ->; done).
    rewrite lookup_insert in Hx. case_decide; simplify_eq; [done |].
    apply (M Hpos k1 x k2' bx); auto.
    intros ->.
    assert (bk = x) by (rewrite (chain_back _ _ _ _ C); by rewrite last0_snoc).
    done.
  - intros Hpos. rewrite (N Hpos). do 2 f_equal.
    rewrite contents_of_snoc, slots_at_insert_eq.
    rewrite slots_dead by done. rewrite app_nil_r.
    rewrite contents_of_insert_notin by done.
    pose proof (chain_nodup _ _ _ _ C) as Hnd.
    destruct (list_elem_of_split _ _ Hbkl) as (k1 & k2 & ->).
    rewrite contents_of_insert_split by done.
    by rewrite (contents_of_split es h k1 bk k2 b).
Qed.

Lemma Inv_link_front es sto cnt ac fr bk (h : gmap Z Block) br fre l b size :
  Inv (mkState es sto cnt ac fr bk h br fre) l ->
  l <> [] -> h !! fr = Some b -> fBegin b <> NULL ->
  sizeof_Block + es <= size ->
  Inv (mkState es sto cnt ac br bk
         (<[br := set_fNext fr (Block_init br size)]> (<[fr := set_fPrev br b]> h))
         (br + size) fre) (br :: l).
Proof.
  intros I Hl Hb Hlive Hsz.
  destruct I as [Hes Hac Hbr C F D M N]. proj.
  pose proof sizeof_Block_pos as Hhdr.
  assert (Hfresh : h !! br = None) by (apply (blocks_ok_fresh es br); auto; lia).
  assert (Hbrl : br ∉ l).
  { intros Hin. apply (chain_dom _ _ _ _ C) in Hin as [? ?]. congruence. }
  assert (Hfrl : fr ∈ l).
  { rewrite (chain_front _ _ _ _ C). by apply head0_elem. }
  assert (Hne : fr <> br) by (intros ->; done).
  split; proj; auto; try lia.
  - apply chain_cons; auto. unfold NULL. lia.
  - apply map_Forall_insert_2.
    + apply (block_ok_init es (br + size) br size); lia.
    + apply map_Forall_insert_2.
      * apply (block_ok_mono es br); [lia |]. by apply (F fr b).
      * apply (blocks_ok_mono es br); [lia | done].
  - apply (regions_disjoint_new es br); auto; try lia.
    + by apply (regions_disjoint_data _ _ b).
    + apply map_Forall_insert_2; [by apply (F fr b) | done].
    + simpl. lia.
  - intros Hpos k1 x k2 bx Hl' Hk1 Hk2 Hx.
    apply cons_split in Hl' as [(-> & _) | (k1' & -> & Hl')]; [done |].
    assert (x ∈ l) by (rewrite Hl'; set_solver).
    rewrite lookup_insert_ne in Hx by (intros ->; done).
    rewrite lookup_insert in Hx. case_decide; simplify_eq; [done |].
    apply (M Hpos k1' x k2 bx); auto.
    intros ->.
    assert (fr = x) by (rewrite (chain_front _ _ _ _ C); reflexivity).
    done.
  - intros Hpos. rewrite (N Hpos). do 2 f_equal.
    rewrite contents_of_cons, slots_at_insert_eq.
    rewrite slots_dead by done. rewrite app_nil_l.
    rewrite contents_of_insert_notin by done.
    pose proof (chain_nodup _ _ _ _ C) as Hnd.
    destruct (list_elem_of_split _ _ Hfrl) as (k1 & k2 & ->).
    rewrite contents_of_insert_split by done.
    by rewrite (contents_of_split es h k1 fr k2 b).
Qed.

Lemma Inv_unlink_front es sto cnt ac fr bk (h : gmap Z Block) br fre fre' a a2 l b b2 :
  Inv (mkState es sto cnt ac fr bk h br fre) (a :: a2 :: l) ->
  h !! a = Some b -> fBegin b = NULL -> h !! a2 = Some b2 ->
  Inv (mkState es sto cnt ac a2 bk
         (delete a (<[a2 := set_fPrev NULL b2]> h)) br fre') (a2 :: l).
Proof.
  intros I Hb Hdead Hb2.
  destruct I as [Hes Hac Hbr C F D M N]. proj.
  pose proof (chain_nodup _ _ _ _ C) as Hnd.
  apply NoDup_cons in Hnd as [Ha Hnd].
  split; proj; auto.
  - by apply (chain_pop_head _ fr).
  - apply map_Forall_delete. apply map_Forall_insert_2; [| done]. by apply (F a2 b2).
  - apply regions_disjoint_delete. by apply (regions_disjoint_data _ _ b2).
  - intros Hpos k1 x k2 bx Hl' Hk1 Hk2 Hx.
    assert (x ∈ a2 :: l) by (rewrite Hl'; set_solver).
    rewrite lookup_delete_ne in Hx by (intros ->; done).
    rewrite lookup_insert in Hx. case_decide; simplify_eq.
    + destruct k1; [done |]. simpl in Hl'. simplify_eq.
      apply NoDup_cons in Hnd as [Hx' _]. set_solver.
    + apply (M Hpos (a :: k1) x k2 bx); auto. by rewrite Hl'.
  - intros Hpos. rewrite (N Hpos). do 2 f_equal.
    rewrite contents_of_cons. rewrite (slots_at_lookup es h a b) by done.
    rewrite slots_dead by done. rewrite app_nil_l.
    rewrite contents_of_delete_notin by done.
    change (a2 :: l) with ([] ++ a2 :: l).
    rewrite contents_of_insert_split by done.
    by rewrite (contents_of_split es h [] a2 l b2).
Qed.

Lemma Inv_unlink_back es sto cnt ac fr bk (h : gmap Z Block) br fre fre' a a1 l b b1 :
  Inv (mkState es sto cnt ac fr bk h br fre) (l ++ [a1; a]) ->
  h !! a = Some b -> fBegin b = NULL -> h !! a1 = Some b1 ->
  Inv (mkState es sto cnt ac fr a1
         (delete a (<[a1 := set_fNext NULL b1]> h)) br fre') (l ++ [a1]).
Proof.
  intros I Hb Hdead Hb1.
  destruct I as [Hes Hac Hbr C F D M N]. proj.
  pose proof (chain_nodup _ _ _ _ C) as Hnd.
  assert (Hll : l ++ [a1; a] = (l ++ [a1]) ++ [a]) by by rewrite <- app_assoc.
  rewrite Hll in Hnd, N, M.
  apply NoDup_app in Hnd as (Hnd & Ha & _).
  assert (Hal : a ∉ l ++ [a1]) by (intros Hin; apply (Ha _ Hin); set_solver).
  split; proj; auto.
  - by apply (chain_pop_last _ _ bk).
  - apply map_Forall_delete. apply map_Forall_insert_2; [| done]. by apply (F a1 b1).
  - apply regions_disjoint_delete. by apply (regions_disjoint_data _ _ b1).
  - intros Hpos k1 x k2 bx Hl' Hk1 Hk2 Hx.
    assert (x ∈ l ++ [a1]) by (rewrite Hl'; set_solver).
    rewrite lookup_delete_ne in Hx by (intros ->; done).
    rewrite lookup_insert in Hx. case_decide; simplify_eq.
    + apply snoc_split in Hl' as [(-> & _) | (k2' & -> & Hl')]; [done |].
      rewrite Hl' in Hnd. rewrite <- app_assoc in Hnd.
      apply NoDup_app in Hnd as (_ & _ & Hnd). simpl in Hnd.
      apply NoDup_cons in Hnd as [Hx' _]. set_solver.
    + apply (M Hpos k1 x (k2 ++ [a]) bx); auto.
      * rewrite Hl'. by rewrite <- app_assoc.
      * by destruct k2.
  - intros Hpos. rewrite (N Hpos). do 2 f_equal.
    rewrite contents_of_snoc. rewrite (slots_at_lookup es h a b) by done.
    rewrite slots_dead by done. rewrite app_nil_r.
    rewrite contents_of_delete_notin by done.
    replace (l ++ [a1]) with (l ++ a1 :: []) by done.
    rewrite contents_of_insert_split by done.
    by rewrite (contents_of_split es h l a1 [] b1).
Qed.

(** Evaluation of the code on an explicit state: the state is brought back
    to an explicit record after every step. *)
Ltac ev :=
  cbv beta iota zeta delta
      [set_fCount set_fFront set_fBack set_heap set_brk set_freed
       store allocateBlock sk_malloc_throw freeBlock
       fElemSize fInitialStorage fCount fAllocCount fFront fBack heap brk freed]
    in *;
  cbn [bind fst snd fNext fPrev fBegin fEnd fStop
       set_fNext set_fPrev set_fBegin set_fEnd Block_init] in *.

Ltac norm_state := ev.

(** Bring the heap of the state in the goal to the form [D]. *)
Ltac heap_is D :=
  match goal with
  | |- context [mkState _ _ _ _ _ _ ?H _ _] =>
      let E := fresh "Hheap" in
      assert (E : H = D) by heap_eq; rewrite E; clear E
  end.

Ltac lookup_tac :=
  ev; repeat (rewrite lookup_insert_eq || (rewrite lookup_insert_ne by (done || lia)));
  first [reflexivity | eassumption].

Ltac arith := first [done | unfold NULL in *; ev; lia].

Ltac do_load := erewrite load_Some; [ev | arith | lookup_tac].

Ltac do_poke := erewrite poke_Some; [ev | arith | lookup_tac].

Ltac dec_true := rewrite decide_True by arith.

Ltac dec_false := rewrite decide_False by arith.

(** *** Slots of a Block after a push or before a pop *)

Lemma slots_one es b :
  0 < es -> fBegin b <> NULL -> fEnd b = fBegin b + es -> slots es b = [fBegin b].
Proof. intros Hes Hl He. rewrite (slots_live es b 1); [done | done | done | lia]. Qed.

Lemma slots_grow_back es b (n : nat) :
  0 < es -> fBegin b <> NULL -> fEnd b = fBegin b + Z.of_nat n * es ->
  slots es (set_fEnd (fEnd b + es) b) = slots es b ++ [fEnd b].
Proof.
  intros Hes Hl He.
  rewrite (slots_live es b n) by done.
  rewrite (slots_live es _ (S n)); [| done | done | simpl; lia].
  rewrite slots_from_snoc. simpl. by rewrite He.
Qed.

Lemma slots_grow_front es b (n : nat) :
  0 < es -> fBegin b <> NULL -> fBegin b - es <> NULL ->
  fEnd b = fBegin b + Z.of_nat n * es ->
  slots es (set_fBegin (fBegin b - es) b) = (fBegin b - es) :: slots es b.
Proof.
  intros Hes Hl Hl' He.
  rewrite (slots_live es b n) by done.
  rewrite (slots_live es _ (S n)); [| done | done | simpl; lia].
  simpl. do 2 f_equal. lia.
Qed.

Lemma slots_shrink_front es b (n : nat) :
  0 < es -> fBegin b <> NULL -> fBegin b + es <> NULL ->
  fEnd b = fBegin b + Z.of_nat (S n) * es ->
  slots es b = fBegin b :: slots es (set_fBegin (fBegin b + es) b).
Proof.
  intros Hes Hl Hl' He.
  rewrite (slots_live es b (S n)) by done.
  rewrite (slots_live es _ n); [| done | done | simpl; lia].
  reflexivity.
Qed.

Lemma slots_shrink_back es b (n : nat) :
  0 < es -> fBegin b <> NULL ->
  fEnd b = fBegin b + Z.of_nat (S n) * es ->
  slots es b = slots es (set_fEnd (fEnd b - es) b) ++ [fEnd b - es].
Proof.
  intros Hes Hl He.
  rewrite (slots_live es b (S n)) by done.
  rewrite (slots_live es _ n); [| done | done | simpl; lia].
  rewrite slots_from_snoc. simpl. do 2 f_equal. lia.
Qed.

Lemma Inv_first es sto cnt ac br fre size :
  Inv (mkState es sto cnt ac NULL NULL ∅ br fre) [] ->
  sizeof_Block + es <= size ->
  Inv (mkState es sto cnt ac br br {[br := Block_init br size]} (br + size) fre) [br].
Proof.
  intros I Hsz. destruct I as [Hes Hac Hbr C F D M N]. proj.
  pose proof sizeof_Block_pos.
  split; proj; auto; try lia.
  - apply chain_single; [unfold NULL; lia | done | done].
  - apply map_Forall_singleton. apply block_ok_init; lia.
  - rewrite <- insert_empty. apply (regions_disjoint_new es br).
    + apply regions_disjoint_empty.
    + apply map_Forall_empty.
    + done.
    + lia.
    + simpl. lia.
  - intros _ [|? [|??]] ?? bx Hl ??; simplify_eq.
  - intros Hpos. rewrite (N Hpos). 
    change [br] with ([] ++ [br]). rewrite contents_of_snoc.
    unfold slots_at. rewrite lookup_singleton_eq. by rewrite slots_dead.
Qed.

Lemma list_snoc_case (l : list Z) : l = [] \/ exists l' a, l = l' ++ [a].
Proof.
  destruct (decide (l = [])) as [| Hne]; [by left | right].
  destruct (exists_last Hne) as (l' & a & ->). eauto.
Qed.

Lemma alloc_size es ac : 0 <= es -> 1 <= ac -> sizeof_Block + es <= sizeof_Block + ac * es.
Proof. intros. nia. Qed.

(** [push_back] returns a slot, which becomes the last one. *)

(** How the chain of a push relates to the one before. *)
Ltac shape :=
  first [ by left
        | right; left; split; [done | by eexists]
        | right; right; unfold start in *; lia ].

Lemma push_back_spec s l :
  Inv s l ->
  exists p s' l',
    push_back s = Ok (p, s') /\ Inv s' l' /\ same_config s s' /\
    fCount s' = fCount s + 1 /\ freed s' = freed s /\
    (0 < fElemSize s ->
     contents_of (fElemSize s) (heap s') l' =
     contents_of (fElemSize s) (heap s) l ++ [p]) /\
    (l' = l \/ (l = [] /\ exists a, l' = [a]) \/ 0 < fElemSize s).
Proof.
  intros I.
  pose proof (inv_brk _ _ I) as Hbr.
  pose proof (inv_es _ _ I) as Hes.
  pose proof (inv_ac _ _ I) as Hac.
  pose proof sizeof_Block_pos as Hhdr.
  pose proof (alloc_size _ _ Hes Hac) as Hsz.
  assert (heap s !! brk s = None) as Hfresh.
  { apply (blocks_ok_fresh (fElemSize s) (brk s)); [apply I | apply I | lia]. }
  destruct (list_snoc_case l) as [-> | (l0 & a & ->)].
  - (* no Block yet *)
    destruct (chain_nil_inv _ _ _ (inv_chain _ _ I)) as (Hh & Hf & Hk).
    destruct s as [es sto cnt ac fr bk h br fre]. proj. subst fr bk.
    assert (I1 : Inv (mkState es sto cnt ac br br
                        (<[br := Block_init br (sizeof_Block + ac * es)]> h)
                        (br + (sizeof_Block + ac * es)) fre) [br]).
    { subst h. rewrite insert_empty. by apply Inv_first. }
    assert (Hcnt : 0 < es -> cnt = 0).
    { intros Hpos. pose proof (inv_count _ _ I Hpos) as Hc. proj. by rewrite Hc. }
    assert (Hc0 : contents_of es h [] = []) by done.
    clear Hh I.
    eexists _, _, [br]. split.
    { unfold push_back. ev. dec_true. ev. do_load. dec_true.
      unfold push_back_init_chunk. do_poke. do_load. do_poke.
      reflexivity. }
    unfold same_config. proj.
    set (b0 := Block_init br (sizeof_Block + ac * es)) in *.
    heap_is (<[br := set_fEnd (start br + es) (set_fBegin (start br) b0)]> h).
    assert (Hs : 0 < es ->
              slots es (set_fEnd (start br + es) (set_fBegin (start br) b0)) = [start br]).
    { intros Hpos. rewrite slots_one; [done | done | ev; unfold start, NULL; lia | done]. }
    split; [| split; [done | split; [done | split; [done | split; [| shape]]]]].
    + rewrite <- (insert_insert_eq h br _ b0).
      apply (Inv_update es sto cnt (cnt + 1) ac br br _ _ fre [br] [] br [] b0); auto.
      * apply lookup_insert_eq.
      * unfold block_ok, start, b0 in *. ev. repeat (split; [lia |]).
        right. repeat (split; [lia |]). exists 1%nat. split; lia.
      * intros Hpos. rewrite (Hs Hpos), (Hcnt Hpos). reflexivity.
    + intros Hpos. change [br] with ([] ++ [br]).
      rewrite contents_of_snoc, slots_at_insert_eq, (Hs Hpos).
      do 2 f_equal. lia.
  - (* the back Block is [a] *)
    pose proof (Inv_back _ _ I) as Hk. rewrite last0_snoc in Hk.
    assert (a <> NULL) as Ha by (apply (Inv_nonnull _ _ _ I); set_solver).
    destruct (Inv_lookup _ _ a I) as [b Hb]; [set_solver |].
    pose proof (inv_blocks _ _ I _ _ Hb) as Hok.
    pose proof (chain_nodup _ _ _ _ (inv_chain _ _ I)) as Hnd.
    destruct s as [es sto cnt ac fr bk h br fre]. proj. subst bk.
    assert (a <> br) by (intros ->; congruence).
    destruct (decide (NULL = fBegin b)) as [Hdead | Hlive].
    + (* marked empty: INIT_CHUNK *)
      eexists _, _, (l0 ++ [a]). split.
      { unfold push_back. ev. dec_false. do_load. dec_true.
        unfold push_back_init_chunk. do_poke. do_load. do_poke.
        reflexivity. }
      unfold same_config. proj.
      heap_is (<[a := set_fEnd (start a + es) (set_fBegin (start a) b)]> h).
      assert (Hs : 0 < es ->
                slots es (set_fEnd (start a + es) (set_fBegin (start a) b)) = [start a]).
      { intros Hpos. rewrite slots_one; [done | done | |done].
        ev. destruct Hok as (? & _). unfold start, NULL. lia. }
      split; [| split; [done | split; [done | split; [done | split; [| shape]]]]].
      * apply (Inv_update es sto cnt (cnt + 1) ac fr a h br fre _ l0 a [] b); auto.
        -- destruct Hok as (? & ? & ? & _). unfold block_ok, start in *. ev.
           repeat (split; [lia |]).
           right. repeat (split; [lia |]). exists 1%nat. split; lia.
        -- intros Hpos. rewrite (Hs Hpos).
           pose proof (inv_count _ _ I Hpos) as Hc; proj; rewrite Hc.
           rewrite (contents_of_split es h l0 a [] b) by done.
           rewrite slots_dead by done. rewrite !length_app. simpl. lia.
      * intros Hpos. rewrite contents_of_insert_split by done.
        rewrite (contents_of_split es h l0 a [] b) by done.
        rewrite (Hs Hpos). rewrite slots_dead by done.
        rewrite contents_of_nil, !app_nil_r. do 2 f_equal. lia.
    + destruct Hok as (Ha0 & Hcap & Hlim & [[Hd _] | (Hlo & Hhi & n & Hn & Hnpos)]);
        [congruence |].
      destruct (decide (fEnd b + es > fStop b)) as [Hfull | Hroom].
      * (* no more room in this chunk *)
        set (b0 := Block_init br (sizeof_Block + ac * es)).
        eexists _, _, ((l0 ++ [a]) ++ [br]). split.
        { unfold push_back. ev. dec_false. do_load. dec_false. dec_true.
          do_poke. do_poke. unfold push_back_init_chunk. do_poke. do_load. do_poke.
          reflexivity. }
        unfold same_config. proj. fold b0.
        heap_is (<[br := set_fEnd (start br + es) (set_fBegin (start br) (set_fPrev a b0))]>
                   (<[br := set_fPrev a b0]> (<[a := set_fNext br b]> h))).
        assert (Hl0 : l0 ++ [a] <> []) by (destruct l0; discriminate).
        assert (Hlive' : fBegin b <> NULL) by congruence.
        pose proof (Inv_link_back _ _ _ _ _ _ _ _ _ _ b _ I Hl0 Hb Hlive' Hsz) as I1.
        fold b0 in I1.
        set (h1 := <[br := set_fPrev a b0]> (<[a := set_fNext br b]> h)) in *.
        assert (Hs : 0 < es ->
                  slots es (set_fEnd (start br + es) (set_fBegin (start br) (set_fPrev a b0)))
                  = [start br]).
        { intros Hpos. rewrite slots_one; [done | done | |done].
          ev. unfold start, NULL. lia. }
        assert (Hc1 : 0 < es -> contents_of es h1 (l0 ++ [a]) = contents_of es h (l0 ++ [a])).
        { intros Hpos. unfold h1.
          rewrite contents_of_insert_notin.
          2:{ intros Hin. apply (chain_dom _ _ _ _ (inv_chain _ _ I)) in Hin as [? ?].
              proj. congruence. }
          rewrite contents_of_insert_split by done.
          by rewrite (contents_of_split es h l0 a [] b). }
        split; [| split; [done | split; [done | split; [done | split; [| shape]]]]].
        -- apply (Inv_update es sto cnt (cnt + 1) ac fr br h1 _ fre _ (l0 ++ [a]) br []
                    (set_fPrev a b0)); auto.
           ++ unfold h1. apply lookup_insert_eq.
           ++ unfold block_ok, start, b0 in *. ev. repeat (split; [lia |]).
              right. repeat (split; [lia |]). exists 1%nat. split; lia.
           ++ intros Hpos. rewrite (Hs Hpos), (Hc1 Hpos).
              pose proof (inv_count _ _ I Hpos) as Hc; proj; rewrite Hc.
              rewrite !length_app. simpl. lia.
        -- intros Hpos.
           rewrite contents_of_insert_split by apply (chain_nodup _ _ _ _ (inv_chain _ _ I1)).
           rewrite (Hs Hpos), (Hc1 Hpos), contents_of_nil.
           f_equal. simpl. f_equal. lia.
      * (* room after [fEnd] *)
        eexists _, _, (l0 ++ [a]). split.
        { unfold push_back. ev. dec_false. do_load. dec_false. dec_false.
          do_poke. reflexivity. }
        unfold same_config. proj.
        assert (Hs : 0 < es -> slots es (set_fEnd (fEnd b + es) b) = slots es b ++ [fEnd b]).
        { intros Hpos. apply (slots_grow_back es b n); auto. }
        split; [| split; [done | split; [done | split; [done | split; [| shape]]]]].
        -- apply (Inv_update es sto cnt (cnt + 1) ac fr a h br fre _ l0 a [] b); auto.
           ++ unfold block_ok, start in *. ev. repeat (split; [lia |]).
              right. repeat (split; [lia |]). exists (S n). split; lia.
           ++ intros Hpos. rewrite (Hs Hpos).
              pose proof (inv_count _ _ I Hpos) as Hc; proj; rewrite Hc.
              rewrite (contents_of_split es h l0 a [] b) by done.
              rewrite !length_app. simpl. lia.
        -- intros Hpos. rewrite contents_of_insert_split by done.
           rewrite (contents_of_split es h l0 a [] b) by done.
           rewrite (Hs Hpos). rewrite contents_of_nil, !app_nil_r.
           rewrite <- !app_assoc. do 3 f_equal. lia.
Qed.

(** [push_front] returns a slot, which becomes the first one. *)
Lemma push_front_spec s l :
  Inv s l ->
  exists p s' l',
    push_front s = Ok (p, s') /\ Inv s' l' /\ same_config s s' /\
    fCount s' = fCount s + 1 /\ freed s' = freed s /\
    (0 < fElemSize s ->
     contents_of (fElemSize s) (heap s') l' =
     p :: contents_of (fElemSize s) (heap s) l) /\
    (l' = l \/ (l = [] /\ exists a, l' = [a]) \/ 0 < fElemSize s).
Proof.
  intros I.
  pose proof (inv_brk _ _ I) as Hbr.
  pose proof (inv_es _ _ I) as Hes.
  pose proof (inv_ac _ _ I) as Hac.
  pose proof sizeof_Block_pos as Hhdr.
  pose proof (alloc_size _ _ Hes Hac) as Hsz.
  assert (heap s !! brk s = None) as Hfresh.
  { apply (blocks_ok_fresh (fElemSize s) (brk s)); [apply I | apply I | lia]. }
  destruct l as [| a l0].
  - (* no Block yet *)
    destruct (chain_nil_inv _ _ _ (inv_chain _ _ I)) as (Hh & Hf & Hk).
    destruct s as [es sto cnt ac fr bk h br fre]. proj. subst fr bk.
    assert (I1 : Inv (mkState es sto cnt ac br br
                        (<[br := Block_init br (sizeof_Block + ac * es)]> h)
                        (br + (sizeof_Block + ac * es)) fre) [br]).
    { subst h. rewrite insert_empty. by apply Inv_first. }
    assert (Hcnt : 0 < es -> cnt = 0).
    { intros Hpos. pose proof (inv_count _ _ I Hpos) as Hc. proj. by rewrite Hc. }
    assert (Hc0 : contents_of es h [] = []) by done.
    clear Hh I.
    eexists _, _, [br]. split.
    { unfold push_front. ev. dec_true. ev. do_load. dec_true.
      unfold push_front_init_chunk. do_load. do_poke. do_poke.
      reflexivity. }
    unfold same_config. proj.
    set (b0 := Block_init br (sizeof_Block + ac * es)) in *.
    set (top := br + (sizeof_Block + ac * es)) in *.
    heap_is (<[br := set_fBegin (top - es) (set_fEnd top b0)]> h).
    assert (Hs : 0 < es ->
              slots es (set_fBegin (top - es) (set_fEnd top b0)) = [top - es]).
    { intros Hpos. rewrite slots_one; [done | done | ev; unfold top, NULL; lia | ev; lia]. }
    split; [| split; [done | split; [done | split; [done | split; [| shape]]]]].
    + rewrite <- (insert_insert_eq h br _ b0).
      apply (Inv_update es sto cnt (cnt + 1) ac br br _ _ fre [br] [] br [] b0); auto.
      * apply lookup_insert_eq.
      * unfold block_ok, start, b0, top in *. ev. repeat (split; [lia |]).
        right. repeat (split; [lia |]). exists 1%nat. split; lia.
      * intros Hpos. rewrite (Hs Hpos), (Hcnt Hpos). reflexivity.
    + intros Hpos. change [br] with ([] ++ [br]).
      rewrite contents_of_snoc, slots_at_insert_eq.
      by rewrite (Hs Hpos).
  - (* the front Block is [a] *)
    pose proof (Inv_front _ _ I) as Hf. rewrite head0_cons in Hf.
    assert (a <> NULL) as Ha by (apply (Inv_nonnull _ _ _ I); set_solver).
    destruct (Inv_lookup _ _ a I) as [b Hb]; [set_solver |].
    pose proof (inv_blocks _ _ I _ _ Hb) as Hok.
    pose proof (chain_nodup _ _ _ _ (inv_chain _ _ I)) as Hnd.
    destruct s as [es sto cnt ac fr bk h br fre]. proj. subst fr.
    assert (a <> br) by (intros ->; congruence).
    destruct (decide (NULL = fBegin b)) as [Hdead | Hlive].
    + (* marked empty: INIT_CHUNK *)
      eexists _, _, (a :: l0). split.
      { unfold push_front. ev. dec_false. do_load. dec_true.
        unfold push_front_init_chunk. do_load. do_poke. do_poke.
        reflexivity. }
      unfold same_config. proj.
      heap_is (<[a := set_fBegin (fStop b - es) (set_fEnd (fStop b) b)]> h).
      destruct Hok as (Ha0 & Hcap & Hlim & _). unfold start in *.
      assert (Hs : 0 < es ->
                slots es (set_fBegin (fStop b - es) (set_fEnd (fStop b) b)) = [fStop b - es]).
      { intros Hpos. rewrite slots_one; [done | done | ev; unfold NULL; lia | ev; lia]. }
      split; [| split; [done | split; [done | split; [done | split; [| shape]]]]].
      * apply (Inv_update es sto cnt (cnt + 1) ac a bk h br fre _ [] a l0 b); auto.
        -- unfold block_ok, start in *. ev.
           repeat (split; [lia |]).
           right. repeat (split; [lia |]). exists 1%nat. split; lia.
        -- intros Hpos. rewrite (Hs Hpos).
           pose proof (inv_count _ _ I Hpos) as Hc; proj; rewrite Hc.
           rewrite (contents_of_head es h a l0 b) by done.
           rewrite slots_dead by done. rewrite !length_app. simpl. lia.
      * intros Hpos. rewrite contents_of_insert_head by done.
        rewrite (contents_of_head es h a l0 b) by done.
        rewrite (Hs Hpos). rewrite slots_dead by done. reflexivity.
    + destruct Hok as (Ha0 & Hcap & Hlim & [[Hd _] | (Hlo & Hhi & n & Hn & Hnpos)]);
        [congruence |].
      destruct (decide (fBegin b - es < start a)) as [Hfull | Hroom].
      * (* no more room in this chunk *)
        set (b0 := Block_init br (sizeof_Block + ac * es)).
        set (top := br + (sizeof_Block + ac * es)).
        eexists _, _, (br :: a :: l0). split.
        { unfold push_front. ev. dec_false. do_load. dec_false. dec_true.
          do_poke. do_poke. unfold push_front_init_chunk. do_load. do_poke. do_poke.
          reflexivity. }
        unfold same_config. proj. fold b0. fold top.
        heap_is (<[br := set_fBegin (top - es) (set_fEnd top (set_fNext a b0))]>
                   (<[br := set_fNext a b0]> (<[a := set_fPrev br b]> h))).
        assert (Hlive' : fBegin b <> NULL) by congruence.
        pose proof (Inv_link_front _ _ _ _ _ _ _ _ _ _ b _ I ltac:(discriminate)
                      Hb Hlive' Hsz) as I1.
        fold b0 in I1. fold top in I1.
        set (h1 := <[br := set_fNext a b0]> (<[a := set_fPrev br b]> h)) in *.
        assert (Hs : 0 < es ->
                  slots es (set_fBegin (top - es) (set_fEnd top (set_fNext a b0)))
                  = [top - es]).
        { intros Hpos. rewrite slots_one; [done | done | ev; unfold top, NULL; lia | ev; lia]. }
        assert (Hc1 : 0 < es -> contents_of es h1 (a :: l0) = contents_of es h (a :: l0)).
        { intros Hpos. unfold h1.
          rewrite contents_of_insert_notin.
          2:{ intros Hin. apply (chain_dom _ _ _ _ (inv_chain _ _ I)) in Hin as [? ?].
              proj. congruence. }
          rewrite contents_of_insert_head by done.
          by rewrite (contents_of_head es h a l0 b). }
        split; [| split; [done | split; [done | split; [done | split; [| shape]]]]].
        -- apply (Inv_update es sto cnt (cnt + 1) ac br bk h1 _ fre _ [] br (a :: l0)
                    (set_fNext a b0)); auto.
           ++ unfold h1. apply lookup_insert_eq.
           ++ unfold block_ok, start, b0, top in *. ev. repeat (split; [lia |]).
              right. repeat (split; [lia |]). exists 1%nat. split; lia.
           ++ intros Hpos. rewrite (Hs Hpos), (Hc1 Hpos).
              pose proof (inv_count _ _ I Hpos) as Hc; proj; rewrite Hc.
              simpl. lia.
        -- intros Hpos.
           rewrite contents_of_insert_head by apply (chain_nodup _ _ _ _ (inv_chain _ _ I1)).
           rewrite (Hs Hpos), (Hc1 Hpos).
           reflexivity.
      * (* room before [fBegin] *)
        eexists _, _, (a :: l0). split.
        { unfold push_front. ev. dec_false. do_load. dec_false. dec_false.
          do_poke. reflexivity. }
        unfold same_config. proj.
        assert (Hs : 0 < es ->
                  slots es (set_fBegin (fBegin b - es) b) = (fBegin b - es) :: slots es b).
        { intros Hpos. apply (slots_grow_front es b n); auto.
          unfold start, NULL in *. lia. }
        split; [| split; [done | split; [done | split; [done | split; [| shape]]]]].
        -- apply (Inv_update es sto cnt (cnt + 1) ac a bk h br fre _ [] a l0 b); auto.
           ++ unfold block_ok, start in *. ev. repeat (split; [lia |]).
              right. repeat (split; [lia |]). exists (S n). split; lia.
           ++ intros Hpos. rewrite (Hs Hpos).
              pose proof (inv_count _ _ I Hpos) as Hc; proj; rewrite Hc.
              rewrite (contents_of_head es h a l0 b) by done.
              rewrite !length_app. simpl. lia.
        -- intros Hpos. rewrite contents_of_insert_head by done.
           rewrite (contents_of_head es h a l0 b) by done.
           rewrite (Hs Hpos). reflexivity.
Qed.

(** *** Live and empty Blocks *)

Lemma block_cases es lim a b :
  block_ok es lim a b -> 0 < es ->
  (fBegin b = NULL /\ fEnd b = NULL /\ slots es b = []) \/
  (fBegin b <> NULL /\ fEnd b <> NULL /\
   exists n : nat, fEnd b = fBegin b + Z.of_nat (S n) * es /\
                   slots es b = slots_from (fBegin b) es (S n)).
Proof.
  intros (Ha & Hcap & Hlim & [[Hb He] | (Hlo & Hhi & n & Hn & Hnpos)]) Hes.
  - left. split; [done |]. split; [done |]. by apply slots_dead.
  - right. pose proof sizeof_Block_pos. unfold start, NULL in *.
    specialize (Hnpos Hes). destruct n as [|n]; [lia |].
    split; [lia |]. split; [nia |]. exists n. split; [done |].
    apply slots_live; [done | unfold NULL; lia | done].
Qed.

Lemma slots_nil_dead es lim a b :
  block_ok es lim a b -> 0 < es -> slots es b = [] -> fBegin b = NULL /\ fEnd b = NULL.
Proof.
  intros Hok Hes Hs.
  destruct (block_cases _ _ _ _ Hok Hes) as [(? & ? & _) | (_ & _ & n & _ & Hs')]; [done |].
  rewrite Hs in Hs'. discriminate.
Qed.

Lemma contents_nonempty s l :
  Inv s l -> 0 < fElemSize s -> 0 < fCount s ->
  contents_of (fElemSize s) (heap s) l <> [].
Proof.
  intros I Hes Hc Hnil. rewrite (inv_count _ _ I Hes), Hnil in Hc. simpl in Hc. lia.
Qed.

(** With an element in the deque, the front Block holds the first one, or
    it is marked empty and the next Block holds it. *)
Lemma Inv_front_cases s l :
  Inv s l -> 0 < fElemSize s -> 0 < fCount s ->
  exists a l2 b, l = a :: l2 /\ heap s !! a = Some b /\
    ((fBegin b <> NULL /\
      exists n : nat, fEnd b = fBegin b + Z.of_nat (S n) * fElemSize s) \/
     (fBegin b = NULL /\ fEnd b = NULL /\
      exists a2 l3 b2 (n : nat),
        l2 = a2 :: l3 /\ heap s !! a2 = Some b2 /\ fNext b = a2 /\
        fBegin b2 <> NULL /\
        fEnd b2 = fBegin b2 + Z.of_nat (S n) * fElemSize s)).
Proof.
  intros I Hes Hc. pose proof (contents_nonempty _ _ I Hes Hc) as Hne.
  destruct l as [|a l2]; [done |].
  destruct (Inv_lookup _ _ a I) as [b Hb]; [set_solver |].
  exists a, l2, b. split; [done |]. split; [done |].
  pose proof (inv_blocks _ _ I _ _ Hb) as Hok.
  destruct (block_cases _ _ _ _ Hok Hes) as [(Hd & He & Hs) | (Hl & _ & n & Hn & _)].
  - right. split; [done |]. split; [done |].
    rewrite (contents_of_head _ _ _ _ _ Hb), Hs, app_nil_l in Hne.
    destruct l2 as [|a2 l3]; [done |].
    destruct (Inv_lookup _ _ a2 I) as [b2 Hb2]; [set_solver |].
    destruct (chain_links _ _ _ _ (inv_chain _ _ I) [] a (a2 :: l3) eq_refl)
      as (b' & Hb' & _ & Hnx).
    assert (b' = b) as -> by congruence.
    pose proof (inv_blocks _ _ I _ _ Hb2) as Hok2.
    destruct (block_cases _ _ _ _ Hok2 Hes) as [(Hd2 & _ & Hs2) | (Hl2 & _ & n & Hn & _)].
    + exfalso. destruct l3 as [|a3 l4].
      * rewrite (contents_of_head _ _ _ _ _ Hb2), Hs2 in Hne. done.
      * by apply (inv_middle _ _ I Hes [a] a2 (a3 :: l4) b2).
    + exists a2, l3, b2, n. done.
  - left. split; [done |]. by exists n.
Qed.

(** With an element in the deque, the back Block holds the last one, or
    it is marked empty and the previous Block holds it. *)
Lemma Inv_back_cases s l :
  Inv s l -> 0 < fElemSize s -> 0 < fCount s ->
  exists a l2 b, l = l2 ++ [a] /\ heap s !! a = Some b /\
    ((fBegin b <> NULL /\
      exists n : nat, fEnd b = fBegin b + Z.of_nat (S n) * fElemSize s) \/
     (fBegin b = NULL /\ fEnd b = NULL /\
      exists a1 l3 b1 (n : nat),
        l2 = l3 ++ [a1] /\ heap s !! a1 = Some b1 /\ fPrev b = a1 /\
        fBegin b1 <> NULL /\
        fEnd b1 = fBegin b1 + Z.of_nat (S n) * fElemSize s)).
Proof.
  intros I Hes Hc. pose proof (contents_nonempty _ _ I Hes Hc) as Hne.
  destruct (list_snoc_case l) as [-> | (l2 & a & ->)]; [done |].
  destruct (Inv_lookup _ _ a I) as [b Hb]; [set_solver |].
  exists a, l2, b. split; [done |]. split; [done |].
  pose proof (inv_blocks _ _ I _ _ Hb) as Hok.
  destruct (block_cases _ _ _ _ Hok Hes) as [(Hd & He & Hs) | (Hl & _ & n & Hn & _)].
  - right. split; [done |]. split; [done |].
    rewrite (contents_of_last _ _ _ _ _ Hb), Hs, app_nil_r in Hne.
    destruct (list_snoc_case l2) as [-> | (l3 & a1 & ->)]; [done |].
    destruct (Inv_lookup _ _ a1 I) as [b1 Hb1]; [set_solver |].
    destruct (chain_links _ _ _ _ (inv_chain _ _ I) (l3 ++ [a1]) a [] eq_refl)
      as (b' & Hb' & Hpr & _).
    assert (b' = b) as -> by congruence. rewrite last0_snoc in Hpr.
    pose proof (inv_blocks _ _ I _ _ Hb1) as Hok1.
    destruct (block_cases _ _ _ _ Hok1 Hes) as [(Hd1 & _ & Hs1) | (Hl1 & _ & n & Hn & _)].
    + exfalso. destruct (list_snoc_case l3) as [-> | (l4 & a0 & ->)].
      * rewrite (contents_of_last _ _ _ [] _ Hb1), Hs1 in Hne. done.
      * apply (inv_middle _ _ I Hes (l4 ++ [a0]) a1 [a] b1); auto.
        -- by rewrite <- app_assoc.
        -- by destruct l4.
    + exists a1, l3, b1, n. done.
  - left. split; [done |]. by exists n.
Qed.

Lemma sk_free_nonnull p s :
  p <> NULL ->
  sk_free p s = set_freed (p :: freed s) (set_heap (delete p (heap s)) s).
Proof. intros Hp. unfold sk_free. by rewrite decide_False. Qed.

Lemma Inv_freed es sto cnt ac fr bk h br fre fre' l :
  Inv (mkState es sto cnt ac fr bk h br fre) l ->
  Inv (mkState es sto cnt ac fr bk h br fre') l.
Proof. intros [? ? ? ? ? ? ? ?]. by split. Qed.

Ltac do_assert := rewrite SkASSERT_holds by arith; ev.

(** The end of [pop_front], on a deque whose front Block holds an element. *)
Lemma pop_front_shrink_spec debug es sto cnt ac bk (h : gmap Z Block) br fre fre2 a l2 b
      (n : nat) :
  Inv (mkState es sto cnt ac a bk h br fre) (a :: l2) -> 0 < es ->
  h !! a = Some b -> fBegin b <> NULL ->
  fEnd b = fBegin b + Z.of_nat (S n) * es ->
  exists b',
    pop_front_shrink debug a (mkState es sto (cnt - 1) ac a bk h br fre2) =
      Ok (mkState es sto (cnt - 1) ac a bk (<[a := b']> h) br fre2) /\
    Inv (mkState es sto (cnt - 1) ac a bk (<[a := b']> h) br fre2) (a :: l2) /\
    contents_of es h (a :: l2) = fBegin b :: contents_of es (<[a := b']> h) (a :: l2) /\
    b' = (if decide (n = 0%nat) then set_fBegin NULL (set_fEnd NULL b)
          else set_fBegin (fBegin b + es) b).
Proof.
  intros I Hes Hb Hlive Hn.
  assert (a <> NULL) as Ha by (apply (Inv_nonnull _ _ _ I); set_solver).
  pose proof (inv_blocks _ _ I _ _ Hb) as Hok. proj.
  pose proof (chain_nodup _ _ _ _ (inv_chain _ _ I)) as Hnd. proj.
  pose proof (inv_count _ _ I Hes) as Hc. proj.
  rewrite (contents_of_head es h a l2 b Hb) in Hc.
  destruct Hok as (Ha0 & Hcap & Hlim & [[Hd _] | (Hlo & Hhi & _)]); [done |].
  pose proof sizeof_Block_pos as Hhdr. unfold start in *.
  apply (Inv_freed _ _ _ _ _ _ _ _ _ fre2) in I.
  destruct n as [|n].
  - (* the last element of the Block *)
    exists (set_fBegin NULL (set_fEnd NULL b)).
    assert (Hs : slots es b = [fBegin b]) by (apply slots_one; [done | done | lia]).
    split; [| split; [| split; [| done]]].
    + unfold pop_front_shrink. do_load. do_assert. do_load. dec_false.
      do_poke. do_poke. by rewrite insert_insert_eq.
    + apply (Inv_update es sto cnt (cnt - 1) ac a bk h br fre2 _ [] a l2 b); auto.
      * unfold block_ok, start. ev. repeat (split; [lia |]). by left.
      * intros _. rewrite slots_dead by done. rewrite Hc, Hs. simpl. lia.
    + rewrite contents_of_insert_head by done.
      rewrite (contents_of_head es h a l2 b Hb), Hs.
      by rewrite slots_dead.
  - exists (set_fBegin (fBegin b + es) b).
    assert (Hs : slots es b = fBegin b :: slots es (set_fBegin (fBegin b + es) b)).
    { apply (slots_shrink_front es b (S n)); [done | done | unfold NULL; lia | done]. }
    split; [| split; [| split; [| done]]].
    + unfold pop_front_shrink. do_load. do_assert. do_load. dec_true.
      do_poke. reflexivity.
    + apply (Inv_update es sto cnt (cnt - 1) ac a bk h br fre2 _ [] a l2 b); auto.
      * unfold block_ok, start. ev. repeat (split; [lia |]).
        right. repeat (split; [lia |]). exists (S n). split; lia.
      * intros _. rewrite Hc, Hs. simpl. lia.
    + rewrite contents_of_insert_head by done.
      by rewrite (contents_of_head es h a l2 b Hb), Hs.
Qed.

(** [pop_front] removes the first slot. *)
Lemma pop_front_spec debug s l :
  Inv s l -> 0 < fElemSize s -> 0 < fCount s ->
  exists p s' l',
    pop_front debug s = Ok s' /\ Inv s' l' /\ same_config s s' /\
    fCount s' = fCount s - 1 /\
    contents_of (fElemSize s) (heap s) l = p :: contents_of (fElemSize s) (heap s') l'.
Proof.
  intros I Hes Hc.
  destruct (Inv_front_cases _ _ I Hes Hc) as (a & l2 & b & -> & Hb & Hcase).
  pose proof (Inv_front _ _ I) as Hf. rewrite head0_cons in Hf.
  assert (a <> NULL) as Ha by (apply (Inv_nonnull _ _ _ I); set_solver).
  destruct s as [es sto cnt ac fr bk h br fre]. proj. subst fr.
  destruct Hcase as [(Hlive & n & Hn) | (Hd & He & a2 & l3 & b2 & n & -> & Hb2 & Hnx & Hl2 & Hn)].
  - destruct (pop_front_shrink_spec debug _ _ _ _ _ _ _ _ fre _ _ _ _ I Hes Hb Hlive Hn)
      as (b' & Hrun & I' & Hcont & _).
    eexists (fBegin b), _, (a :: l2). split.
    { unfold pop_front. ev. do_assert. do_assert. do_load. dec_false. apply Hrun. }
    unfold same_config. proj. done.
  - assert (a2 <> NULL) as Ha2 by (apply (Inv_nonnull _ _ _ I); set_solver).
    pose proof (Inv_unlink_front _ _ _ _ _ _ _ _ _ (a :: fre) _ _ _ _ _ I Hb Hd Hb2) as I1.
    set (h1 := delete a (<[a2 := set_fPrev NULL b2]> h)) in *.
    assert (Hb2' : h1 !! a2 = Some (set_fPrev NULL b2)).
    { unfold h1. rewrite lookup_delete_ne, lookup_insert_eq; [done |].
      pose proof (chain_nodup _ _ _ _ (inv_chain _ _ I)) as Hnd.
      apply NoDup_cons in Hnd as [Hnd _]. set_solver. }
    destruct (pop_front_shrink_spec debug _ _ _ _ _ _ _ _ (a :: fre) _ _ _ n I1 Hes Hb2'
                ltac:(done) ltac:(done))
      as (b' & Hrun & I' & Hcont & _).
    eexists (fBegin b2), _, (a2 :: l3). split.
    { unfold pop_front. ev. do_assert. do_assert. do_load. dec_true.
      rewrite Hnx. do_poke. rewrite sk_free_nonnull by done. ev.
      do_assert. apply Hrun. }
    unfold same_config. proj.
    split; [done |]. split; [done |]. split; [done |].
    cbn [fBegin set_fPrev] in Hcont. rewrite <- Hcont.
    pose proof (inv_count _ _ I Hes) as Hc0.
    pose proof (inv_count _ _ I1 Hes) as Hc1. proj.
    rewrite (contents_of_head es h a _ b Hb), slots_dead by done.
    rewrite app_nil_l.
    rewrite (contents_of_head es h a2 _ b2 Hb2).
    rewrite (contents_of_head es h1 a2 _ _ Hb2').
    f_equal. unfold h1. rewrite contents_of_delete_notin, contents_of_insert_notin; [done | |].
    + pose proof (chain_nodup _ _ _ _ (inv_chain _ _ I)) as Hnd.
      apply NoDup_cons in Hnd as [_ Hnd]. apply NoDup_cons in Hnd as [Hnd _]. done.
    + pose proof (chain_nodup _ _ _ _ (inv_chain _ _ I)) as Hnd.
      apply NoDup_cons in Hnd as [Hnd _]. set_solver.
Qed.

(** The end of [pop_back], on a deque whose back Block holds an element. *)
Lemma pop_back_shrink_spec debug es sto cnt ac fr (h : gmap Z Block) br fre fre2 a l2 b
      (n : nat) :
  Inv (mkState es sto cnt ac fr a h br fre) (l2 ++ [a]) -> 0 < es ->
  h !! a = Some b -> fBegin b <> NULL ->
  fEnd b = fBegin b + Z.of_nat (S n) * es ->
  exists b',
    pop_back_shrink debug a (mkState es sto (cnt - 1) ac fr a h br fre2) =
      Ok (mkState es sto (cnt - 1) ac fr a (<[a := b']> h) br fre2) /\
    Inv (mkState es sto (cnt - 1) ac fr a (<[a := b']> h) br fre2) (l2 ++ [a]) /\
    contents_of es h (l2 ++ [a]) =
      contents_of es (<[a := b']> h) (l2 ++ [a]) ++ [fEnd b - es] /\
    b' = (if decide (n = 0%nat) then set_fBegin NULL (set_fEnd NULL b)
          else set_fEnd (fEnd b - es) b).
Proof.
  intros I Hes Hb Hlive Hn.
  assert (a <> NULL) as Ha by (apply (Inv_nonnull _ _ _ I); set_solver).
  pose proof (inv_blocks _ _ I _ _ Hb) as Hok. proj.
  pose proof (chain_nodup _ _ _ _ (inv_chain _ _ I)) as Hnd. proj.
  pose proof (inv_count _ _ I Hes) as Hc. proj.
  rewrite (contents_of_last es h a l2 b Hb) in Hc.
  destruct Hok as (Ha0 & Hcap & Hlim & [[Hd _] | (Hlo & Hhi & _)]); [done |].
  pose proof sizeof_Block_pos as Hhdr. unfold start in *.
  apply (Inv_freed _ _ _ _ _ _ _ _ _ fre2) in I.
  destruct n as [|n].
  - (* the last element of the Block *)
    exists (set_fBegin NULL (set_fEnd NULL b)).
    assert (Hs : slots es b = [fBegin b]) by (apply slots_one; [done | done | lia]).
    split; [| split; [| split; [| done]]].
    + unfold pop_back_shrink. do_load. do_assert. dec_false.
      do_poke. do_poke. by rewrite insert_insert_eq.
    + apply (Inv_update es sto cnt (cnt - 1) ac fr a h br fre2 _ l2 a [] b); auto.
      * unfold block_ok, start. ev. repeat (split; [lia |]). by left.
      * intros _. rewrite slots_dead by done. rewrite Hc, Hs.
        rewrite !length_app. simpl. lia.
    + rewrite contents_of_insert_last by done.
      rewrite (contents_of_last es h a l2 b Hb), Hs.
      rewrite slots_dead by done. rewrite app_nil_r. do 2 f_equal. lia.
  - exists (set_fEnd (fEnd b - es) b).
    assert (Hs : slots es b = slots es (set_fEnd (fEnd b - es) b) ++ [fEnd b - es]).
    { apply (slots_shrink_back es b (S n)); [done | done | done]. }
    split; [| split; [| split; [| done]]].
    + unfold pop_back_shrink. do_load. do_assert. dec_true.
      do_poke. reflexivity.
    + apply (Inv_update es sto cnt (cnt - 1) ac fr a h br fre2 _ l2 a [] b); auto.
      * unfold block_ok, start. ev. repeat (split; [lia |]).
        right. repeat (split; [lia |]). exists (S n). split; lia.
      * intros _. rewrite Hc. rewrite Hs at 1.
        rewrite !length_app. simpl. lia.
    + rewrite contents_of_insert_last by done.
      rewrite (contents_of_last es h a l2 b Hb). rewrite Hs at 1.
      by rewrite app_assoc.
Qed.

(** [pop_back] removes the last slot. *)
Lemma pop_back_spec debug s l :
  Inv s l -> 0 < fElemSize s -> 0 < fCount s ->
  exists p s' l',
    pop_back debug s = Ok s' /\ Inv s' l' /\ same_config s s' /\
    fCount s' = fCount s - 1 /\
    contents_of (fElemSize s) (heap s) l = contents_of (fElemSize s) (heap s') l' ++ [p].
Proof.
  intros I Hes Hc.
  destruct (Inv_back_cases _ _ I Hes Hc) as (a & l2 & b & -> & Hb & Hcase).
  pose proof (Inv_back _ _ I) as Hk. rewrite last0_snoc in Hk.
  assert (a <> NULL) as Ha by (apply (Inv_nonnull _ _ _ I); set_solver).
  pose proof (inv_blocks _ _ I _ _ Hb) as Hok.
  destruct s as [es sto cnt ac fr bk h br fre]. proj. subst bk.
  destruct Hcase as [(Hlive & n & Hn) | (Hd & He & a1 & l3 & b1 & n & -> & Hb1 & Hpr & Hl1 & Hn)].
  - destruct (pop_back_shrink_spec debug _ _ _ _ _ _ _ _ fre _ _ _ _ I Hes Hb Hlive Hn)
      as (b' & Hrun & I' & Hcont & _).
    assert (fEnd b <> NULL).
    { destruct (block_cases _ _ _ _ Hok Hes) as [(? & _) | (_ & ? & _)]; done. }
    eexists (fEnd b - es), _, (l2 ++ [a]). split.
    { unfold pop_back. ev. do_assert. do_assert. do_load. dec_false. apply Hrun. }
    unfold same_config. proj. done.
  - assert (a1 <> NULL) as Ha1 by (apply (Inv_nonnull _ _ _ I); set_solver).
    assert (Hll : (l3 ++ [a1]) ++ [a] = l3 ++ [a1; a]) by by rewrite <- app_assoc.
    rewrite Hll in I.
    pose proof (Inv_unlink_back _ _ _ _ _ _ _ _ _ (a :: fre) _ _ _ _ _ I Hb Hd Hb1) as I1.
    set (h1 := delete a (<[a1 := set_fNext NULL b1]> h)) in *.
    pose proof (chain_nodup _ _ _ _ (inv_chain _ _ I)) as Hnd. rewrite <- Hll in Hnd.
    apply NoDup_app in Hnd as (Hnd1 & Hnd2 & _).
    assert (Hal : a ∉ l3 ++ [a1]) by (intros Hin; apply (Hnd2 _ Hin); set_solver).
    assert (Hb1' : h1 !! a1 = Some (set_fNext NULL b1)).
    { unfold h1. rewrite lookup_delete_ne, lookup_insert_eq; [done |]. set_solver. }
    destruct (pop_back_shrink_spec debug _ _ _ _ _ _ _ _ (a :: fre) _ _ _ n I1 Hes Hb1'
                ltac:(done) ltac:(done))
      as (b' & Hrun & I' & Hcont & _).
    eexists (fEnd b1 - es), _, (l3 ++ [a1]). split.
    { unfold pop_back. ev. do_assert. do_assert. do_load. dec_true.
      rewrite Hpr. do_poke. rewrite sk_free_nonnull by done. ev.
      do_assert. apply Hrun. }
    unfold same_config. proj.
    split; [done |]. split; [done |]. split; [done |].
    cbn [fEnd set_fNext] in Hcont. rewrite <- Hcont.
    rewrite (contents_of_last es h a _ b Hb), slots_dead by done.
    rewrite app_nil_r.
    rewrite (contents_of_last es h a1 _ b1 Hb1).
    rewrite (contents_of_last es h1 a1 _ _ Hb1').
    f_equal. unfold h1. rewrite contents_of_delete_notin, contents_of_insert_notin; [done | |].
    + apply NoDup_app in Hnd1 as (_ & Hnd1 & _).
      intros Hin. apply (Hnd1 _ Hin). set_solver.
    + set_solver.
Qed.

(** *** What a pop that returns has done *)

Lemma SkASSERT_cases debug c : SkASSERT debug c = Ok tt \/ SkASSERT debug c = Abort.
Proof. unfold SkASSERT. destruct (debug && negb c); auto. Qed.

Lemma pop_front_shrink_inv debug es sto cnt ac bk (h : gmap Z Block) br fre a b s' :
  a <> NULL -> h !! a = Some b ->
  pop_front_shrink debug a (mkState es sto cnt ac a bk h br fre) = Ok s' ->
  s' = mkState es sto cnt ac a bk (<[a := shrink_front es b]> h) br fre.
Proof.
  intros Ha Hb. unfold pop_front_shrink, shrink_front. do_load.
  destruct (SkASSERT_cases debug (bool_decide (fBegin b + es <= fEnd b))) as [-> | ->];
    ev; [| discriminate].
  do_load. case_decide.
  - do_poke. by intros [= <-].
  - do_poke. do_poke. rewrite insert_insert_eq. by intros [= <-].
Qed.

Lemma pop_back_shrink_inv debug es sto cnt ac fr (h : gmap Z Block) br fre a b s' :
  a <> NULL -> h !! a = Some b ->
  pop_back_shrink debug a (mkState es sto cnt ac fr a h br fre) = Ok s' ->
  s' = mkState es sto cnt ac fr a (<[a := shrink_back es b]> h) br fre.
Proof.
  intros Ha Hb. unfold pop_back_shrink, shrink_back. do_load.
  destruct (SkASSERT_cases debug (bool_decide (fEnd b - es >= fBegin b))) as [-> | ->];
    ev; [| discriminate].
  case_decide.
  - do_poke. by intros [= <-].
  - do_poke. do_poke. rewrite insert_insert_eq. by intros [= <-].
Qed.

Lemma load_NULL s : load s NULL = Fault.
Proof. reflexivity. Qed.

Lemma poke_NULL f s : poke NULL f s = Fault.
Proof. reflexivity. Qed.

(** A [pop_front] that returns either shrank the front Block, or found it
    marked empty, freed it and shrank the next one. *)
Lemma pop_front_inv debug es sto cnt ac fr bk (h : gmap Z Block) br fre l s' :
  chain h fr bk l ->
  pop_front debug (mkState es sto cnt ac fr bk h br fre) = Ok s' ->
  exists a l2 b, l = a :: l2 /\ fr = a /\ h !! a = Some b /\
    ((fBegin b <> NULL /\
      s' = mkState es sto (cnt - 1) ac a bk (<[a := shrink_front es b]> h) br fre) \/
     (fBegin b = NULL /\
      exists a2 l3 b2, l2 = a2 :: l3 /\ h !! a2 = Some b2 /\ fNext b = a2 /\
        s' = mkState es sto (cnt - 1) ac a2 bk
               (<[a2 := shrink_front es (set_fPrev NULL b2)]>
                  (delete a (<[a2 := set_fPrev NULL b2]> h)))
               br (a :: fre))).
Proof.
  intros C. unfold pop_front. ev.
  destruct (SkASSERT_cases debug (bool_decide (cnt > 0))) as [-> | ->]; ev; [| discriminate].
  destruct (SkASSERT_cases debug (bool_decide (fr <> NULL))) as [-> | ->]; ev; [| discriminate].
  destruct l as [|a l2].
  { rewrite (chain_front _ _ _ _ C). by rewrite load_NULL. }
  pose proof (chain_front _ _ _ _ C) as Hf. rewrite head0_cons in Hf. subst fr.
  assert (a <> NULL) as Ha.
  { intros ->. apply (chain_nonnull _ _ _ _ C). set_solver. }
  destruct (chain_links _ _ _ _ C [] a l2 eq_refl) as (b & Hb & _ & Hnx).
  do_load. intros Hrun. exists a, l2, b. split; [done |]. split; [done |]. split; [done |].
  destruct (decide (fBegin b = NULL)) as [Hd | Hl].
  - right. split; [done |].
    destruct l2 as [|a2 l3].
    { rewrite Hnx in Hrun. by rewrite poke_NULL in Hrun. }
    rewrite head0_cons in Hnx.
    assert (a2 <> NULL) as Ha2.
    { intros ->. apply (chain_nonnull _ _ _ _ C). set_solver. }
    destruct (chain_links _ _ _ _ C [a] a2 l3 eq_refl) as (b2 & Hb2 & _).
    assert (a <> a2).
    { pose proof (chain_nodup _ _ _ _ C) as Hnd.
      apply NoDup_cons in Hnd as [Hnd _]. set_solver. }
    exists a2, l3, b2. split; [done |]. split; [done |]. split; [done |].
    rewrite Hnx in Hrun. revert Hrun. do_poke.
    rewrite sk_free_nonnull by done. ev.
    destruct (SkASSERT_cases debug (bool_decide (a2 <> NULL))) as [-> | ->]; ev;
      [| discriminate].
    apply pop_front_shrink_inv; [done |].
    rewrite lookup_delete_ne, lookup_insert_eq; done.
  - left. split; [done |]. revert Hrun. by apply pop_front_shrink_inv.
Qed.

(** A [pop_back] that returns either shrank the back Block, or found it
    marked empty, freed it and shrank the previous one. *)
Lemma pop_back_inv debug es sto cnt ac fr bk (h : gmap Z Block) br fre l s' :
  chain h fr bk l ->
  pop_back debug (mkState es sto cnt ac fr bk h br fre) = Ok s' ->
  exists a l2 b, l = l2 ++ [a] /\ bk = a /\ h !! a = Some b /\
    ((fEnd b <> NULL /\
      s' = mkState es sto (cnt - 1) ac fr a (<[a := shrink_back es b]> h) br fre) \/
     (fEnd b = NULL /\
      exists a1 l3 b1, l2 = l3 ++ [a1] /\ h !! a1 = Some b1 /\ fPrev b = a1 /\
        s' = mkState es sto (cnt - 1) ac fr a1
               (<[a1 := shrink_back es (set_fNext NULL b1)]>
                  (delete a (<[a1 := set_fNext NULL b1]> h)))
               br (a :: fre))).
Proof.
  intros C. unfold pop_back. ev.
  destruct (SkASSERT_cases debug (bool_decide (cnt > 0))) as [-> | ->]; ev; [| discriminate].
  destruct (SkASSERT_cases debug (bool_decide (bk <> NULL))) as [-> | ->]; ev; [| discriminate].
  destruct (list_snoc_case l) as [-> | (l2 & a & ->)].
  { rewrite (chain_back _ _ _ _ C). by rewrite load_NULL. }
  pose proof (chain_back _ _ _ _ C) as Hk. rewrite last0_snoc in Hk. subst bk.
  assert (a <> NULL) as Ha.
  { intros ->. apply (chain_nonnull _ _ _ _ C). set_solver. }
  destruct (chain_links _ _ _ _ C l2 a [] eq_refl) as (b & Hb & Hpr & _).
  do_load. intros Hrun. exists a, l2, b. split; [done |]. split; [done |]. split; [done |].
  destruct (decide (fEnd b = NULL)) as [Hd | Hl].
  - right. split; [done |].
    destruct (list_snoc_case l2) as [-> | (l3 & a1 & ->)].
    { rewrite Hpr in Hrun. by rewrite poke_NULL in Hrun. }
    rewrite last0_snoc in Hpr.
    assert (a1 <> NULL) as Ha1.
    { intros ->. apply (chain_nonnull _ _ _ _ C). set_solver. }
    destruct (chain_links _ _ _ _ C l3 a1 [a]) as (b1 & Hb1 & _).
    { by rewrite <- app_assoc. }
    assert (a <> a1).
    { pose proof (chain_nodup _ _ _ _ C) as Hnd.
      apply NoDup_app in Hnd as (_ & Hnd & _). intros ->.
      apply (Hnd a1); set_solver. }
    exists a1, l3, b1. split; [done |]. split; [done |]. split; [done |].
    rewrite Hpr in Hrun. revert Hrun. do_poke.
    rewrite sk_free_nonnull by done. ev.
    destruct (SkASSERT_cases debug (bool_decide (a1 <> NULL))) as [-> | ->]; ev;
      [| discriminate].
    apply pop_back_shrink_inv; [done |].
    rewrite lookup_delete_ne, lookup_insert_eq; done.
  - left. split; [done |]. revert Hrun. by apply pop_back_shrink_inv.
Qed.

(** *** Pops of elements of size 0 *)

Lemma block_ok_shrink_front_zero lim a b :
  block_ok 0 lim a b -> block_ok 0 lim a (shrink_front 0 b).
Proof.
  intros (Ha & Hcap & Hlim & Hb). unfold shrink_front, block_ok.
  case_decide; cbn [fBegin fEnd fStop set_fBegin set_fEnd];
    (split; [done |]; split; [done |]; split; [done |]); [| by left].
  destruct Hb as [[? ?] | (? & ? & n & ? & ?)]; [unfold NULL in *; lia | lia].
Qed.

Lemma block_ok_shrink_back_zero lim a b :
  block_ok 0 lim a b -> block_ok 0 lim a (shrink_back 0 b).
Proof.
  intros (Ha & Hcap & Hlim & Hb). unfold shrink_back, block_ok.
  case_decide; cbn [fBegin fEnd fStop set_fBegin set_fEnd];
    (split; [done |]; split; [done |]; split; [done |]); [| by left].
  destruct Hb as [[? ?] | (? & ? & n & ? & ?)]; [unfold NULL in *; lia | lia].
Qed.

Lemma shrink_front_links es b :
  fPrev (shrink_front es b) = fPrev b /\ fNext (shrink_front es b) = fNext b /\
  fStop (shrink_front es b) = fStop b.
Proof. unfold shrink_front. by case_decide. Qed.

Lemma shrink_back_links es b :
  fPrev (shrink_back es b) = fPrev b /\ fNext (shrink_back es b) = fNext b /\
  fStop (shrink_back es b) = fStop b.
Proof. unfold shrink_back. by case_decide. Qed.

Lemma pop_front_Inv_zero debug s l s' :
  Inv s l -> fElemSize s = 0 -> pop_front debug s = Ok s' -> exists l', Inv s' l'.
Proof.
  intros I Hz Hrun. destruct s as [es sto cnt ac fr bk h br fre]. proj. subst es.
  pose proof (inv_chain _ _ I) as C. proj.
  destruct (pop_front_inv _ _ _ _ _ _ _ _ _ _ _ _ C Hrun)
    as (a & l2 & b & -> & -> & Hb & [(Hl & ->) | (Hd & a2 & l3 & b2 & -> & Hb2 & Hnx & ->)]).
  - exists (a :: l2).
    destruct (shrink_front_links 0 b) as (? & ? & ?).
    apply (Inv_update 0 sto cnt (cnt - 1) ac a bk h br fre _ [] a l2 b); auto; try lia.
    apply block_ok_shrink_front_zero. by apply (inv_blocks _ _ I a b).
  - exists (a2 :: l3).
    pose proof (Inv_unlink_front _ _ _ _ _ _ _ _ _ (a :: fre) _ _ _ _ _ I Hb Hd Hb2) as I1.
    destruct (shrink_front_links 0 (set_fPrev NULL b2)) as (? & ? & ?).
    assert (Hb2' : delete a (<[a2 := set_fPrev NULL b2]> h) !! a2 = Some (set_fPrev NULL b2)).
    { rewrite lookup_delete_ne, lookup_insert_eq; [done |].
      pose proof (chain_nodup _ _ _ _ (inv_chain _ _ I)) as Hnd.
      apply NoDup_cons in Hnd as [Hnd _]. set_solver. }
    apply (Inv_update 0 sto cnt (cnt - 1) ac a2 bk _ br _ _ [] a2 l3 (set_fPrev NULL b2));
      auto; try lia.
    apply block_ok_shrink_front_zero. by apply (inv_blocks _ _ I1 a2 _).
Qed.

Lemma pop_back_Inv_zero debug s l s' :
  Inv s l -> fElemSize s = 0 -> pop_back debug s = Ok s' -> exists l', Inv s' l'.
Proof.
  intros I Hz Hrun. destruct s as [es sto cnt ac fr bk h br fre]. proj. subst es.
  pose proof (inv_chain _ _ I) as C. proj.
  destruct (pop_back_inv _ _ _ _ _ _ _ _ _ _ _ _ C Hrun)
    as (a & l2 & b & -> & -> & Hb & [(Hl & ->) | (Hd & a1 & l3 & b1 & -> & Hb1 & Hpr & ->)]).
  - exists (l2 ++ [a]).
    destruct (shrink_back_links 0 b) as (? & ? & ?).
    apply (Inv_update 0 sto cnt (cnt - 1) ac fr a h br fre _ l2 a [] b); auto; try lia.
    apply block_ok_shrink_back_zero. by apply (inv_blocks _ _ I a b).
  - exists (l3 ++ [a1]).
    assert (Hll : (l3 ++ [a1]) ++ [a] = l3 ++ [a1; a]) by by rewrite <- app_assoc.
    pose proof (chain_nodup _ _ _ _ (inv_chain _ _ I)) as Hnd.
    apply NoDup_app in Hnd as (_ & Hnd & _).
    assert (a <> a1) by (intros ->; apply (Hnd a1); set_solver).
    assert (Hdb : fBegin b = NULL).
    { pose proof (inv_blocks _ _ I a b Hb) as Hok. proj.
      destruct Hok as (? & _ & _ & [[? ?] | (? & ? & n & ? & ?)]); [done |].
      pose proof sizeof_Block_pos. unfold start, NULL in *. lia. }
    rewrite Hll in I.
    pose proof (Inv_unlink_back _ _ _ _ _ _ _ _ _ (a :: fre) _ _ _ _ _ I Hb Hdb Hb1) as I1.
    destruct (shrink_back_links 0 (set_fNext NULL b1)) as (? & ? & ?).
    assert (Hb1' : delete a (<[a1 := set_fNext NULL b1]> h) !! a1 = Some (set_fNext NULL b1)).
    { rewrite lookup_delete_ne, lookup_insert_eq; done. }
    apply (Inv_update 0 sto cnt (cnt - 1) ac fr a1 _ br _ _ l3 a1 [] (set_fNext NULL b1));
      auto; try lia.
    apply block_ok_shrink_back_zero. by apply (inv_blocks _ _ I1 a1 _).
Qed.

(** *** Every reachable state satisfies the invariant *)

Lemma SkASSERT_true_inv c : SkASSERT true c = Ok tt -> c = true.
Proof. unfold SkASSERT. by destruct c. Qed.

Lemma Inv_new es ac brk0 s :
  0 <= es -> 0 < brk0 -> SkDeque_new true es ac brk0 = Ok s -> Inv s [].
Proof.
  intros Hes Hbrk. unfold SkDeque_new.
  destruct (SkASSERT true (bool_decide (ac >= 1))) as [[]| | |] eqn:Has; try discriminate.
  apply SkASSERT_true_inv, bool_decide_eq_true_1 in Has.
  cbn [bind]. intros [= <-].
  split; proj;
    [done | lia | done | apply chain_empty | apply map_Forall_empty
    | apply regions_disjoint_empty | by intros _ [|??] ?? | done].
Qed.

Lemma Inv_new_storage es storage size ac brk0 s :
  0 <= es -> 0 <= storage -> 0 <= size -> storage + size <= brk0 -> 0 < brk0 ->
  SkDeque_new_storage true es storage size ac brk0 = Ok s ->
  exists l, Inv s l.
Proof.
  intros Hes Hsto Hsize Hfit Hbrk. unfold SkDeque_new_storage.
  destruct (SkASSERT true (bool_decide (size = 0 \/ storage <> NULL))) as [[]| | |] eqn:Has1;
    try discriminate.
  destruct (SkASSERT true (bool_decide (ac >= 1))) as [[]| | |] eqn:Has2; try discriminate.
  apply SkASSERT_true_inv, bool_decide_eq_true_1 in Has1.
  apply SkASSERT_true_inv, bool_decide_eq_true_1 in Has2.
  cbn [bind]. pose proof sizeof_Block_pos as Hhdr.
  case_decide as Hbig; intros [= <-]; ev.
  - exists [storage].
    assert (0 < storage) by (unfold NULL in *; lia).
    split; proj; [done | lia | done | | | | |].
    + rewrite insert_empty. apply chain_single; [unfold NULL; lia | done | done].
    + rewrite insert_empty. apply map_Forall_singleton. apply block_ok_init; lia.
    + apply (regions_disjoint_new es storage).
      * apply regions_disjoint_empty.
      * apply map_Forall_empty.
      * done.
      * lia.
      * simpl. lia.
    + intros _ [|? [|??]] ?? bx Hl ??; simplify_eq.
    + intros _. change [storage] with ([] ++ [storage]).
      rewrite contents_of_snoc, slots_at_insert_eq. by rewrite slots_dead.
  - exists [].
    split; proj;
      [done | lia | done | apply chain_empty | apply map_Forall_empty
      | apply regions_disjoint_empty | by intros _ [|??] ?? | done].
Qed.

Lemma bind_Ok_inv {A B} (m : Result A) (k : A -> Result B) r :
  bind m k = Ok r -> exists a, m = Ok a /\ k a = Ok r.
Proof. destruct m; try discriminate. eauto. Qed.

Lemma apply_op_Inv o s s' l :
  Inv s l -> (is_pop o = true -> 0 < fCount s) -> apply_op false o s = Ok s' ->
  exists l', Inv s' l'.
Proof.
  intros I Hc Hrun. destruct o; cbn [apply_op is_pop] in *.
  - destruct (push_front_spec s l I) as (p & s1 & l1 & Hpush & I1 & _).
    rewrite Hpush in Hrun. cbn in Hrun. injection Hrun as <-. eauto.
  - destruct (push_back_spec s l I) as (p & s1 & l1 & Hpush & I1 & _).
    rewrite Hpush in Hrun. cbn in Hrun. injection Hrun as <-. eauto.
  - destruct (decide (fElemSize s = 0)) as [Hz | Hnz].
    + by apply (pop_front_Inv_zero false s l).
    + pose proof (inv_es _ _ I).
      destruct (pop_front_spec false s l I ltac:(lia) (Hc eq_refl))
        as (p & s1 & l1 & Hpop & I1 & _).
      rewrite Hpop in Hrun. injection Hrun as <-. eauto.
  - destruct (decide (fElemSize s = 0)) as [Hz | Hnz].
    + by apply (pop_back_Inv_zero false s l).
    + pose proof (inv_es _ _ I).
      destruct (pop_back_spec false s l I ltac:(lia) (Hc eq_refl))
        as (p & s1 & l1 & Hpop & I1 & _).
      rewrite Hpop in Hrun. injection Hrun as <-. eauto.
Qed.

Lemma reachable_Inv s : reachable s -> exists l, Inv s l.
Proof.
  induction 1 as [es ac brk0 s Hes Hbrk Hnew
                 | es sto size ac brk0 s Hes Hsto Hsize Hfit Hbrk Hnew
                 | o s s' _ [l I] Hc Hrun].
  - exists []. by apply (Inv_new es ac brk0).
  - by apply (Inv_new_storage es sto size ac brk0).
  - by apply (apply_op_Inv o s s' l).
Qed.

(** ** Where the Blocks of a deque come from *)

Lemma grows_refl s : grows s s.
Proof. unfold grows, same_config. split; [done |]. split; [lia | auto]. Qed.

Lemma grows_trans s1 s2 s3 : grows s1 s2 -> grows s2 s3 -> grows s1 s3.
Proof.
  intros ((E1 & F1 & A1) & B1 & K1) ((E2 & F2 & A2) & B2 & K2).
  split; [unfold same_config; by rewrite E2, F2, A2 |]. split; [lia |].
  intros a Ha. destruct (K2 a Ha) as [H | H]; [| right; lia].
  destruct (K1 a H) as [H' | H']; [by left | right; lia].
Qed.

Lemma grows_fields s s' :
  fElemSize s' = fElemSize s -> fInitialStorage s' = fInitialStorage s ->
  fAllocCount s' = fAllocCount s -> heap s' = heap s -> brk s' = brk s ->
  grows s s'.
Proof.
  intros E F A H B. split; [done |]. split; [lia |]. rewrite H. auto.
Qed.

Lemma poke_grows p f s s' : poke p f s = Ok s' -> grows s s'.
Proof.
  unfold poke, load. destruct (decide (p = NULL)); [discriminate |].
  destruct (heap s !! p) as [b|] eqn:Hb; cbn [bind]; [| discriminate].
  intros [= <-]. split; [by destruct s |]. split; [destruct s; cbn; lia |].
  intros a. destruct s; cbn. destruct (decide (a = p)) as [-> | Hne].
  - rewrite lookup_insert_eq. cbn in Hb. rewrite Hb. by left.
  - rewrite lookup_insert_ne by done. by left.
Qed.

Lemma allocateBlock_grows s p s' :
  0 <= fElemSize s -> 0 <= fAllocCount s ->
  allocateBlock (fAllocCount s) s = (p, s') -> grows s s'.
Proof.
  intros Hes Hac. pose proof sizeof_Block_pos.
  unfold allocateBlock, sk_malloc_throw. intros [= <- <-].
  destruct s as [es sto cnt ac fr bk h br fre].
  split; [done |]. split; [cbn in *; nia |].
  intros a. cbn. destruct (decide (a = br)) as [-> | Hne].
  - right. lia.
  - rewrite lookup_insert_ne by done. by left.
Qed.

Lemma push_back_init_chunk_grows last s p s' :
  push_back_init_chunk last s = Ok (p, s') -> grows s s'.
Proof.
  unfold push_back_init_chunk.
  destruct (poke last (set_fBegin (start last)) s) as [s1 | | |] eqn:E1; cbn [bind]; try discriminate.
  destruct (load s1 last) as [b | | |]; cbn [bind]; try discriminate.
  destruct (poke last _ s1) as [s2 | | |] eqn:E2; cbn [bind]; try discriminate.
  intros [= _ <-]. eapply grows_trans; by eapply poke_grows.
Qed.

Lemma push_front_init_chunk_grows first s p s' :
  push_front_init_chunk first s = Ok (p, s') -> grows s s'.
Proof.
  unfold push_front_init_chunk.
  destruct (load s first) as [b | | |]; cbn [bind]; try discriminate.
  destruct (poke first _ s) as [s1 | | |] eqn:E1; cbn [bind]; try discriminate.
  destruct (poke first _ s1) as [s2 | | |] eqn:E2; cbn [bind]; try discriminate.
  intros [= _ <-]. eapply grows_trans; by eapply poke_grows.
Qed.

Lemma push_back_grows s p s' :
  0 <= fElemSize s -> 0 <= fAllocCount s -> push_back s = Ok (p, s') -> grows s s'.
Proof.
  intros Hes Hac. unfold push_back. cbv zeta.
  set (s1 := set_fCount (fCount s + 1) s).
  assert (grows s s1) as G1 by (by apply grows_fields; destruct s).
  assert (fElemSize s1 = fElemSize s /\ fAllocCount s1 = fAllocCount s) as [E1 A1]
    by (by destruct s).
  clearbody s1.
  destruct (allocateBlock (fAllocCount s1) s1) as [q sa] eqn:Ea.
  assert (grows s1 sa) as Ga by (apply (allocateBlock_grows s1 q); [lia | lia | done]).
  set (s2 := if decide (NULL = fBack s1) then set_fFront q (set_fBack q sa) else s1).
  assert (grows s s2) as G2.
  { unfold s2. destruct (decide (NULL = fBack s1)); [| done].
    eapply grows_trans; [exact G1 |]. eapply grows_trans; [exact Ga |].
    by apply grows_fields; destruct sa. }
  clearbody s2. clear Ea Ga G1 E1 A1 q sa s1.
  destruct (load s2 (fBack s2)) as [b | | |]; cbn [bind]; try discriminate.
  destruct (decide (NULL = fBegin b)).
  { intros H. eapply grows_trans; [exact G2 |]. by eapply push_back_init_chunk_grows. }
  destruct (decide (fEnd b + fElemSize s2 > fStop b)).
  - destruct (allocateBlock (fAllocCount s2) s2) as [q sa] eqn:Ea.
    assert (grows s2 sa) as Ga.
    { destruct G2 as ((E2 & _ & A2) & _). apply (allocateBlock_grows s2 q); [lia | lia | done]. }
    destruct (poke q _ sa) as [s3 | | |] eqn:E3; cbn [bind]; try discriminate.
    destruct (poke (fBack s3) _ s3) as [s4 | | |] eqn:E4; cbn [bind]; try discriminate.
    intros H. apply push_back_init_chunk_grows in H.
    eapply grows_trans; [exact G2 |]. eapply grows_trans; [exact Ga |].
    eapply grows_trans; [by eapply poke_grows |].
    eapply grows_trans; [by eapply poke_grows |].
    eapply grows_trans; [| exact H]. by apply grows_fields; destruct s4.
  - destruct (poke (fBack s2) _ s2) as [s3 | | |] eqn:E3; cbn [bind]; try discriminate.
    intros [= _ <-]. eapply grows_trans; [exact G2 |]. by eapply poke_grows.
Qed.

Lemma push_front_grows s p s' :
  0 <= fElemSize s -> 0 <= fAllocCount s -> push_front s = Ok (p, s') -> grows s s'.
Proof.
  intros Hes Hac. unfold push_front. cbv zeta.
  set (s1 := set_fCount (fCount s + 1) s).
  assert (grows s s1) as G1 by (by apply grows_fields; destruct s).
  assert (fElemSize s1 = fElemSize s /\ fAllocCount s1 = fAllocCount s) as [E1 A1]
    by (by destruct s).
  clearbody s1.
  destruct (allocateBlock (fAllocCount s1) s1) as [q sa] eqn:Ea.
  assert (grows s1 sa) as Ga by (apply (allocateBlock_grows s1 q); [lia | lia | done]).
  set (s2 := if decide (NULL = fFront s1) then set_fBack q (set_fFront q sa) else s1).
  assert (grows s s2) as G2.
  { unfold s2. destruct (decide (NULL = fFront s1)); [| done].
    eapply grows_trans; [exact G1 |]. eapply grows_trans; [exact Ga |].
    by apply grows_fields; destruct sa. }
  clearbody s2. clear Ea Ga G1 E1 A1 q sa s1.
  destruct (load s2 (fFront s2)) as [b | | |]; cbn [bind]; try discriminate.
  destruct (decide (NULL = fBegin b)).
  { intros H. eapply grows_trans; [exact G2 |]. by eapply push_front_init_chunk_grows. }
  destruct (decide (fBegin b - fElemSize s2 < start (fFront s2))).
  - destruct (allocateBlock (fAllocCount s2) s2) as [q sa] eqn:Ea.
    assert (grows s2 sa) as Ga.
    { destruct G2 as ((E2 & _ & A2) & _). apply (allocateBlock_grows s2 q); [lia | lia | done]. }
    destruct (poke q _ sa) as [s3 | | |] eqn:E3; cbn [bind]; try discriminate.
    destruct (poke (fFront s3) _ s3) as [s4 | | |] eqn:E4; cbn [bind]; try discriminate.
    intros H. apply push_front_init_chunk_grows in H.
    eapply grows_trans; [exact G2 |]. eapply grows_trans; [exact Ga |].
    eapply grows_trans; [by eapply poke_grows |].
    eapply grows_trans; [by eapply poke_grows |].
    eapply grows_trans; [| exact H]. by apply grows_fields; destruct s4.
  - destruct (poke (fFront s2) _ s2) as [s3 | | |] eqn:E3; cbn [bind]; try discriminate.
    intros [= _ <-]. eapply grows_trans; [exact G2 |]. by eapply poke_grows.
Qed.

Lemma pop_front_grows debug s l s' :
  chain (heap s) (fFront s) (fBack s) l -> pop_front debug s = Ok s' -> grows s s'.
Proof.
  intros C Hrun. destruct s as [es sto cnt ac fr bk h br fre]. proj.
  destruct (pop_front_inv _ _ _ _ _ _ _ _ _ _ _ _ C Hrun)
    as (a & l2 & b & -> & -> & Hb & [(_ & ->) | (Hd & a2 & l3 & b2 & -> & Hb2 & Hnx & ->)]).
  - split; [done |]. split; [cbn; lia |]. intros x. cbn. left.
    destruct (decide (x = a)) as [-> | ?]; [by rewrite Hb |].
    by rewrite lookup_insert_ne in H.
  - split; [done |]. split; [cbn; lia |]. intros x. cbn. left.
    destruct (decide (x = a2)) as [-> | ?]; [by rewrite Hb2 |].
    rewrite lookup_insert_ne in H by done.
    destruct (decide (x = a)) as [-> | ?]; [by rewrite Hb |].
    by rewrite lookup_delete_ne, lookup_insert_ne in H.
Qed.

Lemma pop_back_grows debug s l s' :
  chain (heap s) (fFront s) (fBack s) l -> pop_back debug s = Ok s' -> grows s s'.
Proof.
  intros C Hrun. destruct s as [es sto cnt ac fr bk h br fre]. proj.
  destruct (pop_back_inv _ _ _ _ _ _ _ _ _ _ _ _ C Hrun)
    as (a & l2 & b & -> & -> & Hb & [(_ & ->) | (Hd & a1 & l3 & b1 & -> & Hb1 & Hpv & ->)]).
  - split; [done |]. split; [cbn; lia |]. intros x. cbn. left.
    destruct (decide (x = a)) as [-> | ?]; [by rewrite Hb |].
    by rewrite lookup_insert_ne in H.
  - split; [done |]. split; [cbn; lia |]. intros x. cbn. left.
    destruct (decide (x = a1)) as [-> | ?]; [by rewrite Hb1 |].
    rewrite lookup_insert_ne in H by done.
    destruct (decide (x = a)) as [-> | ?]; [by rewrite Hb |].
    by rewrite lookup_delete_ne, lookup_insert_ne in H.
Qed.

Lemma apply_op_grows debug o s l s' :
  Inv s l -> apply_op debug o s = Ok s' -> grows s s'.
Proof.
  intros I Hrun. pose proof (inv_es _ _ I). pose proof (inv_ac _ _ I).
  destruct o; cbn [apply_op] in Hrun.
  - apply bind_Ok_inv in Hrun as ([p s1] & Hp & [= <-]).
    apply (push_front_grows s p); [done | lia | done].
  - apply bind_Ok_inv in Hrun as ([p s1] & Hp & [= <-]).
    apply (push_back_grows s p); [done | lia | done].
  - apply (pop_front_grows debug s l); [apply I | done].
  - apply (pop_back_grows debug s l); [apply I | done].
Qed.

(** *** Builds *)

(** What returns with the assertions compiled in returns the same without
    them. *)
Lemma SkASSERT_erase {A} debug c (k : Result A) r :
  (SkASSERT debug c ;;; k) = Ok r -> (SkASSERT false c ;;; k) = Ok r.
Proof. destruct (SkASSERT_cases debug c) as [-> | ->]; [done | discriminate]. Qed.

Lemma pop_front_shrink_release debug first s s' :
  pop_front_shrink debug first s = Ok s' -> pop_front_shrink false first s = Ok s'.
Proof.
  unfold pop_front_shrink. destruct (load s first) as [b | | |]; cbn [bind]; try discriminate.
  apply SkASSERT_erase.
Qed.

Lemma pop_back_shrink_release debug last s s' :
  pop_back_shrink debug last s = Ok s' -> pop_back_shrink false last s = Ok s'.
Proof.
  unfold pop_back_shrink. destruct (load s last) as [b | | |]; cbn [bind]; try discriminate.
  apply SkASSERT_erase.
Qed.

Lemma pop_front_release debug s s' :
  pop_front debug s = Ok s' -> pop_front false s = Ok s'.
Proof.
  unfold pop_front. intros H.
  destruct (SkASSERT_cases debug (bool_decide (fCount s > 0))) as [E | E];
    rewrite E in H; [| discriminate].
  cbn [bind] in *.
  match type of H with context [SkASSERT debug ?c] =>
    destruct (SkASSERT_cases debug c) as [E' | E']; rewrite E' in H; [| discriminate]
  end.
  cbn [bind] in *.
  match goal with |- context [load ?s0 ?p] => destruct (load s0 p) as [b | | |] end;
    cbn [bind] in *; try discriminate.
  destruct (decide (fBegin b = NULL)); [| by apply (pop_front_shrink_release debug)].
  match goal with |- context [poke ?p ?f ?s0] => destruct (poke p f s0) as [s1 | | |] end;
    cbn [bind] in *; try discriminate.
  match type of H with context [SkASSERT debug ?c] =>
    destruct (SkASSERT_cases debug c) as [E'' | E'']; rewrite E'' in H; [| discriminate]
  end.
  cbn [bind] in *. by apply (pop_front_shrink_release debug).
Qed.

Lemma pop_back_release debug s s' :
  pop_back debug s = Ok s' -> pop_back false s = Ok s'.
Proof.
  unfold pop_back. intros H.
  destruct (SkASSERT_cases debug (bool_decide (fCount s > 0))) as [E | E];
    rewrite E in H; [| discriminate].
  cbn [bind] in *.
  match type of H with context [SkASSERT debug ?c] =>
    destruct (SkASSERT_cases debug c) as [E' | E']; rewrite E' in H; [| discriminate]
  end.
  cbn [bind] in *.
  match goal with |- context [load ?s0 ?p] => destruct (load s0 p) as [b | | |] end;
    cbn [bind] in *; try discriminate.
  destruct (decide (fEnd b = NULL)); [| by apply (pop_back_shrink_release debug)].
  match goal with |- context [poke ?p ?f ?s0] => destruct (poke p f s0) as [s1 | | |] end;
    cbn [bind] in *; try discriminate.
  match type of H with context [SkASSERT debug ?c] =>
    destruct (SkASSERT_cases debug c) as [E'' | E'']; rewrite E'' in H; [| discriminate]
  end.
  cbn [bind] in *. by apply (pop_back_shrink_release debug).
Qed.

Lemma apply_op_release debug o s s' :
  apply_op debug o s = Ok s' -> apply_op false o s = Ok s'.
Proof.
  destruct o; cbn [apply_op]; [done | done | apply pop_front_release | apply pop_back_release].
Qed.

(** ** States within the machine's range *)

Lemma INT_MAX_pos : 0 < INT_MAX.
Proof. reflexivity. Qed.

Lemma machine_okb_ok s : machine_okb s = true -> machine_ok s.
Proof.
  unfold machine_okb, machine_ok. rewrite !andb_true_iff, !bool_decide_eq_true. tauto.
Qed.

Lemma machine_ok_okb s : machine_ok s -> machine_okb s = true.
Proof.
  unfold machine_okb, machine_ok. rewrite !andb_true_iff, !bool_decide_eq_true. tauto.
Qed.

Lemma machine_reachable_reachable s : machine_reachable s -> reachable s.
Proof.
  induction 1 as [es ac brk0 s ? ? Hnew _ | es sto sz ac brk0 s ? ? ? ? ? _ Hnew _
                  | o s s' _ IH Hv Hrun _].
  - by apply (reach_new es ac brk0).
  - by apply (reach_new_storage es sto sz ac brk0).
  - by apply (reach_step o s s').
Qed.

Lemma machine_reachable_ok s : machine_reachable s -> machine_ok s.
Proof. by destruct 1. Qed.

Lemma machine_run_reachable os : forall s,
  machine_reachable s -> machine_run os s = true ->
  exists s', run false os s = Ok s' /\ machine_reachable s'.
Proof.
  induction os as [|o os IH]; intros s Hm Hrun; cbn [machine_run run] in *.
  - by exists s.
  - apply andb_true_iff in Hrun as [Hv Hrun]. rewrite Hv.
    destruct (apply_op false o s) as [s1 | | |] eqn:Hop; try discriminate.
    apply andb_true_iff in Hrun as [Hok Hrun]. cbn [bind].
    apply (IH s1); [| done]. apply (mreach_step o s s1); [done | | done | by apply machine_okb_ok].
    intros Hp. unfold valid_op in Hv. rewrite Hp in Hv. cbn in Hv.
    by apply bool_decide_eq_true_1 in Hv.
Qed.

(** *** Pops stay within the range *)

Lemma size_keys_le (h h' : gmap Z Block) :
  (forall a, is_Some (h' !! a) -> is_Some (h !! a)) -> (size h' <= size h)%nat.
Proof.
  intros Hsub. rewrite <- !size_dom. apply subseteq_size.
  intros a. rewrite !elem_of_dom. apply Hsub.
Qed.

Lemma machine_ok_fewer s s' :
  machine_ok s ->
  fElemSize s' = fElemSize s -> fInitialStorage s' = fInitialStorage s ->
  fAllocCount s' = fAllocCount s -> fCount s' <= fCount s -> brk s' = brk s ->
  (forall a, is_Some (heap s' !! a) -> is_Some (heap s !! a)) ->
  fInitialStorage s ∉ freed s' ->
  machine_ok s'.
Proof.
  intros (Hc & Ha & Hn & Hb & Hlow & Hsto & Hfr) Ees Esto Eac Ecnt Ebrk Hsub Hfr'.
  unfold machine_ok. rewrite Ees, Esto, Eac, Ebrk.
  split; [lia |]. split; [done |].
  split; [pose proof (size_keys_le _ _ Hsub); lia |].
  split; [done |]. split; [| done].
  intros a b' Hb'. destruct (Hsub a ltac:(by eexists)) as [b0 Hb0]. by apply (Hlow a b0).
Qed.

Lemma pop_front_keys debug s l s' :
  chain (heap s) (fFront s) (fBack s) l -> pop_front debug s = Ok s' ->
  forall a, is_Some (heap s' !! a) -> is_Some (heap s !! a).
Proof.
  intros C Hrun a Ha. pose proof (pop_front_grows debug s l s' C Hrun) as (_ & _ & Hkeys).
  destruct s as [es sto cnt ac fr bk h br fre]. proj.
  destruct (pop_front_inv _ _ _ _ _ _ _ _ _ _ _ _ C Hrun)
    as (x & l2 & b & -> & -> & Hb & [(_ & ->) | (Hd & a2 & l3 & b2 & -> & Hb2 & Hnx & ->)]);
    cbn [heap] in *.
  - destruct (decide (a = x)) as [-> | ?]; [by rewrite Hb |].
    by rewrite lookup_insert_ne in Ha.
  - destruct (decide (a = a2)) as [-> | ?]; [by rewrite Hb2 |].
    rewrite lookup_insert_ne in Ha by done.
    destruct (decide (a = x)) as [-> | ?]; [by rewrite Hb |].
    by rewrite lookup_delete_ne, lookup_insert_ne in Ha.
Qed.

Lemma pop_back_keys debug s l s' :
  chain (heap s) (fFront s) (fBack s) l -> pop_back debug s = Ok s' ->
  forall a, is_Some (heap s' !! a) -> is_Some (heap s !! a).
Proof.
  intros C Hrun a Ha.
  destruct s as [es sto cnt ac fr bk h br fre]. proj.
  destruct (pop_back_inv _ _ _ _ _ _ _ _ _ _ _ _ C Hrun)
    as (x & l2 & b & -> & -> & Hb & [(_ & ->) | (Hd & a1 & l3 & b1 & -> & Hb1 & Hpv & ->)]);
    cbn [heap] in *.
  - destruct (decide (a = x)) as [-> | ?]; [by rewrite Hb |].
    by rewrite lookup_insert_ne in Ha.
  - destruct (decide (a = a1)) as [-> | ?]; [by rewrite Hb1 |].
    rewrite lookup_insert_ne in Ha by done.
    destruct (decide (a = x)) as [-> | ?]; [by rewrite Hb |].
    by rewrite lookup_delete_ne, lookup_insert_ne in Ha.
Qed.

(** A valid pop that does not free the caller's storage leads from a state
    of the program to a state of the program. *)
Lemma pop_front_machine debug s s' :
  machine_reachable s -> 0 < fCount s -> pop_front_ok s ->
  pop_front debug s = Ok s' ->
  machine_reachable s' /\ fInitialStorage s ∉ freed s'.
Proof.
  intros Hm Hc Hguard Hrun.
  pose proof (machine_reachable_reachable s Hm) as Hr.
  pose proof (machine_reachable_ok s Hm) as Hok.
  destruct (reachable_Inv s Hr) as [l I]. pose proof (inv_chain _ _ I) as C.
  pose proof (pop_front_keys debug s l s' C Hrun) as Hkeys.
  assert (fInitialStorage s ∉ freed s') as Hfr.
  { destruct Hok as (_ & _ & _ & _ & _ & _ & Hfr). unfold pop_front_ok in Hguard.
    destruct s as [es sto cnt ac fr bk h br fre]. proj.
    destruct (pop_front_inv _ _ _ _ _ _ _ _ _ _ _ _ C Hrun)
      as (x & l2 & b & -> & -> & Hb & [(_ & ->) | (Hd & a2 & l3 & b2 & -> & Hb2 & Hnx & ->)]);
      cbn [freed]; [done |].
    apply not_elem_of_cons. split; [| done]. intros ->. by apply (Hguard b). }
  split; [| done].
  apply (mreach_step PopFront s s'); [done | done | by apply (pop_front_release debug) |].
  destruct s as [es sto cnt ac fr bk h br fre]. proj.
  destruct (pop_front_inv _ _ _ _ _ _ _ _ _ _ _ _ C Hrun)
    as (x & l2 & b & -> & -> & Hb & [(_ & ->) | (Hd & a2 & l3 & b2 & -> & Hb2 & Hnx & ->)]);
    (eapply machine_ok_fewer; [exact Hok | done | done | done | cbn; lia | done | exact Hkeys | exact Hfr]).
Qed.

Lemma pop_back_machine debug s s' :
  machine_reachable s -> 0 < fCount s -> pop_back_ok s ->
  pop_back debug s = Ok s' ->
  machine_reachable s' /\ fInitialStorage s ∉ freed s'.
Proof.
  intros Hm Hc Hguard Hrun.
  pose proof (machine_reachable_reachable s Hm) as Hr.
  pose proof (machine_reachable_ok s Hm) as Hok.
  destruct (reachable_Inv s Hr) as [l I]. pose proof (inv_chain _ _ I) as C.
  pose proof (pop_back_keys debug s l s' C Hrun) as Hkeys.
  assert (fInitialStorage s ∉ freed s') as Hfr.
  { destruct Hok as (_ & _ & _ & _ & _ & _ & Hfr). unfold pop_back_ok in Hguard.
    destruct s as [es sto cnt ac fr bk h br fre]. proj.
    destruct (pop_back_inv _ _ _ _ _ _ _ _ _ _ _ _ C Hrun)
      as (x & l2 & b & -> & -> & Hb & [(_ & ->) | (Hd & a1 & l3 & b1 & -> & Hb1 & Hpv & ->)]);
      cbn [freed]; [done |].
    apply not_elem_of_cons. split; [| done]. intros ->. by apply (Hguard b). }
  split; [| done].
  apply (mreach_step PopBack s s'); [done | done | by apply (pop_back_release debug) |].
  destruct s as [es sto cnt ac fr bk h br fre]. proj.
  destruct (pop_back_inv _ _ _ _ _ _ _ _ _ _ _ _ C Hrun)
    as (x & l2 & b & -> & -> & Hb & [(_ & ->) | (Hd & a1 & l3 & b1 & -> & Hb1 & Hpv & ->)]);
    (eapply machine_ok_fewer; [exact Hok | done | done | done | cbn; lia | done | exact Hkeys | exact Hfr]).
Qed.

(** *** Pushes keep the Blocks *)

Lemma keeps_refl s : keeps s s.
Proof. by intros a. Qed.

Lemma keeps_trans s1 s2 s3 : keeps s1 s2 -> keeps s2 s3 -> keeps s1 s3.
Proof. intros K1 K2 a Ha. by apply K2, K1. Qed.

Lemma keeps_fields s s' : heap s' = heap s -> keeps s s'.
Proof. intros H a. by rewrite H. Qed.

Lemma poke_keeps p f s s' : poke p f s = Ok s' -> keeps s s'.
Proof.
  unfold poke, load. destruct (decide (p = NULL)); [discriminate |].
  destruct (heap s !! p) as [b|] eqn:Hb; cbn [bind]; [| discriminate].
  intros [= <-] a Ha. destruct s; cbn in *.
  destruct (decide (a = p)) as [-> | Hne].
  - by rewrite lookup_insert_eq.
  - by rewrite lookup_insert_ne.
Qed.

Lemma allocateBlock_keeps s p s' :
  allocateBlock (fAllocCount s) s = (p, s') -> keeps s s'.
Proof.
  unfold allocateBlock, sk_malloc_throw. intros [= <- <-] a Ha.
  destruct s as [es sto cnt ac fr bk h br fre]. cbn in *.
  destruct (decide (a = br)) as [-> | Hne].
  - by rewrite lookup_insert_eq.
  - by rewrite lookup_insert_ne.
Qed.

Lemma push_back_init_chunk_keeps last s p s' :
  push_back_init_chunk last s = Ok (p, s') -> keeps s s'.
Proof.
  unfold push_back_init_chunk.
  destruct (poke last (set_fBegin (start last)) s) as [s1 | | |] eqn:E1; cbn [bind]; try discriminate.
  destruct (load s1 last) as [b | | |]; cbn [bind]; try discriminate.
  destruct (poke last _ s1) as [s2 | | |] eqn:E2; cbn [bind]; try discriminate.
  intros [= _ <-]. eapply keeps_trans; by eapply poke_keeps.
Qed.

Lemma push_back_keeps s p s' : push_back s = Ok (p, s') -> keeps s s'.
Proof.
  unfold push_back. cbv zeta.
  set (s1 := set_fCount (fCount s + 1) s).
  assert (keeps s s1) as G1 by (by apply keeps_fields; destruct s).
  assert (fAllocCount s1 = fAllocCount s) as A1 by (by destruct s).
  clearbody s1.
  destruct (allocateBlock (fAllocCount s1) s1) as [q sa] eqn:Ea.
  assert (keeps s1 sa) as Ga by (by apply (allocateBlock_keeps s1 q)).
  set (s2 := if decide (NULL = fBack s1) then set_fFront q (set_fBack q sa) else s1).
  assert (keeps s s2) as G2.
  { unfold s2. destruct (decide (NULL = fBack s1)); [| done].
    eapply keeps_trans; [exact G1 |]. eapply keeps_trans; [exact Ga |].
    by apply keeps_fields; destruct sa. }
  clearbody s2. clear Ea Ga G1 A1 q sa s1.
  destruct (load s2 (fBack s2)) as [b | | |]; cbn [bind]; try discriminate.
  destruct (decide (NULL = fBegin b)).
  { intros H. eapply keeps_trans; [exact G2 |]. by eapply push_back_init_chunk_keeps. }
  destruct (decide (fEnd b + fElemSize s2 > fStop b)).
  - destruct (allocateBlock (fAllocCount s2) s2) as [q sa] eqn:Ea.
    assert (keeps s2 sa) as Ga by (by apply (allocateBlock_keeps s2 q)).
    destruct (poke q _ sa) as [s3 | | |] eqn:E3; cbn [bind]; try discriminate.
    destruct (poke (fBack s3) _ s3) as [s4 | | |] eqn:E4; cbn [bind]; try discriminate.
    intros H. apply push_back_init_chunk_keeps in H.
    eapply keeps_trans; [exact G2 |]. eapply keeps_trans; [exact Ga |].
    eapply keeps_trans; [by eapply poke_keeps |].
    eapply keeps_trans; [by eapply poke_keeps |].
    eapply keeps_trans; [| exact H]. by apply keeps_fields; destruct s4.
  - destruct (poke (fBack s2) _ s2) as [s3 | | |] eqn:E3; cbn [bind]; try discriminate.
    intros [= _ <-]. eapply keeps_trans; [exact G2 |]. by eapply poke_keeps.
Qed.

Lemma extends_refl s : extends s s.
Proof.
  unfold extends, same_config. split; [done |]. split; [lia |]. split; [lia |].
  split; [done | apply keeps_refl].
Qed.

Lemma extends_trans s1 s2 s3 : extends s1 s2 -> extends s2 s3 -> extends s1 s3.
Proof.
  intros ((E1 & F1 & A1) & C1 & B1 & R1 & K1) ((E2 & F2 & A2) & C2 & B2 & R2 & K2).
  split; [unfold same_config; by rewrite E2, F2, A2 |].
  split; [lia |]. split; [lia |]. split; [by rewrite R2 |]. by eapply keeps_trans.
Qed.

Lemma push_back_extends s l p s' :
  Inv s l -> push_back s = Ok (p, s') -> extends s s'.
Proof.
  intros I Hrun.
  destruct (push_back_spec s l I) as (p0 & s0 & l0 & Hp & _ & Hcfg & Hc & Hfr & _).
  rewrite Hrun in Hp. injection Hp as <- <-.
  pose proof (inv_es _ _ I). pose proof (inv_ac _ _ I).
  destruct (push_back_grows s p s') as (_ & Hbrk & _); [done | lia | done |].
  split; [done |]. split; [lia |]. split; [done |]. split; [done |].
  by apply (push_back_keeps s p).
Qed.

(** A state between two states within the range is within the range. *)
Lemma machine_ok_between s s1 s2 :
  machine_ok s -> extends s s1 -> extends s1 s2 -> machine_ok s2 -> machine_ok s1.
Proof.
  intros (_ & _ & _ & _ & _ & Hsto & Hfr)
         ((E1 & F1 & A1) & C1 & B1 & R1 & K1) ((E2 & F2 & A2) & C2 & B2 & R2 & K2)
         (Hc & Ha & Hn & Hb & Hlow & _ & _).
  rewrite E2, ?F2, ?A2 in *.
  unfold machine_ok. rewrite F1, R1.
  split; [lia |]. split; [lia |].
  split; [pose proof (size_keys_le _ _ K2); lia |].
  split; [lia |]. split; [| split; [lia | done]].
  intros a b Hb1. destruct (K2 a ltac:(by eexists)) as [b2 Hb2]. by apply (Hlow a b2).
Qed.

Lemma machine_run_app os1 : forall os2 s s',
  machine_run os1 s = true -> run false os1 s = Ok s' -> machine_run os2 s' = true ->
  machine_run (os1 ++ os2) s = true /\ run false (os1 ++ os2) s = run false os2 s'.
Proof.
  induction os1 as [|o os1 IH]; intros os2 s s' H1 Hrun H2; cbn [machine_run run app] in *.
  - by injection Hrun as <-.
  - apply andb_true_iff in H1 as [Hv H1]. rewrite Hv in *. cbn [andb].
    destruct (apply_op false o s) as [s1 | | |]; try discriminate.
    apply andb_true_iff in H1 as [Hok H1]. rewrite Hok. cbn [andb bind] in *.
    by apply (IH os2 s1 s').
Qed.

Lemma push_back_all_extends vs : forall s l m s1 m1,
  Inv s l -> push_back_all vs s m = Ok (s1, m1) -> extends s s1.
Proof.
  induction vs as [|v vs IH]; intros s l m s1 m1 I Hrun; cbn [push_back_all] in Hrun.
  - injection Hrun as <- <-. apply extends_refl.
  - apply bind_Ok_inv in Hrun as ([p s2] & Hp & Hrun). cbn [fst snd] in Hrun.
    destruct (push_back_spec s l I) as (p' & s' & l2 & Hp' & I2 & _).
    rewrite Hp in Hp'. injection Hp' as <- <-.
    eapply extends_trans; [by apply (push_back_extends s l p s2) |].
    by apply (IH s2 l2 (write p v m) s1 m1).
Qed.

(** The pushes of [push_back_all], as a run. *)
Lemma push_back_all_machine vs : forall s m s1 m1,
  machine_reachable s -> push_back_all vs s m = Ok (s1, m1) -> machine_ok s1 ->
  machine_run (replicate (length vs) PushBack) s = true /\
  run false (replicate (length vs) PushBack) s = Ok s1 /\
  machine_reachable s1 /\ extends s s1.
Proof.
  induction vs as [|v vs IH]; intros s m s1 m1 Hm Hrun Hok;
    cbn [push_back_all length replicate machine_run run] in *.
  - injection Hrun as <- <-. split; [done |]. split; [done |]. split; [done | apply extends_refl].
  - apply bind_Ok_inv in Hrun as ([p s0] & Hp & Hrun). cbn [fst snd] in Hrun.
    destruct (reachable_Inv s (machine_reachable_reachable s Hm)) as [l I].
    pose proof (push_back_extends s l p s0 I Hp) as E0.
    destruct (push_back_spec s l I) as (p' & s' & l' & Hp' & I' & _).
    rewrite Hp in Hp'. injection Hp' as <- <-.
    pose proof (push_back_all_extends vs s0 l' (write p v m) s1 m1 I' Hrun) as E1.
    pose proof (machine_ok_between s s0 s1 (machine_reachable_ok s Hm) E0 E1 Hok) as Hok0.
    assert (machine_reachable s0) as Hm0.
    { apply (mreach_step PushBack s s0); [done | done | | done].
      cbn [apply_op]. by rewrite Hp. }
    destruct (IH s0 (write p v m) s1 m1 Hm0 Hrun Hok) as (Hr1 & Hr2 & Hr3 & _).
    unfold valid_op. cbn [is_pop negb orb apply_op]. rewrite Hp. cbn [bind snd andb].
    rewrite (machine_ok_okb s0 Hok0). cbn [andb].
    split; [done |]. split; [done |]. split; [done | by eapply extends_trans].
Qed.

(** A deque that does not use storage of the caller. *)
Lemma pop_front_all_machine debug n : forall s m vs s2,
  machine_reachable s -> heap s !! fInitialStorage s = None ->
  pop_front_all debug n s m = Ok (vs, s2) -> Z.of_nat n <= fCount s ->
  machine_run (replicate n PopFront) s = true /\
  run false (replicate n PopFront) s = Ok s2 /\
  machine_reachable s2.
Proof.
  induction n as [|n IH]; intros s m vs s2 Hm Hno Hrun Hn;
    cbn [pop_front_all replicate machine_run run] in *.
  - injection Hrun as _ <-. done.
  - apply bind_Ok_inv in Hrun as (p & Hp & Hrun).
    destruct (decide (p = NULL)); [discriminate |].
    apply bind_Ok_inv in Hrun as (s0 & Hpop & Hrun).
    apply bind_Ok_inv in Hrun as ([vs' s2'] & Hrest & [= _ <-]).
    destruct (reachable_Inv s (machine_reachable_reachable s Hm)) as [l I].
    assert (pop_front_ok s) as Hguard.
    { intros b Hb _ E. rewrite E, Hno in Hb. discriminate. }
    destruct (pop_front_machine debug s s0 Hm ltac:(lia) Hguard Hpop) as [Hm0 _].
    pose proof (pop_front_keys debug s l s0 (inv_chain _ _ I) Hpop) as Hkeys.
    destruct (pop_front_grows debug s l s0 (inv_chain _ _ I) Hpop) as ((_ & Hsto & _) & _).
    assert (heap s0 !! fInitialStorage s0 = None) as Hno0.
    { rewrite Hsto. destruct (heap s0 !! fInitialStorage s) eqn:E; [| done].
      destruct (Hkeys (fInitialStorage s) ltac:(by eexists)) as [b' Hb'].
      rewrite Hno in Hb'. discriminate. }
    assert (fCount s0 = fCount s - 1) as Hc0.
    { clear -I Hpop. destruct s as [es sto cnt ac fr bk h br fre].
      pose proof (inv_chain _ _ I) as C. proj.
      destruct (pop_front_inv _ _ _ _ _ _ _ _ _ _ _ _ C Hpop)
        as (x & l2 & b & _ & _ & _ & [(_ & ->) | (_ & a2 & l3 & b2 & _ & _ & _ & ->)]); done. }
    destruct (IH s0 m vs' s2' Hm0 Hno0 Hrest ltac:(lia)) as (Hr1 & Hr2 & Hr3).
    unfold valid_op. cbn [is_pop negb orb apply_op].
    rewrite bool_decide_eq_true_2 by lia. cbn [andb].
    rewrite (pop_front_release debug s s0 Hpop). cbn [bind].
    rewrite (machine_ok_okb s0 (machine_reachable_ok s0 Hm0)). done.
Qed.

Lemma push_back_all_grows vs : forall s l m s1 m1,
  Inv s l -> push_back_all vs s m = Ok (s1, m1) -> grows s s1.
Proof.
  induction vs as [|v vs IH]; intros s l m s1 m1 I Hrun; cbn [push_back_all] in Hrun.
  - injection Hrun as <- <-. apply grows_refl.
  - apply bind_Ok_inv in Hrun as ([p s2] & Hp & Hrun). cbn [fst snd] in Hrun.
    destruct (push_back_spec s l I) as (p' & s' & l2 & Hp' & I2 & _).
    rewrite Hp in Hp'. injection Hp' as <- <-.
    pose proof (inv_es _ _ I). pose proof (inv_ac _ _ I).
    eapply grows_trans; [apply (push_back_grows s p s2); [done | lia | done] |].
    by apply (IH s2 l2 (write p v m) s1 m1).
Qed.

(** What the allocator hands out does not lie at the caller's storage. *)
Lemma no_storage_kept s s1 :
  machine_ok s -> grows s s1 -> heap s !! fInitialStorage s = None ->
  heap s1 !! fInitialStorage s1 = None.
Proof.
  intros (_ & _ & _ & _ & _ & Hsto & _) ((_ & E & _) & _ & Hkeys) Hno.
  rewrite E. destruct (heap s1 !! fInitialStorage s) as [b|] eqn:Hb; [| done].
  destruct (Hkeys (fInitialStorage s)) as [[b0 Hb0] | Hge]; [by eexists | | lia].
  rewrite Hno in Hb0. discriminate.
Qed.

Lemma push_back_all_run vs : forall s m s1 m1,
  push_back_all vs s m = Ok (s1, m1) ->
  run false (replicate (length vs) PushBack) s = Ok s1.
Proof.
  induction vs as [|v vs IH]; intros s m s1 m1 Hrun;
    cbn [push_back_all length replicate run] in *.
  - by injection Hrun as <- <-.
  - apply bind_Ok_inv in Hrun as ([p s2] & Hp & Hrun). cbn [fst snd] in Hrun.
    unfold valid_op. cbn [is_pop negb orb apply_op]. rewrite Hp. cbn [bind snd].
    by apply (IH s2 (write p v m) s1 m1).
Qed.

(** *** numBlocksAllocated *)

Lemma numBlocks_loop_chain s f k l l1 l2 (fuel : nat) (acc : Z) :
  chain (heap s) f k l -> l = l1 ++ l2 -> (length l2 < fuel)%nat ->
  numBlocks_loop fuel s (head0 l2) acc = Ok (acc + Z.of_nat (length l2)).
Proof.
  intros C. revert l1 fuel acc. induction l2 as [|a l2 IH]; intros l1 fuel acc Hl Hf.
  - destruct fuel; [simpl in Hf; lia |]. cbn. f_equal. lia.
  - destruct fuel as [|fuel]; simpl in Hf; [lia |].
    destruct (chain_links _ _ _ _ C _ _ _ Hl) as (b & Hb & _ & Hnx).
    assert (a <> NULL).
    { intros ->. apply (chain_nonnull _ _ _ _ C). rewrite Hl. set_solver. }
    rewrite head0_cons. cbn [numBlocks_loop]. rewrite decide_False by done.
    rewrite (load_Some s a b) by done. cbn [bind].
    rewrite Hnx, (IH (l1 ++ [a])); [| by rewrite <- app_assoc | lia].
    f_equal. simpl length. lia.
Qed.

Lemma numBlocksAllocated_chain s l :
  chain (heap s) (fFront s) (fBack s) l ->
  numBlocksAllocated s = Ok (Z.of_nat (length l)).
Proof.
  intros C. unfold numBlocksAllocated. rewrite (chain_front _ _ _ _ C).
  rewrite (numBlocks_loop_chain s _ _ l [] l _ 0 C); [done | done |].
  rewrite (chain_size _ _ _ _ C). lia.
Qed.

Lemma block_ok_occupancy es lim a b :
  0 <= es -> block_ok es lim a b -> occupancy es a b.
Proof.
  intros Hes (Ha & Hcap & Hlim & Hb). pose proof sizeof_Block_pos.
  unfold occupancy, start, NULL in *.
  destruct Hb as [[Hb He] | (Hlo & Hhi & n & Hn & Hpos)].
  - split; [by rewrite Hb, He | by rewrite Hb].
  - assert (0 <= Z.of_nat n * es) by nia.
    split; [lia |]. intros _. repeat (split; [lia |]).
    split; [exists (Z.of_nat n); lia |].
    intros Hes'. specialize (Hpos Hes'). nia.
Qed.

(** C6 (within the machine's range). In every state of a deque that the
    program reaches, and so after every push and every pop that stays
    within the range, with or without the assertions, each Block of the
    chain satisfies the occupancy invariant: its two cursors are both null
    (the Block is empty) or neither is, and then start-of-chunk <= begin <=
    end <= stop with (end - begin) a multiple of the element size, and
    begin < end (the Block holds an element) when the elements have a
    size. *)
Theorem block_occupancy_invariant (debug : bool) (s : State) :
  machine_reachable s ->
  occupancy_all s /\
  forall o s', (is_pop o = true -> 0 < fCount s) ->
               apply_op debug o s = Ok s' -> machine_ok s' ->
               machine_reachable s' /\ occupancy_all s'.
Proof.
  assert (Hall : forall s, reachable s -> occupancy_all s).
  { intros s0 Hr. destruct (reachable_Inv s0 Hr) as [l I].
    intros a b Hb. apply (block_ok_occupancy _ (brk s0)); [apply I |].
    by apply (inv_blocks _ _ I). }
  intros Hm. split; [by apply Hall, machine_reachable_reachable |].
  intros o s' Hc Hrun Hok.
  assert (machine_reachable s') as Hm'.
  { apply (mreach_step o s s'); [done | done | by apply (apply_op_release debug) | done]. }
  split; [done | by apply Hall, machine_reachable_reachable].
Qed.

(** C9. In every state of a deque the front pointer is the head of the
    chain and the back pointer its tail: they are null together, the
    front Block has no predecessor, the back Block has no successor, the
    Blocks met from the front along [fNext] end with the back Block and
    are all the Blocks there are; [numBlocksAllocated] counts them all,
    the empty-marked ones included. *)
Theorem front_back_are_chain_ends (s : State) :
  reachable s ->
  (fFront s = NULL <-> fBack s = NULL) /\
  (forall b, heap s !! fFront s = Some b -> fPrev b = NULL) /\
  (forall b, heap s !! fBack s = Some b -> fNext b = NULL) /\
  (fFront s <> NULL -> is_Some (heap s !! fFront s)) /\
  (fBack s <> NULL -> is_Some (heap s !! fBack s)) /\
  last0 (blocks s) = fBack s /\
  (forall a, is_Some (heap s !! a) <-> a ∈ blocks s) /\
  numBlocksAllocated s = Ok (Z.of_nat (length (blocks s))) /\
  length (blocks s) = size (heap s).
Proof.
  intros Hr. destruct (reachable_Inv s Hr) as [l I].
  pose proof (inv_chain _ _ I) as C.
  rewrite (blocks_chain s l C).
  pose proof (chain_front _ _ _ _ C) as Hf.
  pose proof (chain_back _ _ _ _ C) as Hk.
  assert (Hnn : forall a, a ∈ l -> a <> NULL).
  { intros a Ha ->. by apply (chain_nonnull _ _ _ _ C). }
  split; [| split; [| split; [| split; [| split; [| split; [| split; [| split]]]]]]].
  - destruct (list_snoc_case l) as [-> | (l' & a & ->)].
    + by rewrite Hf, Hk.
    + rewrite Hk, last0_snoc. rewrite Hf.
      pose proof (head0_elem (l' ++ [a]) ltac:(by destruct l')) as Hin.
      split; intros H0.
      * exfalso. by apply (Hnn _ Hin).
      * exfalso. apply (Hnn a); [set_solver | done].
  - intros b Hb. destruct l as [|a l'].
    + apply chain_nil_inv in C as (Hh & _). by rewrite Hh, lookup_empty in Hb.
    + rewrite Hf, head0_cons in Hb.
      destruct (chain_links _ _ _ _ C [] a l' eq_refl) as (b' & Hb' & Hp & _).
      by assert (b = b') as -> by congruence.
  - intros b Hb. destruct (list_snoc_case l) as [-> | (l' & a & ->)].
    + apply chain_nil_inv in C as (Hh & _). by rewrite Hh, lookup_empty in Hb.
    + rewrite Hk, last0_snoc in Hb.
      destruct (chain_links _ _ _ _ C l' a [] eq_refl) as (b' & Hb' & _ & Hn).
      by assert (b = b') as -> by congruence.
  - intros Hne. apply (chain_dom _ _ _ _ C). rewrite Hf. apply head0_elem.
    intros ->. by rewrite Hf in Hne.
  - intros Hne. apply (chain_dom _ _ _ _ C). rewrite Hk. apply last0_elem.
    intros ->. by rewrite Hk in Hne.
  - done.
  - intros a. symmetry. apply (chain_dom _ _ _ _ C).
  - by apply numBlocksAllocated_chain.
  - symmetry. by apply (chain_size _ _ _ _ C).
Qed.

(** *** front and back *)

Lemma slots_from_head p es n : slots_from p es (S n) = p :: slots_from (p + es) es n.
Proof. reflexivity. Qed.

Lemma slots_live_head es b (n : nat) :
  0 < es -> fBegin b <> NULL -> fEnd b = fBegin b + Z.of_nat (S n) * es ->
  exists c, slots es b = fBegin b :: c.
Proof.
  intros Hes Hl Hn. rewrite (slots_live es b (S n)) by done.
  rewrite slots_from_head. eauto.
Qed.

Lemma slots_live_last es b (n : nat) :
  0 < es -> fBegin b <> NULL -> fEnd b = fBegin b + Z.of_nat (S n) * es ->
  exists c, slots es b = c ++ [fEnd b - es].
Proof.
  intros Hes Hl Hn. rewrite (slots_live es b (S n)) by done.
  rewrite slots_from_snoc. eexists. f_equal. f_equal. lia.
Qed.

(** With an element in the deque [front] returns the first slot. *)
Lemma front_spec debug s l :
  Inv s l -> 0 < fElemSize s -> 0 < fCount s ->
  exists p c, contents_of (fElemSize s) (heap s) l = p :: c /\
              front debug s = Ok p /\ p <> NULL.
Proof.
  intros I Hes Hc.
  destruct (Inv_front_cases _ _ I Hes Hc) as (a & l2 & b & -> & Hb & Hcase).
  pose proof (Inv_front _ _ I) as Hf. rewrite head0_cons in Hf.
  assert (a <> NULL) as Ha by (apply (Inv_nonnull _ _ _ I); set_solver).
  rewrite (contents_of_head _ _ _ _ _ Hb).
  destruct Hcase as [(Hlive & n & Hn) | (Hd & He & a2 & l3 & b2 & n & -> & Hb2 & Hnx & Hl2 & Hn)].
  - destruct (slots_live_head _ _ _ Hes Hlive Hn) as [c Hs].
    exists (fBegin b), (c ++ contents_of (fElemSize s) (heap s) l2).
    split; [by rewrite Hs |]. split; [| done].
    unfold front. rewrite Hf. dec_false. do_load. dec_false. by do_assert.
  - assert (a2 <> NULL) as Ha2 by (apply (Inv_nonnull _ _ _ I); set_solver).
    destruct (slots_live_head _ _ _ Hes Hl2 Hn) as [c Hs].
    exists (fBegin b2), (c ++ contents_of (fElemSize s) (heap s) l3).
    split.
    { rewrite slots_dead by done. rewrite (contents_of_head _ _ _ _ _ Hb2), Hs. done. }
    split; [| done].
    unfold front. rewrite Hf. dec_false. do_load. dec_true. rewrite Hnx.
    dec_false. do_load. by do_assert.
Qed.

(** With an element in the deque [back] returns the last slot. *)
Lemma back_spec debug s l :
  Inv s l -> 0 < fElemSize s -> 0 < fCount s ->
  exists p c, contents_of (fElemSize s) (heap s) l = c ++ [p] /\
              back debug s = Ok p /\ p <> NULL.
Proof.
  intros I Hes Hc.
  destruct (Inv_back_cases _ _ I Hes Hc) as (a & l2 & b & -> & Hb & Hcase).
  pose proof (Inv_back _ _ I) as Hk. rewrite last0_snoc in Hk.
  assert (a <> NULL) as Ha by (apply (Inv_nonnull _ _ _ I); set_solver).
  rewrite (contents_of_last _ _ _ _ _ Hb).
  assert (Hnn : forall a' b' (n : nat), heap s !! a' = Some b' -> fBegin b' <> NULL ->
            fEnd b' = fBegin b' + Z.of_nat (S n) * fElemSize s ->
            fEnd b' <> NULL /\ fEnd b' - fElemSize s <> NULL).
  { intros a' b' n Hb' Hl' Hn'. pose proof (inv_blocks _ _ I _ _ Hb') as Hok.
    destruct Hok as (? & ? & ? & [[? ?] | (? & ? & _)]); [done |].
    pose proof sizeof_Block_pos. unfold start, NULL in *. nia. }
  destruct Hcase as [(Hlive & n & Hn) | (Hd & He & a1 & l3 & b1 & n & -> & Hb1 & Hpr & Hl1 & Hn)].
  - destruct (slots_live_last _ _ _ Hes Hlive Hn) as [c Hs].
    destruct (Hnn _ _ _ Hb Hlive Hn) as [? ?].
    exists (fEnd b - fElemSize s), (contents_of (fElemSize s) (heap s) l2 ++ c).
    split; [by rewrite Hs, app_assoc |]. split; [| done].
    unfold back. rewrite Hk. dec_false. do_load. dec_false. by do_assert.
  - assert (a1 <> NULL) as Ha1 by (apply (Inv_nonnull _ _ _ I); set_solver).
    destruct (slots_live_last _ _ _ Hes Hl1 Hn) as [c Hs].
    destruct (Hnn _ _ _ Hb1 Hl1 Hn) as [? ?].
    exists (fEnd b1 - fElemSize s), (contents_of (fElemSize s) (heap s) l3 ++ c).
    split.
    { rewrite slots_dead by done. rewrite (contents_of_last _ _ _ _ _ Hb1), Hs.
      by rewrite app_nil_r, app_assoc. }
    split; [| done].
    unfold back. rewrite Hk. dec_false. do_load. dec_true. rewrite Hpr.
    dec_false. do_load. by do_assert.
Qed.

Lemma contents_nil_dead s l a b :
  Inv s l -> 0 < fElemSize s -> fCount s = 0 -> heap s !! a = Some b ->
  fBegin b = NULL /\ fEnd b = NULL.
Proof.
  intros I Hes Hc Hb.
  pose proof (inv_count _ _ I Hes) as Hn. rewrite Hc in Hn.
  assert (Hnil : contents_of (fElemSize s) (heap s) l = []).
  { destruct (contents_of _ _ l); [done | simpl in Hn; lia]. }
  assert (Hin : a ∈ l) by (apply (chain_dom _ _ _ _ (inv_chain _ _ I)); eauto).
  destruct (list_elem_of_split _ _ Hin) as (l1 & l2 & ->).
  rewrite (contents_of_split _ _ _ _ _ _ Hb) in Hnil.
  apply app_eq_nil in Hnil as [_ Hnil]. apply app_eq_nil in Hnil as [Hnil _].
  apply (slots_nil_dead (fElemSize s) (brk s) a b); [by apply (inv_blocks _ _ I) | done | done].
Qed.

(** On an empty deque [front], with its assertion compiled out, returns
    NULL. *)
Lemma front_spec_empty s l :
  Inv s l -> 0 < fElemSize s -> fCount s = 0 -> front false s = Ok NULL.
Proof.
  intros I Hes Hc. pose proof (Inv_front _ _ I) as Hf.
  unfold front. destruct l as [|a l2].
  - rewrite Hf. by dec_true.
  - rewrite head0_cons in Hf.
    assert (a <> NULL) as Ha by (apply (Inv_nonnull _ _ _ I); set_solver).
    destruct (chain_links _ _ _ _ (inv_chain _ _ I) [] a l2 eq_refl)
      as (b & Hb & _ & Hnx).
    destruct (contents_nil_dead _ _ _ _ I Hes Hc Hb) as [Hd _].
    rewrite Hf. dec_false. do_load. dec_true. rewrite Hnx.
    destruct l2 as [|a2 l3]; [by dec_true |].
    rewrite head0_cons.
    assert (a2 <> NULL) as Ha2 by (apply (Inv_nonnull _ _ _ I); set_solver).
    destruct (Inv_lookup _ _ a2 I) as [b2 Hb2]; [set_solver |].
    destruct (contents_nil_dead _ _ _ _ I Hes Hc Hb2) as [Hd2 _].
    dec_false. do_load. rewrite SkASSERT_release. cbn [bind]. by rewrite Hd2.
Qed.

Lemma Inv_count_nonneg s l : Inv s l -> 0 < fElemSize s -> 0 <= fCount s.
Proof. intros I Hes. rewrite (inv_count _ _ I Hes). lia. Qed.

(** C8 (amended). For elements of at least one byte, on a deque within the
    machine's range with [fCount > 0], [pop_front] and [pop_back] return
    unless they would pass the caller's storage to [sk_free]: no null
    pointer is followed, every SkASSERT holds, and the state they lead to
    is within the range again.  The end Block exists; if it is marked empty
    its neighbour exists and is not; and the Block the element is taken
    from holds at least one element. *)
Theorem pops_are_safe (debug : bool) (s : State) :
  machine_reachable s -> 0 < fElemSize s -> 0 < fCount s ->
  (pop_front_ok s -> exists s', pop_front debug s = Ok s' /\ machine_reachable s') /\
  (pop_back_ok s -> exists s', pop_back debug s = Ok s' /\ machine_reachable s') /\
  (exists b, fFront s <> NULL /\ heap s !! fFront s = Some b /\
     (fBegin b <> NULL -> fBegin b + fElemSize s <= fEnd b) /\
     (fBegin b = NULL ->
      exists b2, fNext b <> NULL /\ heap s !! fNext b = Some b2 /\
                 fBegin b2 <> NULL /\ fBegin b2 + fElemSize s <= fEnd b2)) /\
  (exists b, fBack s <> NULL /\ heap s !! fBack s = Some b /\
     (fEnd b <> NULL -> fBegin b <= fEnd b - fElemSize s) /\
     (fEnd b = NULL ->
      exists b1, fPrev b <> NULL /\ heap s !! fPrev b = Some b1 /\
                 fEnd b1 <> NULL /\ fBegin b1 <= fEnd b1 - fElemSize s)).
Proof.
  intros Hm Hes Hc. pose proof (machine_reachable_reachable s Hm) as Hr.
  destruct (reachable_Inv s Hr) as [l I].
  split; [| split; [| split]].
  - intros Hguard.
    destruct (pop_front_spec debug s l I Hes Hc) as (_ & s' & _ & Hrun & _).
    exists s'. split; [done |]. by apply (pop_front_machine debug s s').
  - intros Hguard.
    destruct (pop_back_spec debug s l I Hes Hc) as (_ & s' & _ & Hrun & _).
    exists s'. split; [done |]. by apply (pop_back_machine debug s s').
  - destruct (Inv_front_cases _ _ I Hes Hc) as (a & l2 & b & -> & Hb & Hcase).
    pose proof (Inv_front _ _ I) as Hf. rewrite head0_cons in Hf. rewrite Hf.
    assert (a <> NULL) as Ha by (apply (Inv_nonnull _ _ _ I); set_solver).
    exists b. split; [done |]. split; [done |].
    destruct Hcase as [(Hlive & n & Hn) | (Hd & He & a2 & l3 & b2 & n & -> & Hb2 & Hnx & Hl2 & Hn)].
    + split; [intros _; nia | done].
    + split; [done | intros _]. exists b2. rewrite Hnx.
      assert (a2 <> NULL) by (apply (Inv_nonnull _ _ _ I); set_solver).
      split; [done |]. split; [done |]. split; [done | nia].
  - destruct (Inv_back_cases _ _ I Hes Hc) as (a & l2 & b & -> & Hb & Hcase).
    pose proof (Inv_back _ _ I) as Hk. rewrite last0_snoc in Hk. rewrite Hk.
    assert (a <> NULL) as Ha by (apply (Inv_nonnull _ _ _ I); set_solver).
    exists b. split; [done |]. split; [done |].
    assert (Hlv : forall a' b', heap s !! a' = Some b' -> fBegin b' <> NULL ->
              fEnd b' <> NULL).
    { intros a' b' Hb' Hl'. pose proof (inv_blocks _ _ I _ _ Hb') as Hok.
      destruct (block_cases _ _ _ _ Hok Hes) as [(? & _) | (_ & ? & _)]; done. }
    destruct Hcase as [(Hlive & n & Hn) | (Hd & He & a1 & l3 & b1 & n & -> & Hb1 & Hpr & Hl1 & Hn)].
    + split; [intros _; nia |]. intros He. by destruct (Hlv _ _ Hb Hlive).
    + split; [done | intros _]. exists b1. rewrite Hpr.
      assert (a1 <> NULL) by (apply (Inv_nonnull _ _ _ I); set_solver).
      split; [done |]. split; [done |]. split; [by apply (Hlv a1) | nia].
Qed.

(** *** Runs *)

Lemma run_reachable os s s' :
  reachable s -> run false os s = Ok s' -> reachable s'.
Proof.
  revert s. induction os as [|o os IH]; intros s Hr Hrun; cbn [run] in Hrun.
  - by injection Hrun as <-.
  - destruct (valid_op o s) eqn:Hv; [| discriminate].
    apply bind_Ok_inv in Hrun as (s1 & Hop & Hrun).
    apply (IH s1); [| done]. apply (reach_step o s s1); [done | | done].
    intros Hp. unfold valid_op in Hv. rewrite Hp in Hv. cbn in Hv.
    by apply bool_decide_eq_true_1 in Hv.
Qed.

(** C7. With elements of 4 bytes and Blocks of 2 elements (the allocator
    at address 1000), five [push_back] with the values 1..5 written give a
    deque with [front()] at the value 1, [back()] at the value 5, a count of
    5 and 3 Blocks; five [pop_front] then give a count of 0 with [front()]
    and [back()] both null.  This holds with and without the assertions. *)
Theorem five_push_back_scenario (debug : bool) :
  exists s0 s5 m5 pf pb s10,
    SkDeque_new debug 4 2 1000 = Ok s0 /\
    push_back_all (int32_bytes <$> [1; 2; 3; 4; 5]) s0 blank = Ok (s5, m5) /\
    front debug s5 = Ok pf /\ pf <> NULL /\ read pf 4 m5 = int32_bytes 1 /\
    back debug s5 = Ok pb /\ pb <> NULL /\ read pb 4 m5 = int32_bytes 5 /\
    fCount s5 = 5 /\
    numBlocksAllocated s5 = Ok 3 /\
    run debug [PopFront; PopFront; PopFront; PopFront; PopFront] s5 = Ok s10 /\
    fCount s10 = 0 /\
    front debug s10 = Ok NULL /\
    back debug s10 = Ok NULL.
Proof.
  destruct debug.
  - do 6 eexists. split; [reflexivity |]. split; [vm_compute; reflexivity |].
    split; [vm_compute; reflexivity |]. split; [done |].
    split; [vm_compute; reflexivity |].
    split; [vm_compute; reflexivity |]. split; [done |].
    split; [vm_compute; reflexivity |].
    split; [vm_compute; reflexivity |].
    split; [vm_compute; reflexivity |].
    split; [vm_compute; reflexivity |].
    split; [vm_compute; reflexivity |].
    split; vm_compute; reflexivity.
  - do 6 eexists. split; [reflexivity |]. split; [vm_compute; reflexivity |].
    split; [vm_compute; reflexivity |]. split; [done |].
    split; [vm_compute; reflexivity |].
    split; [vm_compute; reflexivity |]. split; [done |].
    split; [vm_compute; reflexivity |].
    split; [vm_compute; reflexivity |].
    split; [vm_compute; reflexivity |].
    split; [vm_compute; reflexivity |].
    split; [vm_compute; reflexivity |].
    split; vm_compute; reflexivity.
Qed.

(** C1. A deque of 8-byte elements over a caller's storage of
    [sizeof(Block)] + 3 * 8 bytes at address 1000 (the allocator at 2000):
    after four [push_back] the chain has two Blocks, the caller's one
    first; the four [pop_front] that empty the deque pass the caller's
    Block to [sk_free] and leave the allocated Block as the only one.  The
    destructor, for its part, skips [fInitialStorage]. *)
Theorem inline_block_freed_by_pop_front (debug : bool) :
  exists s0 s4 s8,
    SkDeque_new_storage debug 8 1000 (sizeof_Block + 3 * 8) 1 2000 = Ok s0 /\
    fInitialStorage s0 = 1000 /\ blocks s0 = [1000] /\
    run debug [PushBack; PushBack; PushBack; PushBack] s0 = Ok s4 /\
    blocks s4 = [1000; 2000] /\
    run debug [PopFront; PopFront; PopFront; PopFront] s4 = Ok s8 /\
    fCount s8 = 0 /\
    freed s8 = [1000] /\
    heap s8 !! 1000 = None /\
    blocks s8 = [2000] /\
    numBlocksAllocated s8 = Ok 1.
Proof.
  destruct debug.
  - do 3 eexists. split; [vm_compute; reflexivity |].
    repeat (split; [vm_compute; reflexivity |]). vm_compute; reflexivity.
  - do 3 eexists. split; [vm_compute; reflexivity |].
    repeat (split; [vm_compute; reflexivity |]). vm_compute; reflexivity.
Qed.

(** C4. With elements of 4 bytes and Blocks of one element: after two
    [push_back], a [pop_front] and a [pop_back], the deque is empty and
    both of its Blocks are marked empty.  [back()] then falls through to the
    front Block, whose [fEnd] is null too: its SkASSERT fails, and without
    assertions it returns [NULL - fElemSize], which is not null.  [front()]
    fails its SkASSERT in the same way and returns null without it. *)
Theorem back_on_two_empty_blocks :
  exists s0 s,
    SkDeque_new true 4 1 1000 = Ok s0 /\
    run true [PushBack; PushBack; PopFront; PopBack] s0 = Ok s /\
    run false [PushBack; PushBack; PopFront; PopBack] s0 = Ok s /\
    fCount s = 0 /\
    back true s = Abort /\
    back false s = Ok (NULL - 4) /\ NULL - 4 <> NULL /\
    front true s = Abort /\
    front false s = Ok NULL.
Proof.
  do 2 eexists. split; [vm_compute; reflexivity |].
  repeat (split; [vm_compute; reflexivity |]).
  split; [by vm_compute |]. split; vm_compute; reflexivity.
Qed.

(** C8, as stated in the specification, fails for elements of size 0: two
    [push_back] and a [pop_front] leave a count of 1 over a single Block
    marked empty, and the next [pop_front] follows its null [fNext]. *)
Lemma pop_front_faults_for_size_0 :
  exists s0 s,
    SkDeque_new true 0 1 1000 = Ok s0 /\
    run true [PushBack; PushBack; PopFront] s0 = Ok s /\
    reachable s /\ 0 < fCount s /\
    pop_front true s = Fault /\ pop_front false s = Fault /\
    pop_back true s = Fault /\ pop_back false s = Fault.
Proof.
  do 2 eexists. split; [vm_compute; reflexivity |].
  split; [vm_compute; reflexivity |].
  split.
  { eapply (run_reachable [PushBack; PushBack; PopFront]).
    - apply (reach_new 0 1 1000); [lia | lia | reflexivity].
    - vm_compute; reflexivity. }
  split; [vm_compute; reflexivity |].
  repeat (split; [vm_compute; reflexivity |]). vm_compute; reflexivity.
Qed.

(** C2, as stated in the specification, fails for elements of size 0: of
    two elements pushed only the first is seen, [front()] being null
    before the second [pop_front] though the count is 1. *)
Lemma fifo_fails_for_size_0 :
  exists s0 s2 m2 s3,
    SkDeque_new true 0 1 1000 = Ok s0 /\
    push_back_all [[]; []] s0 blank = Ok (s2, m2) /\
    fCount s2 = 2 /\
    pop_front false s2 = Ok s3 /\
    fCount s3 = 1 /\
    front false s3 = Ok NULL /\
    pop_front_all false 2 s2 m2 = Fault /\
    pop_front_all true 2 s2 m2 = Fault.
Proof.
  do 4 eexists. split; [vm_compute; reflexivity |].
  repeat (split; [vm_compute; reflexivity |]). vm_compute; reflexivity.
Qed.

(** C3, as stated in the specification, fails for elements of size 0:
    after two [push_back] the count is 2, but an iterator from the front
    yields one slot and is exhausted, and an iterator from the back yields
    the same slot for ever. *)
Lemma iteration_fails_for_size_0 :
  exists s0 s itF itB rF rB,
    SkDeque_new true 0 1 1000 = Ok s0 /\
    run true [PushBack; PushBack] s0 = Ok s /\
    reachable s /\ fCount s = 2 /\
    Iter.reset s Iter.kFront_IterStart = Ok itF /\
    Iter.nexts true 3 s itF = Ok (rF, Iter.Iter_new) /\
    rF = [1040; NULL; NULL] /\
    Iter.reset s Iter.kBack_IterStart = Ok itB /\
    Iter.prevs true 5 s itB = Ok (rB, itB) /\
    rB = [1040; 1040; 1040; 1040; 1040].
Proof.
  do 6 eexists. split; [vm_compute; reflexivity |].
  split; [vm_compute; reflexivity |].
  split.
  { eapply (run_reachable [PushBack; PushBack]).
    - apply (reach_new 0 1 1000); [lia | lia | reflexivity].
    - vm_compute; reflexivity. }
  repeat (split; [vm_compute; reflexivity |]). vm_compute; reflexivity.
Qed.

(** *** The loops that skip the Blocks marked empty *)

Lemma reset_front_loop_chain d f k l l1 l2 (fuel : nat) :
  chain (heap d) f k l -> l = l1 ++ l2 -> (length l2 < fuel)%nat ->
  Iter.reset_front_loop fuel d (head0 l2) = Ok (first_live fBegin (heap d) l2).
Proof.
  intros C. revert l1 fuel. induction l2 as [|a l2 IH]; intros l1 fuel Hl Hf.
  - destruct fuel; [simpl in Hf; lia | reflexivity].
  - destruct fuel as [|fuel]; simpl in Hf; [lia |].
    destruct (chain_links _ _ _ _ C _ _ _ Hl) as (b & Hb & _ & Hnx).
    assert (a <> NULL).
    { intros ->. apply (chain_nonnull _ _ _ _ C). rewrite Hl. set_solver. }
    rewrite head0_cons. cbn [Iter.reset_front_loop first_live].
    rewrite decide_True by done. rewrite (load_Some d a b) by done. cbn [bind].
    rewrite Hb. destruct (decide (fBegin b = NULL)) as [Hd | Hl'].
    + rewrite decide_True by done. rewrite Hnx.
      apply (IH (l1 ++ [a])); [by rewrite <- app_assoc | lia].
    + by rewrite decide_False.
Qed.

Lemma next_loop_chain d f k l l1 a l2 (fuel : nat) :
  chain (heap d) f k l -> l = l1 ++ a :: l2 -> (length l2 < fuel)%nat ->
  Iter.next_loop fuel d a = Ok (first_live fBegin (heap d) l2).
Proof.
  intros C. revert l1 a fuel. induction l2 as [|a2 l2 IH]; intros l1 a fuel Hl Hf.
  - destruct fuel as [|fuel]; [simpl in Hf; lia |].
    destruct (chain_links _ _ _ _ C _ _ _ Hl) as (b & Hb & _ & Hnx).
    assert (a <> NULL).
    { intros ->. apply (chain_nonnull _ _ _ _ C). rewrite Hl. set_solver. }
    cbn [Iter.next_loop first_live]. rewrite (load_Some d a b) by done. cbn [bind].
    rewrite Hnx. by rewrite decide_False by (intros ?; done).
  - destruct fuel as [|fuel]; simpl in Hf; [lia |].
    destruct (chain_links _ _ _ _ C _ _ _ Hl) as (b & Hb & _ & Hnx).
    assert (Hl2 : l = (l1 ++ [a]) ++ a2 :: l2) by by rewrite <- app_assoc.
    destruct (chain_links _ _ _ _ C _ _ _ Hl2) as (b2 & Hb2 & _ & _).
    assert (a <> NULL).
    { intros ->. apply (chain_nonnull _ _ _ _ C). rewrite Hl. set_solver. }
    assert (a2 <> NULL).
    { intros ->. apply (chain_nonnull _ _ _ _ C). rewrite Hl. set_solver. }
    cbn [Iter.next_loop first_live]. rewrite (load_Some d a b) by done. cbn [bind].
    rewrite Hnx, head0_cons. rewrite decide_True by done.
    rewrite (load_Some d a2 b2) by done. cbn [bind]. rewrite Hb2.
    destruct (decide (fBegin b2 = NULL)) as [Hd | Hl'].
    + apply (IH (l1 ++ [a])); [done | lia].
    + done.
Qed.

Lemma reset_back_loop_chain d f k l l1 l2 (fuel : nat) :
  chain (heap d) f k l -> l = l1 ++ l2 -> (length l1 < fuel)%nat ->
  Iter.reset_back_loop fuel d (last0 l1) = Ok (first_live fEnd (heap d) (rev l1)).
Proof.
  intros C. revert l2 fuel. induction l1 as [|a l1 IH] using rev_ind; intros l2 fuel Hl Hf.
  - destruct fuel; [simpl in Hf; lia | reflexivity].
  - rewrite length_app in Hf. simpl in Hf.
    destruct fuel as [|fuel]; [lia |].
    rewrite <- app_assoc in Hl. simpl in Hl.
    destruct (chain_links _ _ _ _ C _ _ _ Hl) as (b & Hb & Hpr & _).
    assert (a <> NULL).
    { intros ->. apply (chain_nonnull _ _ _ _ C). rewrite Hl. set_solver. }
    rewrite last0_snoc, rev_unit. cbn [Iter.reset_back_loop first_live].
    rewrite decide_True by done. rewrite (load_Some d a b) by done. cbn [bind].
    rewrite Hb. destruct (decide (fEnd b = NULL)) as [Hd | Hl'].
    + rewrite decide_True by done. rewrite Hpr.
      apply (IH (a :: l2)); [done | lia].
    + by rewrite decide_False.
Qed.

Lemma prev_loop_chain d f k l l1 a l2 (fuel : nat) :
  chain (heap d) f k l -> l = l1 ++ a :: l2 -> (length l1 < fuel)%nat ->
  Iter.prev_loop fuel d a = Ok (first_live fEnd (heap d) (rev l1)).
Proof.
  intros C. revert l2 a fuel.
  induction l1 as [|a1 l1 IH] using rev_ind; intros l2 a fuel Hl Hf.
  - destruct fuel as [|fuel]; [simpl in Hf; lia |].
    destruct (chain_links _ _ _ _ C _ _ _ Hl) as (b & Hb & Hpr & _).
    assert (a <> NULL).
    { intros ->. apply (chain_nonnull _ _ _ _ C). rewrite Hl. set_solver. }
    cbn [Iter.prev_loop first_live rev]. rewrite (load_Some d a b) by done. cbn [bind].
    rewrite Hpr. by rewrite decide_False by (intros ?; done).
  - rewrite length_app in Hf. simpl in Hf.
    destruct fuel as [|fuel]; [lia |].
    destruct (chain_links _ _ _ _ C _ _ _ Hl) as (b & Hb & Hpr & _).
    assert (Hl1 : l = l1 ++ a1 :: a :: l2) by (by rewrite Hl, <- app_assoc).
    destruct (chain_links _ _ _ _ C _ _ _ Hl1) as (b1 & Hb1 & _ & _).
    assert (a <> NULL).
    { intros ->. apply (chain_nonnull _ _ _ _ C). rewrite Hl. set_solver. }
    assert (a1 <> NULL).
    { intros ->. apply (chain_nonnull _ _ _ _ C). rewrite Hl. set_solver. }
    rewrite rev_unit.
    cbn [Iter.prev_loop first_live]. rewrite (load_Some d a b) by done. cbn [bind].
    rewrite Hpr, last0_snoc. rewrite decide_True by done.
    rewrite (load_Some d a1 b1) by done. cbn [bind]. rewrite Hb1.
    destruct (decide (fEnd b1 = NULL)) as [Hd | Hl'].
    + apply (IH (a :: l2)); [done | lia].
    + done.
Qed.

(** *** The contents from the first live Block on *)

Lemma first_live_contents s l l0 l2 :
  Inv s l -> 0 <= fElemSize s -> l = l0 ++ l2 ->
  (first_live fBegin (heap s) l2 = NULL /\
   contents_of (fElemSize s) (heap s) l2 = []) \/
  (exists d a b l3,
     l2 = d ++ a :: l3 /\ first_live fBegin (heap s) l2 = a /\
     heap s !! a = Some b /\ fBegin b <> NULL /\
     contents_of (fElemSize s) (heap s) l2 =
       slots (fElemSize s) b ++ contents_of (fElemSize s) (heap s) l3).
Proof.
  intros I Hes. revert l0. induction l2 as [|a l2 IH]; intros l0 Hl.
  - by left.
  - destruct (Inv_lookup s l a I) as [b Hb]; [rewrite Hl; set_solver |].
    cbn [first_live]. rewrite Hb, (contents_of_head _ _ _ _ _ Hb).
    destruct (decide (fBegin b = NULL)) as [Hd | Hlive].
    + rewrite slots_dead by done. rewrite app_nil_l.
      destruct (IH (l0 ++ [a])) as [[Hf Hc] | (d & a' & b' & l3 & -> & Hf & Hb' & Hl' & Hc)].
      * by rewrite <- app_assoc.
      * by left.
      * right. exists (a :: d), a', b', l3. done.
    + right. exists [], a, b, l2. done.
Qed.

Lemma last_live_contents s l l1 l0 :
  Inv s l -> 0 <= fElemSize s -> l = l1 ++ l0 ->
  (first_live fEnd (heap s) (rev l1) = NULL /\
   contents_of (fElemSize s) (heap s) l1 = []) \/
  (exists d a b l3,
     l1 = l3 ++ a :: d /\ first_live fEnd (heap s) (rev l1) = a /\
     heap s !! a = Some b /\ fBegin b <> NULL /\ fEnd b <> NULL /\
     contents_of (fElemSize s) (heap s) l1 =
       contents_of (fElemSize s) (heap s) l3 ++ slots (fElemSize s) b).
Proof.
  intros I Hes. revert l0. induction l1 as [|a l1 IH] using rev_ind; intros l0 Hl.
  - by left.
  - destruct (Inv_lookup s l a I) as [b Hb]; [rewrite Hl; set_solver |].
    rewrite rev_unit. cbn [first_live]. rewrite Hb, (contents_of_last _ _ _ _ _ Hb).
    pose proof (block_ok_occupancy _ _ _ _ Hes (inv_blocks _ _ I a b Hb)) as [Hiff _].
    destruct (decide (fEnd b = NULL)) as [Hd | Hlive].
    + rewrite slots_dead by (by apply Hiff). rewrite app_nil_r.
      destruct (IH (a :: l0)) as [[Hf Hc] | (d & a' & b' & l3 & -> & Hf & Hb' & Hl' & He' & Hc)].
      * by rewrite <- app_assoc in Hl.
      * by left.
      * right. exists (d ++ [a]), a', b', l3. rewrite <- app_assoc. done.
    + right. exists [], a, b, l1.
      assert (fBegin b <> NULL) by (intros Hb0; by apply Hlive, Hiff).
      done.
Qed.

(** *** Exhausted iterators *)

Lemma next_exhausted debug d it :
  Iter.fPos it = NULL -> Iter.next debug d it = Ok (NULL, it).
Proof. intros H. unfold Iter.next. rewrite H. by rewrite decide_False by (intros ?; done). Qed.

Lemma prev_exhausted debug d it :
  Iter.fPos it = NULL -> Iter.prev debug d it = Ok (NULL, it).
Proof. intros H. unfold Iter.prev. rewrite H. by rewrite decide_False by (intros ?; done). Qed.

Lemma nexts_exhausted debug d it k :
  Iter.fPos it = NULL -> Iter.nexts debug k d it = Ok (replicate k NULL, it).
Proof.
  intros H. induction k as [|k IH]; [done |].
  cbn [Iter.nexts]. rewrite next_exhausted by done. cbn [bind fst snd].
  rewrite IH. reflexivity.
Qed.

Lemma prevs_exhausted debug d it k :
  Iter.fPos it = NULL -> Iter.prevs debug k d it = Ok (replicate k NULL, it).
Proof.
  intros H. induction k as [|k IH]; [done |].
  cbn [Iter.prevs]. rewrite prev_exhausted by done. cbn [bind fst snd].
  rewrite IH. reflexivity.
Qed.

(** *** One step *)

Lemma slot_nonnull s l a b (j : nat) :
  Inv s l -> heap s !! a = Some b -> fBegin b <> NULL ->
  fBegin b + Z.of_nat j * fElemSize s <> NULL.
Proof.
  intros I Hb Hl. pose proof (inv_es _ _ I).
  pose proof (inv_blocks _ _ I _ _ Hb) as (? & ? & ? & [[? ?] | (? & ? & _)]); [done |].
  pose proof sizeof_Block_pos. unfold start, NULL in *. nia.
Qed.

Lemma next_fwd debug d l it x R :
  Inv d l -> 0 < fElemSize d -> it_fwd d l it (x :: R) ->
  exists it', Iter.next debug d it = Ok (x, it') /\ it_fwd d l it' R /\
              x = Iter.fPos it /\ x <> NULL.
Proof.
  intros I Hes [Hsz [[_ ?] | (l1 & a & l2 & b & n & j & Hl & Hb & Hlive & Hn & Hj & Hcb & Hpos & HR)]];
    [done |].
  pose proof (inv_chain _ _ I) as C.
  assert (a <> NULL) as Ha by (apply (Inv_nonnull _ _ _ I); rewrite Hl; set_solver).
  assert (Hpn : Iter.fPos it <> NULL) by (rewrite Hpos; by apply (slot_nonnull d l a b)).
  destruct (n - j)%nat as [|m] eqn:Hm; [lia |].
  rewrite slots_from_head in HR. cbn [app] in HR. injection HR as -> ->.
  unfold Iter.next. rewrite decide_True by done.
  rewrite Hcb, (load_Some d a b) by done. cbn [bind].
  rewrite SkASSERT_holds by (rewrite Hsz, Hpos, Hn; nia). cbn [bind].
  destruct (decide (Iter.fPos it + Iter.fElemSize it = fEnd b)) as [Hend | Hmore].
  - assert (m = 0%nat) as -> by (rewrite Hsz, Hpos, Hn in Hend; nia).
    rewrite (next_loop_chain d _ _ l l1 a l2 _ C Hl)
      by (rewrite (chain_size _ _ _ _ C), Hl, length_app; simpl; lia).
    cbn [bind slots_from app].
    destruct (first_live_contents d l (l1 ++ [a]) l2 I ltac:(lia)
                ltac:(by rewrite <- app_assoc))
      as [[Hf Hc] | (dd & a' & b' & l3 & -> & Hf & Hb' & Hl' & Hc)].
    + rewrite Hf. rewrite decide_False by (intros ?; done). cbn [bind].
      eexists. split; [reflexivity |]. split; [| done].
      split; [done |]. left. done.
    + rewrite Hf.
      assert (a' <> NULL) as Ha'.
      { apply (Inv_nonnull _ _ _ I). rewrite Hl. set_solver. }
      rewrite decide_True by done. rewrite (load_Some d a' b') by done. cbn [bind].
      eexists. split; [reflexivity |]. split; [| done].
      split; [done |]. right.
      destruct (block_cases _ _ _ _ (inv_blocks _ _ I _ _ Hb') Hes)
        as [(? & _) | (_ & _ & n' & Hn' & Hs')]; [done |].
      exists (l1 ++ a :: dd), a', l3, b', (S n'), 0%nat. cbn [Iter.fCurBlock Iter.fPos].
      split; [by rewrite Hl, <- app_assoc |]. split; [done |]. split; [done |].
      split; [done |]. split; [lia |]. split; [done |]. split; [lia |].
      rewrite Hc, Hs'. done.
  - eexists. split; [reflexivity |]. split; [| done].
    split; [done |]. right.
    exists l1, a, l2, b, n, (S j). cbn [Iter.fCurBlock Iter.fPos].
    assert (m <> 0%nat).
    { intros ->. apply Hmore. rewrite Hsz, Hpos, Hn. nia. }
    split; [done |]. split; [done |]. split; [done |]. split; [done |].
    split; [lia |]. split; [done |]. split; [rewrite Hsz, Hpos; lia |].
    rewrite Hsz. by replace (n - S j)%nat with m by lia.
Qed.

Lemma prev_bwd debug d l it x R :
  Inv d l -> 0 < fElemSize d -> it_bwd d l it (x :: R) ->
  exists it', Iter.prev debug d it = Ok (x, it') /\ it_bwd d l it' R /\
              x = Iter.fPos it /\ x <> NULL.
Proof.
  intros I Hes [Hsz [[_ ?] | (l1 & a & l2 & b & n & j & Hl & Hb & Hlive & Hn & Hj & Hcb & Hpos & HR)]];
    [done |].
  pose proof (inv_chain _ _ I) as C.
  assert (a <> NULL) as Ha by (apply (Inv_nonnull _ _ _ I); rewrite Hl; set_solver).
  assert (Hpn : Iter.fPos it <> NULL) by (rewrite Hpos; by apply (slot_nonnull d l a b)).
  rewrite slots_from_snoc, app_assoc, rev_unit in HR. rewrite <- Hpos in HR.
  injection HR as -> ->.
  unfold Iter.prev. rewrite decide_True by done.
  rewrite Hcb, (load_Some d a b) by done. cbn [bind].
  rewrite SkASSERT_holds by (rewrite Hsz, Hpos; nia). cbn [bind].
  destruct (decide (Iter.fPos it - Iter.fElemSize it < fBegin b)) as [Hend | Hmore].
  - assert (j = 0%nat) as -> by (rewrite Hsz, Hpos in Hend; nia).
    rewrite (prev_loop_chain d _ _ l l1 a l2 _ C Hl)
      by (rewrite (chain_size _ _ _ _ C), Hl, length_app; simpl; lia).
    cbn [bind slots_from]. rewrite app_nil_r.
    destruct (last_live_contents d l l1 (a :: l2) I ltac:(lia) Hl)
      as [[Hf Hc] | (dd & a' & b' & l3 & -> & Hf & Hb' & Hl' & He' & Hc)].
    + rewrite Hf. rewrite decide_False by (intros ?; done). cbn [bind].
      eexists. split; [reflexivity |]. split; [| done].
      split; [done |]. left. by rewrite Hc.
    + rewrite Hf.
      assert (a' <> NULL) as Ha'.
      { apply (Inv_nonnull _ _ _ I). rewrite Hl. set_solver. }
      rewrite decide_True by done. rewrite (load_Some d a' b') by done. cbn [bind].
      eexists. split; [reflexivity |]. split; [| done].
      split; [done |]. right.
      destruct (block_cases _ _ _ _ (inv_blocks _ _ I _ _ Hb') Hes)
        as [(? & _) | (_ & _ & n' & Hn' & Hs')]; [done |].
      exists l3, a', (dd ++ a :: l2), b', (S n'), n'. cbn [Iter.fCurBlock Iter.fPos].
      split; [by rewrite Hl, <- app_assoc |]. split; [done |]. split; [done |].
      split; [done |]. split; [lia |]. split; [done |].
      split; [rewrite Hsz, Hn'; lia |].
      rewrite Hc, Hs'. done.
  - destruct j as [|j]; [exfalso; apply Hmore; rewrite Hsz, Hpos; lia |].
    eexists. split; [reflexivity |]. split; [| done].
    split; [done |]. right.
    exists l1, a, l2, b, n, j. cbn [Iter.fCurBlock Iter.fPos].
    split; [done |]. split; [done |]. split; [done |]. split; [done |].
    split; [lia |]. split; [done |]. split; [rewrite Hsz, Hpos; lia |]. done.
Qed.

(** *** Whole traversals *)

Lemma it_fwd_nil d l it : it_fwd d l it [] -> Iter.fPos it = NULL.
Proof.
  intros [_ [[? _] | (l1 & a & l2 & b & n & j & _ & _ & _ & _ & Hj & _ & _ & HR)]]; [done |].
  destruct (n - j)%nat eqn:?; [lia | done].
Qed.

Lemma it_bwd_nil d l it : it_bwd d l it [] -> Iter.fPos it = NULL.
Proof.
  intros [_ [[? _] | (l1 & a & l2 & b & n & j & _ & _ & _ & _ & Hj & _ & _ & HR)]]; [done |].
  rewrite slots_from_snoc, app_assoc, rev_unit in HR. done.
Qed.

Lemma nexts_fwd debug d l it R k :
  Inv d l -> 0 < fElemSize d -> it_fwd d l it R ->
  exists it', Iter.nexts debug (length R + k) d it = Ok (R ++ replicate k NULL, it') /\
              Iter.fPos it' = NULL /\ Forall (fun x => x <> NULL) R.
Proof.
  intros I Hes. revert it. induction R as [|x R IH]; intros it Hit.
  - exists it. rewrite nexts_exhausted by (by apply (it_fwd_nil d l)).
    split; [done |]. split; [by apply (it_fwd_nil d l) | done].
  - destruct (next_fwd debug d l it x R I Hes Hit) as (it1 & Hnext & Hit1 & _ & Hx).
    destruct (IH it1 Hit1) as (it' & Hrest & Hnull & Hall).
    exists it'. cbn [length Nat.add Iter.nexts]. rewrite Hnext. cbn [bind fst snd].
    rewrite Hrest. cbn [bind fst snd]. split; [done |]. split; [done |].
    by constructor.
Qed.

Lemma prevs_bwd debug d l it R k :
  Inv d l -> 0 < fElemSize d -> it_bwd d l it R ->
  exists it', Iter.prevs debug (length R + k) d it = Ok (R ++ replicate k NULL, it') /\
              Iter.fPos it' = NULL.
Proof.
  intros I Hes. revert it. induction R as [|x R IH]; intros it Hit.
  - exists it. rewrite prevs_exhausted by (by apply (it_bwd_nil d l)).
    split; [done |]. by apply (it_bwd_nil d l).
  - destruct (prev_bwd debug d l it x R I Hes Hit) as (it1 & Hprev & Hit1 & _ & Hx).
    destruct (IH it1 Hit1) as (it' & Hrest & Hnull).
    exists it'. cbn [length Nat.add Iter.prevs]. rewrite Hprev. cbn [bind fst snd].
    rewrite Hrest. cbn [bind fst snd]. done.
Qed.

Lemma reset_front_fwd d l :
  Inv d l -> 0 < fElemSize d ->
  exists it, Iter.reset d Iter.kFront_IterStart = Ok it /\
             it_fwd d l it (contents_of (fElemSize d) (heap d) l).
Proof.
  intros I Hes. pose proof (inv_chain _ _ I) as C.
  unfold Iter.reset. rewrite (chain_front _ _ _ _ C).
  rewrite (reset_front_loop_chain d _ _ l [] l _ C eq_refl)
    by (rewrite (chain_size _ _ _ _ C); lia).
  cbn [bind].
  destruct (first_live_contents d l [] l I ltac:(lia) eq_refl)
    as [[Hf Hc] | (dd & a & b & l3 & Hl & Hf & Hb & Hlive & Hc)].
  - rewrite Hf. rewrite decide_False by (intros ?; done). cbn [bind].
    eexists. split; [reflexivity |]. split; [done |]. left. done.
  - rewrite Hf.
    assert (a <> NULL) as Ha by (apply (Inv_nonnull _ _ _ I); rewrite Hl; set_solver).
    rewrite decide_True by done. rewrite (load_Some d a b) by done. cbn [bind].
    eexists. split; [reflexivity |]. split; [done |]. right.
    destruct (block_cases _ _ _ _ (inv_blocks _ _ I _ _ Hb) Hes)
      as [(? & _) | (_ & _ & n & Hn & Hs)]; [done |].
    exists dd, a, l3, b, (S n), 0%nat. cbn [Iter.fCurBlock Iter.fPos].
    split; [done |]. split; [done |]. split; [done |]. split; [done |].
    split; [lia |]. split; [done |]. split; [lia |].
    rewrite Hc, Hs. done.
Qed.

Lemma reset_back_bwd d l :
  Inv d l -> 0 < fElemSize d ->
  exists it, Iter.reset d Iter.kBack_IterStart = Ok it /\
             it_bwd d l it (rev (contents_of (fElemSize d) (heap d) l)).
Proof.
  intros I Hes. pose proof (inv_chain _ _ I) as C.
  unfold Iter.reset. rewrite (chain_back _ _ _ _ C).
  rewrite (reset_back_loop_chain d _ _ l l [] _ C ltac:(by rewrite app_nil_r))
    by (rewrite (chain_size _ _ _ _ C); lia).
  cbn [bind].
  destruct (last_live_contents d l l [] I ltac:(lia) ltac:(by rewrite app_nil_r))
    as [[Hf Hc] | (dd & a & b & l3 & Hl & Hf & Hb & Hlive & He & Hc)].
  - rewrite Hf. rewrite decide_False by (intros ?; done). cbn [bind].
    eexists. split; [reflexivity |]. split; [done |]. left. by rewrite Hc.
  - rewrite Hf.
    assert (a <> NULL) as Ha by (apply (Inv_nonnull _ _ _ I); rewrite Hl; set_solver).
    rewrite decide_True by done. rewrite (load_Some d a b) by done. cbn [bind].
    eexists. split; [reflexivity |]. split; [done |]. right.
    destruct (block_cases _ _ _ _ (inv_blocks _ _ I _ _ Hb) Hes)
      as [(? & _) | (_ & _ & n & Hn & Hs)]; [done |].
    exists l3, a, dd, b, (S n), n. cbn [Iter.fCurBlock Iter.fPos].
    split; [done |]. split; [done |]. split; [done |]. split; [done |].
    split; [lia |]. split; [done |]. split; [rewrite Hn; lia |].
    rewrite Hc, Hs. done.
Qed.

Lemma next_returns_current debug d it r it' :
  Iter.next debug d it = Ok (r, it') -> r = Iter.fPos it.
Proof.
  unfold Iter.next. case_decide; [| by intros [= <- _]].
  intros Hrun. apply bind_Ok_inv in Hrun as (b & _ & Hrun).
  apply bind_Ok_inv in Hrun as (_ & _ & Hrun).
  case_decide.
  - apply bind_Ok_inv in Hrun as (cb & _ & Hrun).
    apply bind_Ok_inv in Hrun as (nx & _ & Hrun).
    by injection Hrun as <- _.
  - by injection Hrun as <- _.
Qed.

Lemma prev_returns_current debug d it r it' :
  Iter.prev debug d it = Ok (r, it') -> r = Iter.fPos it.
Proof.
  unfold Iter.prev. case_decide; [| by intros [= <- _]].
  intros Hrun. apply bind_Ok_inv in Hrun as (b & _ & Hrun).
  apply bind_Ok_inv in Hrun as (_ & _ & Hrun).
  case_decide.
  - apply bind_Ok_inv in Hrun as (cb & _ & Hrun).
    apply bind_Ok_inv in Hrun as (nx & _ & Hrun).
    by injection Hrun as <- _.
  - by injection Hrun as <- _.
Qed.

(** C3 (amended). For elements of at least one byte, in every state of a
    deque within the machine's range: the slots of its elements, front to
    back, are as many as [fCount] and none is null; an iterator reset at
    the front yields exactly these slots in this order through [next], then
    null; an iterator reset at the back yields them in the reverse order
    through [prev], then null; and a call of [next] or [prev] returns the
    position the iterator had before the call.  Blocks marked empty
    contribute no slot and are passed over. *)
Theorem iteration_order (debug : bool) (s : State) :
  machine_reachable s -> 0 < fElemSize s ->
  Z.of_nat (length (contents s)) = fCount s /\
  Forall (fun p => p <> NULL) (contents s) /\
  (exists itF itF',
     Iter.reset s Iter.kFront_IterStart = Ok itF /\
     Iter.nexts debug (S (length (contents s))) s itF = Ok (contents s ++ [NULL], itF')) /\
  (exists itB itB',
     Iter.reset s Iter.kBack_IterStart = Ok itB /\
     Iter.prevs debug (S (length (contents s))) s itB
       = Ok (rev (contents s) ++ [NULL], itB')) /\
  (forall it r it', Iter.next debug s it = Ok (r, it') -> r = Iter.fPos it) /\
  (forall it r it', Iter.prev debug s it = Ok (r, it') -> r = Iter.fPos it).
Proof.
  intros Hm Hes. destruct (reachable_Inv s (machine_reachable_reachable s Hm)) as [l I].
  rewrite (contents_Inv s l I).
  set (c := contents_of (fElemSize s) (heap s) l).
  destruct (reset_front_fwd s l I Hes) as (itF & HrF & HitF).
  destruct (nexts_fwd debug s l itF c 1 I Hes HitF) as (itF' & HnF & _ & Hall).
  destruct (reset_back_bwd s l I Hes) as (itB & HrB & HitB).
  destruct (prevs_bwd debug s l itB (rev c) 1 I Hes HitB) as (itB' & HnB & _).
  rewrite length_rev in HnB.
  replace (length c + 1)%nat with (S (length c)) in HnF, HnB by lia.
  split; [symmetry; by apply (inv_count _ _ I) |].
  split; [done |].
  split; [by exists itF, itF' |].
  split; [by exists itB, itB' |].
  split; [apply next_returns_current | apply prev_returns_current].
Qed.

(** *** Elements of size 0 *)

Lemma shrink_front_zero_dead lim a b :
  block_ok 0 lim a b -> fBegin (shrink_front 0 b) = NULL.
Proof.
  intros (_ & _ & _ & Hb). unfold shrink_front. case_decide; [| done].
  destruct Hb as [[? ?] | (? & ? & n & ? & ?)]; unfold NULL in *; lia.
Qed.

Lemma shrink_back_zero_dead lim a b :
  block_ok 0 lim a b -> fBegin (shrink_back 0 b) = NULL.
Proof.
  intros (_ & _ & _ & Hb). unfold shrink_back. case_decide; [| done].
  destruct Hb as [[? ?] | (? & ? & n & ? & ?)]; unfold NULL in *; lia.
Qed.

Lemma apply_op_config o s s' l :
  Inv s l -> apply_op false o s = Ok s' -> same_config s s'.
Proof.
  intros I Hrun. destruct o; cbn [apply_op] in Hrun.
  - destruct (push_front_spec s l I) as (p & s1 & l1 & Hpush & _ & Hcfg & _).
    rewrite Hpush in Hrun. cbn in Hrun. by injection Hrun as <-.
  - destruct (push_back_spec s l I) as (p & s1 & l1 & Hpush & _ & Hcfg & _).
    rewrite Hpush in Hrun. cbn in Hrun. by injection Hrun as <-.
  - destruct s as [es sto cnt ac fr bk h br fre].
    pose proof (inv_chain _ _ I) as C. proj.
    destruct (pop_front_inv _ _ _ _ _ _ _ _ _ _ _ _ C Hrun)
      as (a & l2 & b & _ & _ & _ & [(_ & ->) | (_ & a2 & l3 & b2 & _ & _ & _ & ->)]); done.
  - destruct s as [es sto cnt ac fr bk h br fre].
    pose proof (inv_chain _ _ I) as C. proj.
    destruct (pop_back_inv _ _ _ _ _ _ _ _ _ _ _ _ C Hrun)
      as (a & l2 & b & _ & _ & _ & [(_ & ->) | (_ & a2 & l3 & b2 & _ & _ & _ & ->)]); done.
Qed.

Lemma apply_op_InvZ o s s' l :
  Inv s l -> InvZ s -> fElemSize s = 0 -> (is_pop o = true -> 0 < fCount s) ->
  apply_op false o s = Ok s' -> InvZ s'.
Proof.
  intros I (Hsz & Hc0 & Hlive) Hz Hc Hrun.
  pose proof (chain_size _ _ _ _ (inv_chain _ _ I)) as Hlen.
  assert (Hpush : forall (p : Z) s1 l1, Inv s1 l1 -> fCount s1 = fCount s + 1 ->
            l1 = l \/ (l = [] /\ exists a, l1 = [a]) \/ 0 < fElemSize s -> InvZ s1).
  { intros p s1 l1 I1 Hcnt Hshape.
    pose proof (chain_size _ _ _ _ (inv_chain _ _ I1)) as Hlen1.
    split; [| split; [lia | intros; lia]].
    destruct Hshape as [-> | [(-> & a & ->) | ?]]; [lia | simpl in *; lia | lia]. }
  destruct o; cbn [apply_op is_pop] in *.
  - destruct (push_front_spec s l I) as (p & s1 & l1 & Hp & I1 & _ & Hcnt & _ & _ & Hsh).
    rewrite Hp in Hrun. cbn in Hrun. injection Hrun as <-. by apply (Hpush p s1 l1).
  - destruct (push_back_spec s l I) as (p & s1 & l1 & Hp & I1 & _ & Hcnt & _ & _ & Hsh).
    rewrite Hp in Hrun. cbn in Hrun. injection Hrun as <-. by apply (Hpush p s1 l1).
  - specialize (Hc eq_refl).
    destruct s as [es sto cnt ac fr bk h br fre]. proj. subst es.
    pose proof (inv_chain _ _ I) as C. proj.
    destruct (pop_front_inv _ _ _ _ _ _ _ _ _ _ _ _ C Hrun)
      as (a & l2 & b & -> & -> & Hb & [(_ & ->) | (_ & a2 & l3 & b2 & -> & _)]);
      [| simpl in Hlen; lia].
    destruct l2; [| simpl in Hlen; lia].
    pose proof (inv_blocks _ _ I a b Hb) as Hok. proj.
    split; proj; [| split; [lia |]].
    + rewrite map_size_insert_Some; [done | eauto].
    + intros a' b' Hb' Hl'. exfalso. apply Hl'.
      rewrite lookup_insert in Hb'. case_decide; simplify_eq.
      * by apply (shrink_front_zero_dead br a').
      * assert (a' ∈ [a]) by (apply (chain_dom _ _ _ _ C); eauto). set_solver.
  - specialize (Hc eq_refl).
    destruct s as [es sto cnt ac fr bk h br fre]. proj. subst es.
    pose proof (inv_chain _ _ I) as C. proj.
    destruct (pop_back_inv _ _ _ _ _ _ _ _ _ _ _ _ C Hrun)
      as (a & l2 & b & -> & -> & Hb & [(_ & ->) | (_ & a2 & l3 & b2 & -> & _)]);
      [| rewrite !length_app in Hlen; simpl in Hlen; lia].
    destruct l2; [| rewrite length_app in Hlen; simpl in Hlen; lia].
    pose proof (inv_blocks _ _ I a b Hb) as Hok. proj.
    split; proj; [| split; [lia |]].
    + rewrite map_size_insert_Some; [done | eauto].
    + intros a' b' Hb' Hl'. exfalso. apply Hl'.
      rewrite lookup_insert in Hb'. case_decide; simplify_eq.
      * by apply (shrink_back_zero_dead br a').
      * assert (a' ∈ [a]) by (apply (chain_dom _ _ _ _ C); eauto). set_solver.
Qed.

Lemma reachable_InvZ s : reachable s -> fElemSize s = 0 -> InvZ s.
Proof.
  induction 1 as [es ac brk0 s Hes Hbrk Hnew
                 | es sto size ac brk0 s Hes Hsto Hsize Hfit Hbrk Hnew
                 | o s s' Hr IH Hc Hrun]; intros Hz.
  - unfold SkDeque_new in Hnew. apply bind_Ok_inv in Hnew as (_ & _ & Hnew).
    injection Hnew as <-. split; proj; [| split; [lia |]].
    + rewrite map_size_empty. lia.
    + intros a b Hb. by rewrite lookup_empty in Hb.
  - unfold SkDeque_new_storage in Hnew. apply bind_Ok_inv in Hnew as (_ & _ & Hnew).
    apply bind_Ok_inv in Hnew as (_ & _ & Hnew). revert Hnew.
    case_decide; intros [= <-]; ev.
    + split; proj; [| split; [lia |]].
      * rewrite map_size_insert_None by apply lookup_empty. rewrite map_size_empty. lia.
      * intros a b Hb. rewrite lookup_insert in Hb. case_decide; simplify_eq. done.
    + split; proj; [| split; [lia |]].
      * rewrite map_size_empty. lia.
      * intros a b Hb. by rewrite lookup_empty in Hb.
  - destruct (reachable_Inv s Hr) as [l I].
    destruct (apply_op_config o s s' l I Hrun) as (Hes' & _).
    apply (apply_op_InvZ o s s' l I); [apply IH; congruence | congruence | done | done].
Qed.

(** The count is never negative. *)
Lemma count_nonneg s : reachable s -> 0 <= fCount s.
Proof.
  intros Hr. destruct (reachable_Inv s Hr) as [l I]. pose proof (inv_es _ _ I).
  destruct (decide (fElemSize s = 0)) as [Hz | Hnz].
  - by destruct (reachable_InvZ s Hr Hz) as (_ & ? & _).
  - apply (Inv_count_nonneg s l I). lia.
Qed.

(** In an empty deque every Block is marked empty. *)
Lemma empty_all_dead s a b :
  reachable s -> fCount s = 0 -> heap s !! a = Some b ->
  fBegin b = NULL /\ fEnd b = NULL.
Proof.
  intros Hr Hc Hb. destruct (reachable_Inv s Hr) as [l I]. pose proof (inv_es _ _ I) as Hes.
  destruct (decide (fElemSize s = 0)) as [Hz | Hnz].
  - destruct (reachable_InvZ s Hr Hz) as (_ & _ & Hlive).
    pose proof (block_ok_occupancy _ _ _ _ Hes (inv_blocks _ _ I a b Hb)) as [Hiff _].
    assert (fBegin b = NULL).
    { destruct (decide (fBegin b = NULL)) as [| Hl]; [done |].
      specialize (Hlive a b Hb Hl). lia. }
    split; [done | by apply Hiff].
  - apply (contents_nil_dead s l a b I); [lia | done | done].
Qed.

Lemma first_live_all_dead (cur : Block -> Z) (h : gmap Z Block) l :
  (forall a b, h !! a = Some b -> cur b = NULL) -> first_live cur h l = NULL.
Proof.
  intros Hd. induction l as [|a l IH]; [done |].
  cbn [first_live]. destruct (h !! a) as [b|] eqn:Hb; [| done].
  by rewrite decide_True by (by apply (Hd a)).
Qed.

Lemma reset_empty s startLoc :
  reachable s -> fCount s = 0 ->
  exists it, Iter.reset s startLoc = Ok it /\ Iter.fPos it = NULL.
Proof.
  intros Hr Hc. destruct (reachable_Inv s Hr) as [l I].
  pose proof (inv_chain _ _ I) as C.
  unfold Iter.reset. destruct startLoc.
  - rewrite (chain_front _ _ _ _ C).
    rewrite (reset_front_loop_chain s _ _ l [] l _ C eq_refl)
      by (rewrite (chain_size _ _ _ _ C); lia).
    rewrite first_live_all_dead
      by (intros a b Hb; by destruct (empty_all_dead s a b Hr Hc Hb)).
    cbn [bind]. rewrite decide_False by (intros ?; done). cbn [bind]. eauto.
  - rewrite (chain_back _ _ _ _ C).
    rewrite (reset_back_loop_chain s _ _ l l [] _ C ltac:(by rewrite app_nil_r))
      by (rewrite (chain_size _ _ _ _ C); lia).
    rewrite first_live_all_dead
      by (intros a b Hb; by destruct (empty_all_dead s a b Hr Hc Hb)).
    cbn [bind]. rewrite decide_False by (intros ?; done). cbn [bind]. eauto.
Qed.

Lemma steps_exhausted debug d it ms :
  Iter.fPos it = NULL ->
  Iter.steps debug ms d it = Ok (replicate (length ms) NULL, it).
Proof.
  intros H. induction ms as [|m ms IH]; [done |].
  destruct m; cbn [Iter.steps Iter.step length replicate];
    [rewrite next_exhausted by done | rewrite prev_exhausted by done];
    cbn [bind fst snd]; by rewrite IH.
Qed.

(** C10. An iterator whose cursor is null is exhausted for good: [next]
    and [prev] return null and leave it as it is, and so does every
    sequence of such calls.  The cursor is null after the default
    construction, after a reset over an empty deque, and as soon as a call
    of [next] or [prev] has returned null; [reset] alone, which does not
    read the iterator, leaves this state. *)
Theorem exhausted_iterator_is_absorbing (debug : bool) (d : State) :
  (forall it, Iter.fPos it = NULL ->
     Iter.next debug d it = Ok (NULL, it) /\
     Iter.prev debug d it = Ok (NULL, it) /\
     forall ms, Iter.steps debug ms d it = Ok (replicate (length ms) NULL, it)) /\
  Iter.fPos Iter.Iter_new = NULL /\
  (reachable d -> fCount d = 0 ->
   forall startLoc, exists it,
     Iter.Iter_at d startLoc = Ok it /\ Iter.reset d startLoc = Ok it /\
     Iter.fPos it = NULL) /\
  (forall it it', Iter.next debug d it = Ok (NULL, it') ->
     it' = it /\ Iter.fPos it' = NULL) /\
  (forall it it', Iter.prev debug d it = Ok (NULL, it') ->
     it' = it /\ Iter.fPos it' = NULL).
Proof.
  split; [| split; [done | split; [| split]]].
  - intros it H. split; [by apply next_exhausted |].
    split; [by apply prev_exhausted |]. intros ms. by apply steps_exhausted.
  - intros Hr Hc startLoc. destruct (reset_empty d startLoc Hr Hc) as (it & Hit & Hp).
    exists it. done.
  - intros it it' Hn. pose proof (next_returns_current _ _ _ _ _ Hn) as Hp.
    symmetry in Hp. rewrite next_exhausted in Hn by done.
    injection Hn as <-. done.
  - intros it it' Hn. pose proof (prev_returns_current _ _ _ _ _ Hn) as Hp.
    symmetry in Hp. rewrite prev_exhausted in Hn by done.
    injection Hn as <-. done.
Qed.

(** *** Lazy release *)

Lemma push_not_released a s p s' l :
  Inv s l -> (push_front s = Ok (p, s') \/ push_back s = Ok (p, s')) ->
  not_released a s s'.
Proof.
  intros I [Hp | Hp]; left.
  - destruct (push_front_spec s l I) as (p1 & s1 & l1 & Hp1 & _ & _ & _ & Hf & _).
    rewrite Hp in Hp1. by injection Hp1 as -> ->.
  - destruct (push_back_spec s l I) as (p1 & s1 & l1 & Hp1 & _ & _ & _ & Hf & _).
    rewrite Hp in Hp1. by injection Hp1 as -> ->.
Qed.

Lemma lazy_release_front debug s b :
  reachable s -> 0 < fCount s ->
  heap s !! fFront s = Some b -> fBegin b <> NULL ->
  ~ fBegin b + fElemSize s < fEnd b ->
  exists s',
    pop_front debug s = Ok s' /\
    freed s' = freed s /\ fFront s' = fFront s /\
    heap s' = <[fFront s := set_fBegin NULL (set_fEnd NULL b)]> (heap s) /\
    numBlocksAllocated s' = numBlocksAllocated s /\
    (forall s'', pop_front debug s' = Ok s'' ->
       freed s'' = fFront s :: freed s' /\ heap s'' !! fFront s = None /\
       fFront s'' = fNext b /\ fNext b <> NULL /\
       exists n : nat, numBlocksAllocated s' = Ok (Z.of_nat (S n)) /\
                       numBlocksAllocated s'' = Ok (Z.of_nat n)) /\
    (0 < fElemSize s -> 0 < fCount s' -> exists s'', pop_front debug s' = Ok s'') /\
    (forall o s'', o <> PopFront -> apply_op debug o s' = Ok s'' ->
       not_released (fFront s) s' s'').
Proof.
  intros Hr Hc Hb Hlive Hlast. destruct (reachable_Inv s Hr) as [l I].
  pose proof (inv_es _ _ I) as Hes.
  pose proof (inv_blocks _ _ I _ _ Hb) as Hok.
  pose proof (inv_chain _ _ I) as C.
  destruct l as [|a l2].
  { apply chain_nil_inv in C as (Hh & _). by rewrite Hh, lookup_empty in Hb. }
  pose proof (Inv_front _ _ I) as Hf. rewrite head0_cons in Hf. rewrite Hf in *.
  assert (a <> NULL) as Ha by (apply (Inv_nonnull _ _ _ I); set_solver).
  pose proof (numBlocksAllocated_chain _ _ (inv_chain _ _ I)) as Hnum.
  destruct s as [es sto cnt ac fr bk h br fre]. proj. subst fr.
  destruct Hok as (Ha0 & Hcap & Hlim & [[? _] | (Hlo & Hhi & n & Hn & Hnpos)]); [done |].
  set (b' := set_fBegin NULL (set_fEnd NULL b)).
  set (s1 := mkState es sto (cnt - 1) ac a bk (<[a := b']> h) br fre).
  assert (Hrun : pop_front debug (mkState es sto cnt ac a bk h br fre) = Ok s1).
  { unfold pop_front. ev. do_assert. do_assert. do_load. dec_false.
    unfold pop_front_shrink. do_load.
    rewrite SkASSERT_holds by (rewrite Hn; nia). ev.
    do_load. dec_false. do_poke. do_poke. by rewrite insert_insert_eq. }
  assert (I1 : Inv s1 (a :: l2)).
  { apply (Inv_update es sto cnt (cnt - 1) ac a bk h br fre _ [] a l2 b); auto.
    - unfold block_ok, b'. cbn [fBegin fEnd fStop set_fBegin set_fEnd].
      repeat (split; [done |]). by left.
    - intros Hpos. pose proof (inv_count _ _ I Hpos) as Hcnt. proj.
      rewrite Hcnt, (contents_of_head es h a l2 b Hb).
      unfold b'. rewrite (slots_dead es (set_fBegin NULL (set_fEnd NULL b))) by reflexivity.
      specialize (Hnpos Hpos).
      assert (n = 1%nat) as -> by nia.
      rewrite (slots_one es b); [| done | done | lia].
      simpl. lia. }
  pose proof (inv_chain _ _ I1) as C1. unfold s1 in C1. proj.
  exists s1. split; [done |]. split; [done |]. split; [done |]. split; [done |].
  split.
  { by rewrite Hnum, (numBlocksAllocated_chain s1 (a :: l2) C1). }
  split; [| split].
  - intros s2 Hrun2. unfold s1 in Hrun2.
    destruct (pop_front_inv _ _ _ _ _ _ _ _ _ _ _ _ C1 Hrun2)
      as (a' & l2' & bb & Hl & _ & Hbb &
          [(Hl' & _) | (_ & a2 & l3 & b2 & -> & Hb2 & Hnx & ->)]).
    + injection Hl as <- <-. rewrite lookup_insert_eq in Hbb. by injection Hbb as <-.
    + injection Hl as <- ->. rewrite lookup_insert_eq in Hbb. injection Hbb as <-.
      proj. cbn [fNext b' set_fBegin set_fEnd] in Hnx.
      assert (a2 <> NULL) as Ha2 by (apply (Inv_nonnull _ _ _ I); set_solver).
      assert (a <> a2).
      { pose proof (chain_nodup _ _ _ _ C) as Hnd.
        apply NoDup_cons in Hnd as [Hnd _]. set_solver. }
      split; [done |].
      split; [by rewrite lookup_insert_ne, lookup_delete_eq |].
      split; [done |]. split; [by rewrite Hnx |].
      exists (length (a2 :: l3)). split.
      * by rewrite (numBlocksAllocated_chain s1 (a :: a2 :: l3) C1).
      * destruct (shrink_front_links es (set_fPrev NULL b2)) as (? & ? & ?).
        rewrite (numBlocksAllocated_chain _ (a2 :: l3)); [done |]. proj.
        eapply chain_data; [| | done | done].
        -- by apply (chain_pop_head _ a).
        -- by rewrite lookup_delete_ne, lookup_insert_eq.
  - intros Hpos Hc1.
    destruct (pop_front_spec debug s1 (a :: l2) I1 Hpos Hc1) as (_ & s2 & _ & Hrun2 & _).
    eauto.
  - intros o s2 Ho Hrun2. destruct o; [| | done |].
    + cbn [apply_op] in Hrun2. apply bind_Ok_inv in Hrun2 as ([p s3] & Hp & Heq).
      cbn [snd] in Heq. injection Heq as <-.
      apply (push_not_released a s1 p s3 (a :: l2)); auto.
    + cbn [apply_op] in Hrun2. apply bind_Ok_inv in Hrun2 as ([p s3] & Hp & Heq).
      cbn [snd] in Heq. injection Heq as <-.
      apply (push_not_released a s1 p s3 (a :: l2)); auto.
    + cbn [apply_op] in Hrun2. unfold s1 in Hrun2.
      destruct (pop_back_inv _ _ _ _ _ _ _ _ _ _ _ _ C1 Hrun2)
        as (a' & l2' & bb & Hl & _ & Hbb &
            [(_ & ->) | (_ & a1 & l3 & b1 & -> & _ & _ & ->)]).
      * by left.
      * right. exists a'. split; [done |]. proj.
        pose proof (chain_nodup _ _ _ _ C) as Hnd. rewrite Hl in Hnd.
        intros ->. destruct l3; simpl in Hl; simplify_eq.
        -- apply NoDup_cons in Hnd as [Hnd _]. set_solver.
        -- apply NoDup_cons in Hnd as [Hnd _]. set_solver.
Qed.

Lemma lazy_release_back debug s b :
  reachable s -> 0 < fCount s ->
  heap s !! fBack s = Some b -> fEnd b <> NULL ->
  ~ fEnd b - fElemSize s > fBegin b ->
  exists s',
    pop_back debug s = Ok s' /\
    freed s' = freed s /\ fBack s' = fBack s /\
    heap s' = <[fBack s := set_fBegin NULL (set_fEnd NULL b)]> (heap s) /\
    numBlocksAllocated s' = numBlocksAllocated s /\
    (forall s'', pop_back debug s' = Ok s'' ->
       freed s'' = fBack s :: freed s' /\ heap s'' !! fBack s = None /\
       fBack s'' = fPrev b /\ fPrev b <> NULL /\
       exists n : nat, numBlocksAllocated s' = Ok (Z.of_nat (S n)) /\
                       numBlocksAllocated s'' = Ok (Z.of_nat n)) /\
    (0 < fElemSize s -> 0 < fCount s' -> exists s'', pop_back debug s' = Ok s'') /\
    (forall o s'', o <> PopBack -> apply_op debug o s' = Ok s'' ->
       not_released (fBack s) s' s'').
Proof.
  intros Hr Hc Hb Hlive Hlast. destruct (reachable_Inv s Hr) as [l I].
  pose proof (inv_es _ _ I) as Hes.
  pose proof (inv_blocks _ _ I _ _ Hb) as Hok.
  pose proof (inv_chain _ _ I) as C.
  destruct (list_snoc_case l) as [-> | (l2 & a & ->)].
  { apply chain_nil_inv in C as (Hh & _). by rewrite Hh, lookup_empty in Hb. }
  pose proof (Inv_back _ _ I) as Hk. rewrite last0_snoc in Hk. rewrite Hk in *.
  assert (a <> NULL) as Ha by (apply (Inv_nonnull _ _ _ I); set_solver).
  pose proof (numBlocksAllocated_chain _ _ (inv_chain _ _ I)) as Hnum.
  destruct s as [es sto cnt ac fr bk h br fre]. proj. subst bk.
  destruct Hok as (Ha0 & Hcap & Hlim & [[_ ?] | (Hlo & Hhi & n & Hn & Hnpos)]); [done |].
  assert (Hbl : fBegin b <> NULL).
  { pose proof sizeof_Block_pos. unfold start, NULL in *. lia. }
  set (b' := set_fBegin NULL (set_fEnd NULL b)).
  set (s1 := mkState es sto (cnt - 1) ac fr a (<[a := b']> h) br fre).
  assert (Hrun : pop_back debug (mkState es sto cnt ac fr a h br fre) = Ok s1).
  { unfold pop_back. ev. do_assert. do_assert. do_load. dec_false.
    unfold pop_back_shrink. do_load.
    rewrite SkASSERT_holds by (rewrite Hn; nia). ev.
    dec_false. do_poke. do_poke. by rewrite insert_insert_eq. }
  assert (I1 : Inv s1 (l2 ++ [a])).
  { apply (Inv_update es sto cnt (cnt - 1) ac fr a h br fre _ l2 a [] b); auto.
    - unfold block_ok, b'. cbn [fBegin fEnd fStop set_fBegin set_fEnd].
      repeat (split; [done |]). by left.
    - intros Hpos. pose proof (inv_count _ _ I Hpos) as Hcnt. proj.
      rewrite Hcnt, (contents_of_last es h a l2 b Hb).
      unfold b'. rewrite (slots_dead es (set_fBegin NULL (set_fEnd NULL b))) by reflexivity.
      specialize (Hnpos Hpos).
      assert (n = 1%nat) as -> by nia.
      rewrite (slots_one es b); [| done | done | lia].
      rewrite contents_of_nil, !length_app. simpl. lia. }
  pose proof (inv_chain _ _ I1) as C1. unfold s1 in C1. proj.
  exists s1. split; [done |]. split; [done |]. split; [done |]. split; [done |].
  split.
  { by rewrite Hnum, (numBlocksAllocated_chain s1 (l2 ++ [a]) C1). }
  split; [| split].
  - intros s2 Hrun2. unfold s1 in Hrun2.
    destruct (pop_back_inv _ _ _ _ _ _ _ _ _ _ _ _ C1 Hrun2)
      as (a' & l2' & bb & Hl & _ & Hbb &
          [(Hl' & _) | (_ & a1 & l3 & b1 & -> & Hb1 & Hpr & ->)]).
    + apply app_inj_tail in Hl as [<- <-].
      rewrite lookup_insert_eq in Hbb. by injection Hbb as <-.
    + apply app_inj_tail in Hl as [-> <-].
      rewrite lookup_insert_eq in Hbb. injection Hbb as <-.
      proj. cbn [fPrev b' set_fBegin set_fEnd] in Hpr.
      assert (a1 <> NULL) as Ha1 by (apply (Inv_nonnull _ _ _ I); set_solver).
      assert (a <> a1).
      { pose proof (chain_nodup _ _ _ _ C) as Hnd.
        apply NoDup_app in Hnd as (_ & Hnd & _). intros ->.
        apply (Hnd a1); set_solver. }
      split; [done |].
      split; [by rewrite lookup_insert_ne, lookup_delete_eq |].
      split; [done |]. split; [by rewrite Hpr |].
      exists (length (l3 ++ [a1])). split.
      * rewrite (numBlocksAllocated_chain s1 ((l3 ++ [a1]) ++ [a]) C1).
        rewrite (length_app _ [a]). simpl. do 2 f_equal. lia.
      * destruct (shrink_back_links es (set_fNext NULL b1)) as (? & ? & ?).
        rewrite (numBlocksAllocated_chain _ (l3 ++ [a1])); [done |]. proj.
        eapply chain_data; [| | done | done].
        -- apply (chain_pop_last _ _ a); [by rewrite <- app_assoc in C1 | done].
        -- by rewrite lookup_delete_ne, lookup_insert_eq.
  - intros Hpos Hc1.
    destruct (pop_back_spec debug s1 (l2 ++ [a]) I1 Hpos Hc1) as (_ & s2 & _ & Hrun2 & _).
    eauto.
  - intros o s2 Ho Hrun2. destruct o; [| | | done].
    + cbn [apply_op] in Hrun2. apply bind_Ok_inv in Hrun2 as ([p s3] & Hp & Heq).
      cbn [snd] in Heq. injection Heq as <-.
      apply (push_not_released a s1 p s3 (l2 ++ [a])); auto.
    + cbn [apply_op] in Hrun2. apply bind_Ok_inv in Hrun2 as ([p s3] & Hp & Heq).
      cbn [snd] in Heq. injection Heq as <-.
      apply (push_not_released a s1 p s3 (l2 ++ [a])); auto.
    + cbn [apply_op] in Hrun2. unfold s1 in Hrun2.
      destruct (pop_front_inv _ _ _ _ _ _ _ _ _ _ _ _ C1 Hrun2)
        as (a' & l2' & bb & Hl & _ & Hbb &
            [(_ & ->) | (_ & a2 & l3 & b2 & -> & _ & _ & ->)]).
      * by left.
      * right. exists a'. split; [done |]. proj.
        pose proof (chain_nodup _ _ _ _ C) as Hnd. rewrite Hl in Hnd.
        assert (a ∈ a2 :: l3) as Hin.
        { rewrite <- (last0_snoc l2 a), Hl, last0_cons_cons. by apply last0_elem. }
        intros ->. by apply NoDup_cons in Hnd as [Hnd _].
Qed.

(** An operation that returns passes at most one Block to [sk_free]: the
    end Block of a pop from that end, marked empty before this pop.  The
    neighbour, which the element is taken from, stays in the heap. *)
Lemma release_cases debug s o s' :
  reachable s -> apply_op debug o s = Ok s' ->
  freed s' = freed s \/
  (o = PopFront /\ exists b,
     heap s !! fFront s = Some b /\ fBegin b = NULL /\
     freed s' = fFront s :: freed s /\ heap s' !! fFront s = None /\
     fFront s' = fNext b /\ is_Some (heap s' !! fNext b)) \/
  (o = PopBack /\ exists b,
     heap s !! fBack s = Some b /\ fEnd b = NULL /\
     freed s' = fBack s :: freed s /\ heap s' !! fBack s = None /\
     fBack s' = fPrev b /\ is_Some (heap s' !! fPrev b)).
Proof.
  intros Hr Hrun. destruct (reachable_Inv s Hr) as [l I].
  pose proof (inv_chain _ _ I) as C.
  pose proof (chain_nodup _ _ _ _ C) as Hnd.
  destruct o; cbn [apply_op] in Hrun.
  - left. apply bind_Ok_inv in Hrun as (r & Hp & Heq). injection Heq as <-.
    destruct (push_front_spec s l I) as (p1 & s1 & l1 & Hp1 & _ & _ & _ & Hf & _).
    rewrite Hp in Hp1. by injection Hp1 as ->.
  - left. apply bind_Ok_inv in Hrun as (r & Hp & Heq). injection Heq as <-.
    destruct (push_back_spec s l I) as (p1 & s1 & l1 & Hp1 & _ & _ & _ & Hf & _).
    rewrite Hp in Hp1. by injection Hp1 as ->.
  - destruct s as [es sto cnt ac fr bk h br fre]. proj.
    destruct (pop_front_inv _ _ _ _ _ _ _ _ _ _ _ _ C Hrun)
      as (a & l2 & b & -> & -> & Hb & [(_ & ->) | (Hd & a2 & l3 & b2 & -> & Hb2 & Hnx & ->)]).
    + by left.
    + right. left. split; [done |]. exists b. proj.
      assert (a <> a2) as Hne.
      { intros <-. apply NoDup_cons in Hnd as [Hnd _]. set_solver. }
      split; [done |]. split; [done |]. split; [done |].
      split; [by rewrite lookup_insert_ne, lookup_delete_eq |].
      split; [done |]. rewrite Hnx, lookup_insert_eq. by eexists.
  - destruct s as [es sto cnt ac fr bk h br fre]. proj.
    destruct (pop_back_inv _ _ _ _ _ _ _ _ _ _ _ _ C Hrun)
      as (a & l2 & b & -> & -> & Hb & [(_ & ->) | (Hd & a1 & l3 & b1 & -> & Hb1 & Hpv & ->)]).
    + by left.
    + right. right. split; [done |]. exists b. proj.
      assert (a <> a1) as Hne.
      { intros <-. rewrite <- app_assoc in Hnd. apply NoDup_app in Hnd as (_ & _ & Hnd).
        apply NoDup_cons in Hnd as [Hnd _]. set_solver. }
      split; [done |]. split; [done |]. split; [done |].
      split; [by rewrite lookup_insert_ne, lookup_delete_eq |].
      split; [done |]. rewrite Hpv, lookup_insert_eq. by eexists.
Qed.

(** A [pop_front] that finds the front Block marked empty steps to the
    next Block, frees the emptied one and takes the element from the next
    Block, which stays in the heap whether or not this empties it: there is
    one Block less. *)
Lemma pop_front_advances debug s b s' :
  reachable s -> heap s !! fFront s = Some b -> fBegin b = NULL ->
  pop_front debug s = Ok s' ->
  exists (b2 : Block) (n : nat),
    heap s !! fNext b = Some b2 /\
    freed s' = fFront s :: freed s /\ heap s' !! fFront s = None /\
    fFront s' = fNext b /\
    heap s' !! fNext b = Some (shrink_front (fElemSize s) (set_fPrev NULL b2)) /\
    numBlocksAllocated s = Ok (Z.of_nat (S n)) /\
    numBlocksAllocated s' = Ok (Z.of_nat n).
Proof.
  intros Hr Hb Hd Hrun. destruct (reachable_Inv s Hr) as [l I].
  pose proof (inv_chain _ _ I) as C.
  pose proof (chain_nodup _ _ _ _ C) as Hnd.
  pose proof (numBlocksAllocated_chain _ _ C) as Hnum.
  destruct s as [es sto cnt ac fr bk h br fre]. proj.
  destruct (pop_front_inv _ _ _ _ _ _ _ _ _ _ _ _ C Hrun)
    as (a & l2 & b0 & -> & -> & Hb0 & [(Hl & _) | (_ & a2 & l3 & b2 & -> & Hb2 & Hnx & ->)]);
    rewrite Hb in Hb0; injection Hb0 as <-; [done |].
  proj.
  assert (a <> a2) as Hne.
  { intros <-. apply NoDup_cons in Hnd as [Hnd _]. set_solver. }
  exists b2, (length (a2 :: l3)). rewrite Hnx.
  split; [done |]. split; [done |].
  split; [by rewrite lookup_insert_ne, lookup_delete_eq |].
  split; [done |]. split; [by rewrite lookup_insert_eq |].
  split; [done |].
  destruct (shrink_front_links es (set_fPrev NULL b2)) as (? & ? & ?).
  rewrite (numBlocksAllocated_chain _ (a2 :: l3)); [done |]. proj.
  eapply chain_data; [| | done | done].
  - by apply (chain_pop_head _ a).
  - by rewrite lookup_delete_ne, lookup_insert_eq.
Qed.

(** The same for [pop_back]. *)
Lemma pop_back_advances debug s b s' :
  reachable s -> heap s !! fBack s = Some b -> fEnd b = NULL ->
  pop_back debug s = Ok s' ->
  exists (b1 : Block) (n : nat),
    heap s !! fPrev b = Some b1 /\
    freed s' = fBack s :: freed s /\ heap s' !! fBack s = None /\
    fBack s' = fPrev b /\
    heap s' !! fPrev b = Some (shrink_back (fElemSize s) (set_fNext NULL b1)) /\
    numBlocksAllocated s = Ok (Z.of_nat (S n)) /\
    numBlocksAllocated s' = Ok (Z.of_nat n).
Proof.
  intros Hr Hb Hd Hrun. destruct (reachable_Inv s Hr) as [l I].
  pose proof (inv_chain _ _ I) as C.
  pose proof (chain_nodup _ _ _ _ C) as Hnd.
  pose proof (numBlocksAllocated_chain _ _ C) as Hnum.
  destruct s as [es sto cnt ac fr bk h br fre]. proj.
  destruct (pop_back_inv _ _ _ _ _ _ _ _ _ _ _ _ C Hrun)
    as (a & l2 & b0 & -> & -> & Hb0 & [(Hl & _) | (_ & a1 & l3 & b1 & -> & Hb1 & Hpv & ->)]);
    rewrite Hb in Hb0; injection Hb0 as <-; [done |].
  proj.
  assert (a <> a1) as Hne.
  { intros <-. rewrite <- app_assoc in Hnd. apply NoDup_app in Hnd as (_ & _ & Hnd).
    apply NoDup_cons in Hnd as [Hnd _]. set_solver. }
  exists b1, (length (l3 ++ [a1])). rewrite Hpv.
  split; [done |]. split; [done |].
  split; [by rewrite lookup_insert_ne, lookup_delete_eq |].
  split; [done |]. split; [by rewrite lookup_insert_eq |].
  split.
  { rewrite Hnum, (length_app _ [a]). simpl. do 2 f_equal. lia. }
  destruct (shrink_back_links es (set_fNext NULL b1)) as (? & ? & ?).
  rewrite (numBlocksAllocated_chain _ (l3 ++ [a1])); [done |]. proj.
  eapply chain_data; [| | done | done].
  - apply (chain_pop_last _ _ a); [by rewrite <- app_assoc in C | done].
  - by rewrite lookup_delete_ne, lookup_insert_eq.
Qed.

(** C5, as stated in the specification, fails for the pop that first steps
    past a Block emptied earlier: with Blocks of one element, after three
    [push_back] and a [pop_front] the front Block (at 1000) is marked empty
    and the next one (at 1044) holds its last element.  The next
    [pop_front] takes this element: it marks the Block at 1044 empty and
    does not free it, but it frees the Block at 1000, and
    [numBlocksAllocated] goes from 3 to 2 in that same pop. *)
Lemma pop_past_emptied_block_drops_a_block :
  exists s0 s b b2 s',
    SkDeque_new true 4 1 1000 = Ok s0 /\
    run true [PushBack; PushBack; PushBack; PopFront] s0 = Ok s /\
    machine_run [PushBack; PushBack; PushBack; PopFront] s0 = true /\
    fCount s = 2 /\ numBlocksAllocated s = Ok 3 /\
    fFront s = 1000 /\ heap s !! 1000 = Some b /\
    fBegin b = NULL /\ fNext b = 1044 /\
    heap s !! 1044 = Some b2 /\ fBegin b2 = 1084 /\ fEnd b2 = 1084 + fElemSize s /\
    pop_front true s = Ok s' /\
    pop_front false s = Ok s' /\
    fCount s' = 1 /\ fFront s' = 1044 /\
    heap s' !! 1044 = Some (set_fBegin NULL (set_fEnd NULL (set_fPrev NULL b2))) /\
    freed s = [] /\ freed s' = [1000] /\
    numBlocksAllocated s' = Ok 2.
Proof.
  do 5 eexists. split; [vm_compute; reflexivity |].
  repeat (split; [vm_compute; reflexivity |]). vm_compute; reflexivity.
Qed.

(** C5 (amended). On a deque within the machine's range, a pop that finds
    the last element in the Block its end pointer designates does not free
    this Block: it marks it empty, nothing is passed to [sk_free] and
    [numBlocksAllocated] stays the same.  The next pop from the same end,
    when it returns, has stepped to the neighbour and freed the emptied
    Block, so there is one Block less; for elements of at least one byte
    it does return whenever an element is left and the emptied Block is not
    the caller's storage.  No push and no pop from the other end releases
    the emptied Block.

    A pop that finds its end Block marked empty steps to the neighbour,
    frees the emptied Block and takes the element from the neighbour, which
    stays in the heap whether or not this empties it: in that pop
    [numBlocksAllocated] drops by one.

    In general an operation that returns frees at most one Block, and only
    as a pop from the end whose Block was marked empty before that pop. *)
Theorem lazy_release (debug : bool) (s : State) :
  machine_reachable s -> 0 < fCount s ->
  (forall b,
     heap s !! fFront s = Some b -> fBegin b <> NULL ->
     ~ fBegin b + fElemSize s < fEnd b ->
     exists s',
       pop_front debug s = Ok s' /\ machine_reachable s' /\
       freed s' = freed s /\ fFront s' = fFront s /\
       heap s' = <[fFront s := set_fBegin NULL (set_fEnd NULL b)]> (heap s) /\
       numBlocksAllocated s' = numBlocksAllocated s /\
       (forall s'', fFront s <> fInitialStorage s -> 0 < fCount s' ->
                    pop_front debug s' = Ok s'' ->
          machine_reachable s'' /\
          freed s'' = fFront s :: freed s' /\ heap s'' !! fFront s = None /\
          fFront s'' = fNext b /\ fNext b <> NULL /\
          exists n : nat, numBlocksAllocated s' = Ok (Z.of_nat (S n)) /\
                          numBlocksAllocated s'' = Ok (Z.of_nat n)) /\
       (0 < fElemSize s -> 0 < fCount s' -> fFront s <> fInitialStorage s ->
        exists s'', pop_front debug s' = Ok s'') /\
       (forall o s'', o <> PopFront -> (is_pop o = true -> 0 < fCount s') ->
          apply_op debug o s' = Ok s'' -> machine_ok s'' ->
          not_released (fFront s) s' s'')) /\
  (forall b,
     heap s !! fBack s = Some b -> fEnd b <> NULL ->
     ~ fEnd b - fElemSize s > fBegin b ->
     exists s',
       pop_back debug s = Ok s' /\ machine_reachable s' /\
       freed s' = freed s /\ fBack s' = fBack s /\
       heap s' = <[fBack s := set_fBegin NULL (set_fEnd NULL b)]> (heap s) /\
       numBlocksAllocated s' = numBlocksAllocated s /\
       (forall s'', fBack s <> fInitialStorage s -> 0 < fCount s' ->
                    pop_back debug s' = Ok s'' ->
          machine_reachable s'' /\
          freed s'' = fBack s :: freed s' /\ heap s'' !! fBack s = None /\
          fBack s'' = fPrev b /\ fPrev b <> NULL /\
          exists n : nat, numBlocksAllocated s' = Ok (Z.of_nat (S n)) /\
                          numBlocksAllocated s'' = Ok (Z.of_nat n)) /\
       (0 < fElemSize s -> 0 < fCount s' -> fBack s <> fInitialStorage s ->
        exists s'', pop_back debug s' = Ok s'') /\
       (forall o s'', o <> PopBack -> (is_pop o = true -> 0 < fCount s') ->
          apply_op debug o s' = Ok s'' -> machine_ok s'' ->
          not_released (fBack s) s' s'')) /\
  (forall b,
     heap s !! fFront s = Some b -> fBegin b = NULL ->
     fFront s <> fInitialStorage s ->
     (0 < fElemSize s -> exists s', pop_front debug s = Ok s') /\
     forall s', pop_front debug s = Ok s' ->
     machine_reachable s' /\
     exists (b2 : Block) (n : nat),
       heap s !! fNext b = Some b2 /\
       freed s' = fFront s :: freed s /\ heap s' !! fFront s = None /\
       fFront s' = fNext b /\
       heap s' !! fNext b = Some (shrink_front (fElemSize s) (set_fPrev NULL b2)) /\
       numBlocksAllocated s = Ok (Z.of_nat (S n)) /\
       numBlocksAllocated s' = Ok (Z.of_nat n)) /\
  (forall b,
     heap s !! fBack s = Some b -> fEnd b = NULL ->
     fBack s <> fInitialStorage s ->
     (0 < fElemSize s -> exists s', pop_back debug s = Ok s') /\
     forall s', pop_back debug s = Ok s' ->
     machine_reachable s' /\
     exists (b1 : Block) (n : nat),
       heap s !! fPrev b = Some b1 /\
       freed s' = fBack s :: freed s /\ heap s' !! fBack s = None /\
       fBack s' = fPrev b /\
       heap s' !! fPrev b = Some (shrink_back (fElemSize s) (set_fNext NULL b1)) /\
       numBlocksAllocated s = Ok (Z.of_nat (S n)) /\
       numBlocksAllocated s' = Ok (Z.of_nat n)) /\
  (forall o s', apply_op debug o s = Ok s' -> machine_ok s' ->
     freed s' = freed s \/
     (o = PopFront /\ exists b,
        heap s !! fFront s = Some b /\ fBegin b = NULL /\
        freed s' = fFront s :: freed s /\ heap s' !! fFront s = None /\
        fFront s' = fNext b /\ is_Some (heap s' !! fNext b)) \/
     (o = PopBack /\ exists b,
        heap s !! fBack s = Some b /\ fEnd b = NULL /\
        freed s' = fBack s :: freed s /\ heap s' !! fBack s = None /\
        fBack s' = fPrev b /\ is_Some (heap s' !! fPrev b))).
Proof.
  intros Hm Hc. pose proof (machine_reachable_reachable s Hm) as Hr.
  destruct (reachable_Inv s Hr) as [l I]. pose proof (inv_chain _ _ I) as C.
  split; [| split; [| split; [| split]]].
  - intros b Hb Hl Hlast.
    destruct (lazy_release_front debug s b Hr Hc Hb Hl Hlast)
      as (s' & Hpop & Hfr & Hf & Hh & Hnum & Hnext & Hex & Hother).
    assert (pop_front_ok s) as Hguard.
    { intros b0 Hb0 Hd. rewrite Hb in Hb0. by injection Hb0 as <-. }
    destruct (pop_front_machine debug s s' Hm Hc Hguard Hpop) as [Hm' _].
    destruct (pop_front_grows debug s l s' C Hpop) as ((_ & Hsto & _) & _).
    assert (fFront s <> fInitialStorage s -> pop_front_ok s') as Hguard'.
    { intros Hne b0 _ _. by rewrite Hf, Hsto. }
    exists s'. split; [done |]. split; [done |]. split; [done |]. split; [done |].
    split; [done |]. split; [done |]. split; [| split].
    + intros s'' Hne Hc' Hpop'. split; [| by apply Hnext].
      by apply (pop_front_machine debug s' s'' Hm' Hc' (Hguard' Hne) Hpop').
    + intros Hes Hc' _. by apply Hex.
    + intros o s'' Ho _ Hrun _. by apply (Hother o s'').
  - intros b Hb Hl Hlast.
    destruct (lazy_release_back debug s b Hr Hc Hb Hl Hlast)
      as (s' & Hpop & Hfr & Hf & Hh & Hnum & Hnext & Hex & Hother).
    assert (pop_back_ok s) as Hguard.
    { intros b0 Hb0 Hd. rewrite Hb in Hb0. by injection Hb0 as <-. }
    destruct (pop_back_machine debug s s' Hm Hc Hguard Hpop) as [Hm' _].
    destruct (pop_back_grows debug s l s' C Hpop) as ((_ & Hsto & _) & _).
    assert (fBack s <> fInitialStorage s -> pop_back_ok s') as Hguard'.
    { intros Hne b0 _ _. by rewrite Hf, Hsto. }
    exists s'. split; [done |]. split; [done |]. split; [done |]. split; [done |].
    split; [done |]. split; [done |]. split; [| split].
    + intros s'' Hne Hc' Hpop'. split; [| by apply Hnext].
      by apply (pop_back_machine debug s' s'' Hm' Hc' (Hguard' Hne) Hpop').
    + intros Hes Hc' _. by apply Hex.
    + intros o s'' Ho _ Hrun _. by apply (Hother o s'').
  - intros b Hb Hd Hne. split.
    { intros Hes. destruct (pop_front_spec debug s l I Hes Hc) as (_ & s' & _ & Hrun & _).
      by exists s'. }
    intros s' Hpop.
    assert (pop_front_ok s) as Hguard by (by intros b0 _ _).
    destruct (pop_front_machine debug s s' Hm Hc Hguard Hpop) as [Hm' _].
    split; [done | by apply (pop_front_advances debug s b s')].
  - intros b Hb Hd Hne. split.
    { intros Hes. destruct (pop_back_spec debug s l I Hes Hc) as (_ & s' & _ & Hrun & _).
      by exists s'. }
    intros s' Hpop.
    assert (pop_back_ok s) as Hguard by (by intros b0 _ _).
    destruct (pop_back_machine debug s s' Hm Hc Hguard Hpop) as [Hm' _].
    split; [done | by apply (pop_back_advances debug s b s')].
  - intros o s' Hrun _. by apply (release_cases debug s o s').
Qed.

(** ** Elements in memory *)

Lemma read_write_same p v m :
  read p (Z.of_nat (length v)) (write p v m) = v.
Proof.
  unfold read. apply list_eq. intros i. rewrite list_lookup_fmap.
  destruct (decide (i < length v)%nat) as [Hi | Hi].
  - rewrite lookup_seqZ_lt by lia. cbn [fmap option_fmap option_map].
    unfold write. rewrite decide_True by lia.
    replace (Z.to_nat (p + Z.of_nat i - p)) with i by lia.
    destruct (lookup_lt_is_Some_2 v i Hi) as [x Hx]. by rewrite Hx.
  - rewrite lookup_seqZ_ge by lia. rewrite lookup_ge_None_2 by lia. done.
Qed.

Lemma read_write_apart p q n v m :
  q + n <= p \/ p + Z.of_nat (length v) <= q ->
  read q n (write p v m) = read q n m.
Proof.
  intros Hap. unfold read. apply list_fmap_ext. intros i a Ha.
  apply lookup_seqZ in Ha as [-> Hi].
  unfold write. rewrite decide_False by lia. done.
Qed.

(** *** Slots do not overlap *)

Lemma apart_app es c1 c2 :
  apart es (c1 ++ c2) <->
  apart es c1 /\ apart es c2 /\
  (forall x y, x ∈ c1 -> y ∈ c2 -> x + es <= y \/ y + es <= x).
Proof.
  induction c1 as [|x c1 IH]; simpl.
  - split; [intros ?; split; [done | split; [done | set_solver]] | tauto].
  - rewrite IH. split.
    + intros (Hx & H1 & H2 & H12). split; [split; [| done] |].
      * intros y Hy. apply Hx. set_solver.
      * split; [done |]. intros x' y Hx' Hy.
        apply elem_of_cons in Hx' as [-> | Hx']; [apply Hx; set_solver | by apply H12].
    + intros ((Hx & H1) & H2 & H12). split; [| split; [done | split; [done |]]].
      * intros y Hy. apply elem_of_app in Hy as [Hy | Hy]; [by apply Hx |].
        apply H12; [set_solver | done].
      * intros x' y Hx' Hy. apply H12; [set_solver | done].
Qed.

Lemma apart_slots_from p es n : 0 < es -> apart es (slots_from p es n).
Proof.
  intros Hes. revert p. induction n as [|n IH]; intros p; simpl; [done |].
  split; [| apply IH]. intros y Hy.
  apply elem_of_slots_from in Hy as (i & _ & ->). left. nia.
Qed.

Lemma slots_range es lim a b x :
  block_ok es lim a b -> 0 < es -> x ∈ slots es b ->
  start a <= x /\ x + es <= fStop b.
Proof.
  intros Hok Hes Hx.
  destruct (block_cases _ _ _ _ Hok Hes) as [(_ & _ & Hs) | (Hb & _ & n & Hn & Hs)].
  - rewrite Hs in Hx. set_solver.
  - rewrite Hs in Hx. apply elem_of_slots_from in Hx as (i & Hi & ->).
    destruct Hok as (_ & _ & _ & [[? ?] | (? & ? & _)]); [done | nia].
Qed.

Lemma apart_contents es lim h l :
  0 < es -> NoDup l -> map_Forall (block_ok es lim) h -> regions_disjoint h ->
  apart es (contents_of es h l).
Proof.
  intros Hes Hnd Hok Hdis. induction l as [|a l IH]; [done |].
  apply NoDup_cons in Hnd as [Hna Hnd]. rewrite contents_of_cons.
  apply apart_app. split; [| split; [by apply IH |]].
  - unfold slots_at. destruct (h !! a) as [b|] eqn:Ha; [| done].
    destruct (block_cases _ _ _ _ (Hok _ _ Ha) Hes) as [(_ & _ & ->) | (_ & _ & n & _ & ->)];
      [done | by apply apart_slots_from].
  - intros x y Hx Hy. unfold slots_at in Hx.
    destruct (h !! a) as [b|] eqn:Ha; [| set_solver].
    unfold contents_of in Hy. apply list_elem_of_bind in Hy as (a' & Hy & Ha').
    unfold slots_at in Hy. destruct (h !! a') as [b'|] eqn:Hb'; [| set_solver].
    assert (a <> a') as Hne by (intros ->; done).
    pose proof (slots_range _ _ _ _ _ (Hok _ _ Ha) Hes Hx).
    pose proof (slots_range _ _ _ _ _ (Hok _ _ Hb') Hes Hy).
    pose proof sizeof_Block_pos. unfold start in *.
    destruct (Hdis _ _ _ _ Ha Hb' Hne); [left | right]; lia.
Qed.

Lemma Inv_apart s l :
  Inv s l -> 0 < fElemSize s ->
  apart (fElemSize s) (contents_of (fElemSize s) (heap s) l).
Proof.
  intros I Hes.
  apply (apart_contents _ (brk s)); [done | | apply (inv_blocks _ _ I) | apply (inv_disjoint _ _ I)].
  apply (chain_nodup _ _ _ _ (inv_chain _ _ I)).
Qed.

(** *** Filling and draining *)

Lemma push_back_all_spec vs : forall s l m,
  Inv s l -> 0 < fElemSize s ->
  Forall (fun v => Z.of_nat (length v) = fElemSize s) vs ->
  exists s' l' m' ps,
    push_back_all vs s m = Ok (s', m') /\ Inv s' l' /\ same_config s s' /\
    fCount s' = fCount s + Z.of_nat (length vs) /\
    contents_of (fElemSize s) (heap s') l' =
      contents_of (fElemSize s) (heap s) l ++ ps /\
    (fun p => read p (fElemSize s) m') <$> ps = vs /\
    (forall q, q ∈ contents_of (fElemSize s) (heap s) l ->
               read q (fElemSize s) m' = read q (fElemSize s) m).
Proof.
  induction vs as [|v vs IH]; intros s l m I Hes Hvs.
  - exists s, l, m, []. cbn [push_back_all length fmap list_fmap].
    rewrite app_nil_r. unfold same_config.
    split; [done | split; [done | split; [done | split; [lia | done]]]].
  - apply Forall_cons in Hvs as [Hv Hvs].
    destruct (push_back_spec s l I) as (p & s1 & l1 & Hp & I1 & Hcfg & Hc1 & _ & Hcont & _).
    specialize (Hcont Hes).
    destruct Hcfg as (Hes1 & Hsto1 & Hac1).
    destruct (IH s1 l1 (write p v m) I1) as (s' & l' & m' & ps & Hrun & I' & Hcfg' & Hc' & Hcont' & Hrd & Hold).
    { lia. }
    { by rewrite Hes1. }
    rewrite Hes1 in Hcont', Hrd, Hold. rewrite Hcont in Hcont', Hold.
    pose proof (Inv_apart _ _ I1) as Hap. rewrite Hes1, Hcont in Hap.
    specialize (Hap Hes). apply apart_app in Hap as (_ & _ & Hap).
    exists s', l', m', (p :: ps). split; [| split; [done | split; [| split; [| split; [| split]]]]].
    + cbn [push_back_all]. rewrite Hp. cbn [bind fst snd]. done.
    + destruct Hcfg' as (? & ? & ?). unfold same_config. rewrite Hes1, Hsto1, Hac1 in *. done.
    + rewrite Hc', Hc1. cbn [length]. lia.
    + rewrite Hcont', <- app_assoc. done.
    + cbn [fmap list_fmap]. f_equal; [| done].
      rewrite Hold by set_solver. rewrite <- Hv. apply read_write_same.
    + intros q Hq. rewrite Hold by set_solver. apply read_write_apart.
      rewrite Hv. destruct (Hap q p Hq); [set_solver | |]; lia.
Qed.

Lemma pop_front_all_spec debug m ps : forall s l rest,
  Inv s l -> 0 < fElemSize s ->
  contents_of (fElemSize s) (heap s) l = ps ++ rest ->
  exists s' l',
    pop_front_all debug (length ps) s m =
      Ok ((fun p => read p (fElemSize s) m) <$> ps, s') /\
    Inv s' l' /\ same_config s s' /\
    fCount s' = fCount s - Z.of_nat (length ps) /\
    contents_of (fElemSize s) (heap s') l' = rest.
Proof.
  induction ps as [|p ps IH]; intros s l rest I Hes Hcont.
  - exists s, l. cbn [pop_front_all length fmap list_fmap].
    unfold same_config.
    split; [done | split; [done | split; [done | split; [lia | done]]]].
  - assert (0 < fCount s) as Hc.
    { rewrite (inv_count _ _ I Hes), Hcont. cbn [length app]. lia. }
    destruct (front_spec debug s l I Hes Hc) as (p0 & c0 & Hc0 & Hfr & Hnn).
    destruct (pop_front_spec debug s l I Hes Hc) as (p1 & s1 & l1 & Hpop & I1 & Hcfg & Hc1 & Hcont1).
    rewrite Hcont in Hc0, Hcont1. cbn [app] in Hc0, Hcont1.
    injection Hc0 as <- _. injection Hcont1 as _ Hcont1.
    destruct Hcfg as (Hes1 & Hsto1 & Hac1).
    destruct (IH s1 l1 rest I1) as (s' & l' & Hrun & I' & Hcfg' & Hc' & Hcont').
    { lia. }
    { by rewrite Hes1. }
    rewrite Hes1 in Hrun, Hcont'.
    exists s', l'. split; [| split; [done | split; [| split; [| done]]]].
    + cbn [pop_front_all length]. rewrite Hfr. cbn [bind].
      rewrite decide_False by done. rewrite Hpop. cbn [bind].
      rewrite Hrun. cbn [bind fst snd fmap list_fmap]. done.
    + destruct Hcfg' as (? & ? & ?). unfold same_config. rewrite Hes1, Hsto1, Hac1 in *. done.
    + rewrite Hc', Hc1. cbn [length]. lia.
Qed.

Lemma Inv_empty_contents s l :
  Inv s l -> 0 < fElemSize s -> fCount s = 0 ->
  contents_of (fElemSize s) (heap s) l = [].
Proof.
  intros I Hes Hc. pose proof (inv_count _ _ I Hes) as Hn. rewrite Hc in Hn.
  destruct (contents_of _ _ _); [done | cbn [length] in Hn; lia].
Qed.

(** C2 (amended). For elements of at least one byte, on an empty deque
    within the machine's range that does not use storage of the caller:
    [N] calls of [push_back], each followed by writing one value into the
    slot returned, return; if the state they lead to is within the range,
    so is every state on the way, and [N] rounds of reading [front()] and
    calling [pop_front] return; the values read are the values written, in
    the order they were pushed; [count()] is [N] in between and [0] at the
    end.  [N] is the length of [vs] and is arbitrary, as are the values and
    the allocation count of the deque. *)
Theorem fifo_order (debug : bool) (s : State) (m : Mem) (vs : list (list byte)) :
  machine_reachable s -> 0 < fElemSize s -> fCount s = 0 ->
  heap s !! fInitialStorage s = None ->
  Forall (fun v => Z.of_nat (length v) = fElemSize s) vs ->
  exists s1 m1,
    push_back_all vs s m = Ok (s1, m1) /\
    (machine_ok s1 ->
     machine_run (replicate (length vs) PushBack ++ replicate (length vs) PopFront) s
       = true /\
     fCount s1 = Z.of_nat (length vs) /\
     exists s2,
       pop_front_all debug (length vs) s1 m1 = Ok (vs, s2) /\
       fCount s2 = 0 /\ machine_reachable s2).
Proof.
  intros Hm Hes Hc Hno Hvs. pose proof (machine_reachable_reachable s Hm) as Hr.
  destruct (reachable_Inv _ Hr) as (l & I).
  destruct (push_back_all_spec vs s l m I Hes Hvs)
    as (s1 & l1 & m1 & ps & Hpush & I1 & (Hes1 & _ & _) & Hc1 & Hcont & Hrd & _).
  rewrite (Inv_empty_contents _ _ I Hes Hc) in Hcont. cbn [app] in Hcont.
  rewrite <- Hes1 in Hcont, Hrd.
  destruct (pop_front_all_spec debug m1 ps s1 l1 [] I1) as (s2 & l2 & Hpop & _ & _ & Hc2 & _).
  { lia. }
  { by rewrite app_nil_r. }
  assert (length ps = length vs) as Hlen by (by rewrite <- Hrd, length_fmap).
  rewrite Hrd, Hlen in Hpop.
  exists s1, m1. split; [done |]. intros Hok.
  destruct (push_back_all_machine vs s m s1 m1 Hm Hpush Hok) as (Hr1 & Hr2 & Hm1 & _).
  assert (heap s1 !! fInitialStorage s1 = None) as Hno1.
  { apply (no_storage_kept s); [by apply machine_reachable_ok | | done].
    by apply (push_back_all_grows vs s l m s1 m1). }
  destruct (pop_front_all_machine debug (length vs) s1 m1 vs s2 Hm1 Hno1 Hpop)
    as (Hq1 & Hq2 & Hm2); [lia |].
  split.
  { by apply (machine_run_app _ _ s s1). }
  split; [lia |]. exists s2. split; [done |]. split; [lia | done].
Qed.

(** ** Instances on example deques *)

Lemma example_deque_reachable elemSize allocCount os :
  0 <= elemSize -> 1 <= allocCount ->
  run false os (example_deque elemSize allocCount []) =
    Ok (example_deque elemSize allocCount os) ->
  reachable (example_deque elemSize allocCount os).
Proof.
  intros Hes Hac Hrun. apply (run_reachable os (example_deque elemSize allocCount [])); [| done].
  apply (reach_new elemSize allocCount 1000); [done | lia |].
  unfold SkDeque_new, SkASSERT. rewrite bool_decide_eq_true_2 by lia. reflexivity.
Qed.

Lemma example_deque_machine_reachable elemSize allocCount os :
  0 <= elemSize -> 1 <= allocCount ->
  machine_okb (example_deque elemSize allocCount []) = true ->
  machine_run os (example_deque elemSize allocCount []) = true ->
  machine_reachable (example_deque elemSize allocCount os).
Proof.
  intros Hes Hac Hok Hrun.
  assert (machine_reachable (example_deque elemSize allocCount [])) as Hm.
  { apply (mreach_new elemSize allocCount 1000); [done | lia | | by apply machine_okb_ok].
    unfold SkDeque_new, SkASSERT. rewrite bool_decide_eq_true_2 by lia. reflexivity. }
  destruct (machine_run_reachable os _ Hm Hrun) as (s' & Hs' & Hm').
  unfold example_deque in Hs' |- *. cbn [run] in Hs'. rewrite Hs'. exact Hm'.
Qed.

(** C2, on three 4-byte values pushed onto a new deque with Blocks of two
    elements. *)
Lemma fifo_order_witness :
  machine_reachable (example_deque 4 2 []) /\
  0 < fElemSize (example_deque 4 2 []) /\
  fCount (example_deque 4 2 []) = 0 /\
  heap (example_deque 4 2 []) !! fInitialStorage (example_deque 4 2 []) = None /\
  Forall (fun v => Z.of_nat (length v) = fElemSize (example_deque 4 2 []))
         (int32_bytes <$> [7; 8; 9]) /\
  exists s1 m1 s2,
    push_back_all (int32_bytes <$> [7; 8; 9]) (example_deque 4 2 []) blank = Ok (s1, m1) /\
    machine_ok s1 /\
    fCount s1 = Z.of_nat (length (int32_bytes <$> [7; 8; 9])) /\
    pop_front_all true (length (int32_bytes <$> [7; 8; 9])) s1 m1
      = Ok (int32_bytes <$> [7; 8; 9], s2) /\
    fCount s2 = 0 /\ machine_reachable s2.
Proof.
  assert (machine_reachable (example_deque 4 2 [])) as Hm.
  { apply example_deque_machine_reachable; [lia | lia | vm_compute; reflexivity | reflexivity]. }
  assert (0 < fElemSize (example_deque 4 2 [])) as Hes by reflexivity.
  assert (fCount (example_deque 4 2 []) = 0) as Hc by reflexivity.
  assert (heap (example_deque 4 2 []) !! fInitialStorage (example_deque 4 2 []) = None)
    as Hno by reflexivity.
  assert (Forall (fun v => Z.of_nat (length v) = fElemSize (example_deque 4 2 []))
                 (int32_bytes <$> [7; 8; 9])) as Hvs.
  { repeat constructor. }
  split; [exact Hm |]. split; [exact Hes |]. split; [exact Hc |]. split; [exact Hno |].
  split; [exact Hvs |].
  destruct (fifo_order true _ blank _ Hm Hes Hc Hno Hvs) as (s1 & m1 & Hpush & Hrest).
  assert (machine_ok s1) as Hok.
  { pose proof (push_back_all_run _ _ _ _ _ Hpush) as Hrun.
    vm_compute in Hrun. injection Hrun as <-.
    apply machine_okb_ok. vm_compute. reflexivity. }
  destruct (Hrest Hok) as (_ & Hc1 & s2 & Hpop & Hc2 & Hm2).
  exists s1, m1, s2.
  exact (conj Hpush (conj Hok (conj Hc1 (conj Hpop (conj Hc2 Hm2))))).
Defined.

(** C3, on a deque whose front Block is marked empty: three [push_back]
    with Blocks of one element, then a [pop_front]. *)
Lemma iteration_order_witness :
  machine_reachable (example_deque 4 1 [PushBack; PushBack; PushBack; PopFront]) /\
  0 < fElemSize (example_deque 4 1 [PushBack; PushBack; PushBack; PopFront]) /\
  contents (example_deque 4 1 [PushBack; PushBack; PushBack; PopFront]) = [1084; 1128] /\
  fCount (example_deque 4 1 [PushBack; PushBack; PushBack; PopFront]) = 2 /\
  (exists itF itF',
     Iter.reset (example_deque 4 1 [PushBack; PushBack; PushBack; PopFront])
                Iter.kFront_IterStart = Ok itF /\
     Iter.nexts true 3 (example_deque 4 1 [PushBack; PushBack; PushBack; PopFront]) itF
       = Ok ([1084; 1128; NULL], itF')) /\
  (exists itB itB',
     Iter.reset (example_deque 4 1 [PushBack; PushBack; PushBack; PopFront])
                Iter.kBack_IterStart = Ok itB /\
     Iter.prevs true 3 (example_deque 4 1 [PushBack; PushBack; PushBack; PopFront]) itB
       = Ok ([1128; 1084; NULL], itB')).
Proof.
  set (s := example_deque 4 1 [PushBack; PushBack; PushBack; PopFront]).
  assert (machine_reachable s) as Hm.
  { apply example_deque_machine_reachable;
      [lia | lia | vm_compute; reflexivity | vm_compute; reflexivity]. }
  assert (0 < fElemSize s) as Hes by reflexivity.
  assert (contents s = [1084; 1128]) as Hcont by (vm_compute; reflexivity).
  split; [exact Hm |]. split; [exact Hes |]. split; [exact Hcont |].
  destruct (iteration_order true s Hm Hes) as (Hlen & _ & HF & HB & _).
  rewrite Hcont in Hlen, HF, HB.
  split; [symmetry; exact Hlen |]. split; [exact HF | exact HB].
Defined.

(** C5, on two Blocks of one element each: the first [pop_front] empties
    the front Block and frees nothing, the second one frees it. *)
Lemma lazy_release_witness :
  machine_reachable (example_deque 4 1 [PushBack; PushBack]) /\
  0 < fCount (example_deque 4 1 [PushBack; PushBack]) /\
  exists b s' s'',
    heap (example_deque 4 1 [PushBack; PushBack])
      !! fFront (example_deque 4 1 [PushBack; PushBack]) = Some b /\
    fBegin b <> NULL /\
    ~ fBegin b + fElemSize (example_deque 4 1 [PushBack; PushBack]) < fEnd b /\
    pop_front true (example_deque 4 1 [PushBack; PushBack]) = Ok s' /\
    machine_reachable s' /\
    freed s' = freed (example_deque 4 1 [PushBack; PushBack]) /\
    numBlocksAllocated s' = numBlocksAllocated (example_deque 4 1 [PushBack; PushBack]) /\
    fFront (example_deque 4 1 [PushBack; PushBack])
      <> fInitialStorage (example_deque 4 1 [PushBack; PushBack]) /\
    0 < fCount s' /\
    pop_front true s' = Ok s'' /\
    machine_reachable s'' /\
    freed s'' = fFront (example_deque 4 1 [PushBack; PushBack]) :: freed s'.
Proof.
  set (s := example_deque 4 1 [PushBack; PushBack]).
  assert (machine_reachable s) as Hm.
  { apply example_deque_machine_reachable;
      [lia | lia | vm_compute; reflexivity | vm_compute; reflexivity]. }
  assert (0 < fCount s) as Hc by reflexivity.
  assert (heap s !! fFront s = Some (mkBlock 1044 NULL 1040 1044 1044)) as Hb
    by (vm_compute; reflexivity).
  assert (fBegin (mkBlock 1044 NULL 1040 1044 1044) <> NULL) as Hlive by (by vm_compute).
  assert (~ fBegin (mkBlock 1044 NULL 1040 1044 1044) + fElemSize s
            < fEnd (mkBlock 1044 NULL 1040 1044 1044)) as Hlast by (by vm_compute).
  assert (fFront s <> fInitialStorage s) as Hne by (vm_compute; discriminate).
  split; [exact Hm |]. split; [exact Hc |].
  destruct (proj1 (lazy_release true s Hm Hc) _ Hb Hlive Hlast)
    as (s' & Hpop & Hm' & Hfreed & _ & _ & Hnum & Hnext & Hex & _).
  assert (0 < fCount s') as Hc'.
  { vm_compute in Hpop. injection Hpop as <-. reflexivity. }
  destruct (Hex eq_refl Hc' Hne) as (s'' & Hpop').
  destruct (Hnext s'' Hne Hc' Hpop') as (Hm'' & Hfreed' & _).
  exists (mkBlock 1044 NULL 1040 1044 1044), s', s''.
  exact (conj Hb (conj Hlive (conj Hlast (conj Hpop (conj Hm' (conj Hfreed (conj Hnum
          (conj Hne (conj Hc' (conj Hpop' (conj Hm'' Hfreed'))))))))))).
Defined.

(** C6, on three elements in Blocks of two, and for the [pop_front] that
    follows. *)
Lemma block_occupancy_invariant_witness :
  machine_reachable (example_deque 4 2 [PushBack; PushBack; PushBack]) /\
  occupancy_all (example_deque 4 2 [PushBack; PushBack; PushBack]) /\
  machine_ok (example_deque 4 2 [PushBack; PushBack; PushBack; PopFront]) /\
  machine_reachable (example_deque 4 2 [PushBack; PushBack; PushBack; PopFront]) /\
  occupancy_all (example_deque 4 2 [PushBack; PushBack; PushBack; PopFront]).
Proof.
  set (s := example_deque 4 2 [PushBack; PushBack; PushBack]).
  assert (machine_reachable s) as Hm.
  { apply example_deque_machine_reachable;
      [lia | lia | vm_compute; reflexivity | vm_compute; reflexivity]. }
  assert (machine_ok (example_deque 4 2 [PushBack; PushBack; PushBack; PopFront])) as Hok.
  { apply machine_okb_ok. vm_compute. reflexivity. }
  split; [exact Hm |].
  destruct (block_occupancy_invariant true s Hm) as (Hs & Hstep).
  split; [exact Hs |]. split; [exact Hok |].
  apply (Hstep PopFront); [intros _; reflexivity | vm_compute; reflexivity | exact Hok].
Defined.

(** C8, on a deque of one element whose front Block is marked empty. *)
Lemma pops_are_safe_witness :
  machine_reachable (example_deque 4 1 [PushBack; PushBack; PopFront]) /\
  0 < fElemSize (example_deque 4 1 [PushBack; PushBack; PopFront]) /\
  0 < fCount (example_deque 4 1 [PushBack; PushBack; PopFront]) /\
  pop_front_ok (example_deque 4 1 [PushBack; PushBack; PopFront]) /\
  pop_back_ok (example_deque 4 1 [PushBack; PushBack; PopFront]) /\
  (exists s', pop_front true (example_deque 4 1 [PushBack; PushBack; PopFront]) = Ok s' /\
              machine_reachable s') /\
  (exists s', pop_back true (example_deque 4 1 [PushBack; PushBack; PopFront]) = Ok s' /\
              machine_reachable s').
Proof.
  set (s := example_deque 4 1 [PushBack; PushBack; PopFront]).
  assert (machine_reachable s) as Hm.
  { apply example_deque_machine_reachable;
      [lia | lia | vm_compute; reflexivity | vm_compute; reflexivity]. }
  assert (0 < fElemSize s) as Hes by reflexivity.
  assert (0 < fCount s) as Hc by reflexivity.
  assert (pop_front_ok s) as Hgf by (intros b _ _; vm_compute; discriminate).
  assert (pop_back_ok s) as Hgb by (intros b _ _; vm_compute; discriminate).
  split; [exact Hm |]. split; [exact Hes |]. split; [exact Hc |].
  split; [exact Hgf |]. split; [exact Hgb |].
  destruct (pops_are_safe true s Hm Hes Hc) as (Hf & Hb & _).
  split; [exact (Hf Hgf) | exact (Hb Hgb)].
Defined.

(** C9, on a chain of three Blocks the first of which is marked empty. *)
Lemma front_back_are_chain_ends_witness :
  reachable (example_deque 4 1 [PushBack; PushBack; PushBack; PopFront]) /\
  last0 (blocks (example_deque 4 1 [PushBack; PushBack; PushBack; PopFront]))
    = fBack (example_deque 4 1 [PushBack; PushBack; PushBack; PopFront]) /\
  numBlocksAllocated (example_deque 4 1 [PushBack; PushBack; PushBack; PopFront])
    = Ok (Z.of_nat (length (blocks (example_deque 4 1 [PushBack; PushBack; PushBack; PopFront])))) /\
  length (blocks (example_deque 4 1 [PushBack; PushBack; PushBack; PopFront]))
    = size (heap (example_deque 4 1 [PushBack; PushBack; PushBack; PopFront])).
Proof.
  set (s := example_deque 4 1 [PushBack; PushBack; PushBack; PopFront]).
  assert (reachable s) as Hr.
  { apply example_deque_reachable; [lia | lia | vm_compute; reflexivity]. }
  split; [exact Hr |].
  destruct (front_back_are_chain_ends s Hr) as (_ & _ & _ & _ & _ & Hl & _ & Hn & Hsz).
  split; [exact Hl |]. split; [exact Hn | exact Hsz].
Defined.

(** C10, for the iterator of the default construction and for the resets
    over a new deque. *)
Lemma exhausted_iterator_is_absorbing_witness :
  Iter.fPos Iter.Iter_new = NULL /\
  Iter.steps true [Iter.Next; Iter.Prev; Iter.Next] (example_deque 4 2 [PushBack]) Iter.Iter_new
    = Ok (replicate (length [Iter.Next; Iter.Prev; Iter.Next]) NULL, Iter.Iter_new) /\
  reachable (example_deque 4 2 []) /\
  fCount (example_deque 4 2 []) = 0 /\
  forall startLoc, exists it,
    Iter.Iter_at (example_deque 4 2 []) startLoc = Ok it /\
    Iter.reset (example_deque 4 2 []) startLoc = Ok it /\
    Iter.fPos it = NULL.
Proof.
  assert (reachable (example_deque 4 2 [])) as Hr.
  { apply example_deque_reachable; [lia | lia | reflexivity]. }
  assert (Iter.fPos Iter.Iter_new = NULL) as Hnew by reflexivity.
  split; [exact Hnew |].
  split.
  - destruct (exhausted_iterator_is_absorbing true (example_deque 4 2 [PushBack]))
      as (Habs & _).
    destruct (Habs Iter.Iter_new Hnew) as (_ & _ & Hsteps).
    exact (Hsteps [Iter.Next; Iter.Prev; Iter.Next]).
  - split; [exact Hr |]. split; [reflexivity |].
    destruct (exhausted_iterator_is_absorbing true (example_deque 4 2 []))
      as (_ & _ & Hreset & _).
    exact (Hreset Hr eq_refl).
Defined.

(** ** What does hold of [front()] and [back()] *)

(** In every state of a deque within the machine's range the count is not
    negative and fits an [int].  For elements of
    at least one byte and a count above 0, [front()] returns the first slot
    and [back()] the last one, neither of them null, with and without the
    assertions; and without the assertions [front()] is null exactly when
    the count is 0. *)
Theorem count_nonnegative_ends_nonnull (debug : bool) (s : State) :
  machine_reachable s ->
  0 <= fCount s <= INT_MAX /\
  (0 < fElemSize s -> 0 < fCount s ->
   exists pf pb c1 c2,
     front debug s = Ok pf /\ pf <> NULL /\ contents s = pf :: c1 /\
     back debug s = Ok pb /\ pb <> NULL /\ contents s = c2 ++ [pb]) /\
  (0 < fElemSize s -> (front false s = Ok NULL <-> fCount s = 0)).
Proof.
  intros Hm. pose proof (machine_reachable_reachable s Hm) as Hr.
  pose proof (count_nonneg s Hr) as Hnn.
  destruct (machine_reachable_ok s Hm) as (Hmax & _).
  destruct (reachable_Inv s Hr) as [l I].
  split; [done |]. split.
  - intros Hes Hc. rewrite (contents_Inv s l I).
    destruct (front_spec debug s l I Hes Hc) as (pf & c1 & Hc1 & Hf & Hpf).
    destruct (back_spec debug s l I Hes Hc) as (pb & c2 & Hc2 & Hb & Hpb).
    by exists pf, pb, c1, c2.
  - intros Hes. split.
    + intros Hf. destruct (decide (fCount s = 0)) as [| Hne]; [done |].
      destruct (front_spec false s l I Hes) as (pf & _ & _ & Hf' & Hpf); [lia |].
      rewrite Hf in Hf'. by injection Hf' as <-.
    + by apply (front_spec_empty s l).
Qed.

(** On a deque of one element whose front Block is marked empty. *)
Lemma count_nonnegative_ends_nonnull_witness :
  machine_reachable (example_deque 4 1 [PushBack; PushBack; PopFront]) /\
  0 < fElemSize (example_deque 4 1 [PushBack; PushBack; PopFront]) /\
  0 < fCount (example_deque 4 1 [PushBack; PushBack; PopFront]) /\
  exists pf pb c1 c2,
    front true (example_deque 4 1 [PushBack; PushBack; PopFront]) = Ok pf /\ pf <> NULL /\
    contents (example_deque 4 1 [PushBack; PushBack; PopFront]) = pf :: c1 /\
    back true (example_deque 4 1 [PushBack; PushBack; PopFront]) = Ok pb /\ pb <> NULL /\
    contents (example_deque 4 1 [PushBack; PushBack; PopFront]) = c2 ++ [pb].
Proof.
  set (s := example_deque 4 1 [PushBack; PushBack; PopFront]).
  assert (machine_reachable s) as Hm.
  { apply example_deque_machine_reachable;
      [lia | lia | vm_compute; reflexivity | vm_compute; reflexivity]. }
  assert (0 < fElemSize s) as Hes by reflexivity.
  assert (0 < fCount s) as Hc by reflexivity.
  split; [exact Hm |]. split; [exact Hes |]. split; [exact Hc |].
  exact (proj1 (proj2 (count_nonnegative_ends_nonnull true s Hm)) Hes Hc).
Defined.

(** ** The destructor *)

Lemma free_all_freed init l s :
  NULL ∉ l ->
  freed (free_all init l s) = rev (filter (fun a => a <> init) l) ++ freed s.
Proof.
  revert s. induction l as [|a l IH]; intros s Hn; [done |].
  cbn [free_all]. rewrite IH by set_solver.
  assert (a <> NULL) as Ha by set_solver.
  destruct (decide (a <> init)) as [Hne | Heq].
  - rewrite filter_cons_True by done. cbn [rev]. rewrite <- app_assoc.
    unfold freeBlock. rewrite sk_free_nonnull by done. by destruct s.
  - by rewrite filter_cons_False by done.
Qed.

Lemma free_all_heap init l s a :
  NULL ∉ l ->
  heap (free_all init l s) !! a =
    if decide (a ∈ l /\ a <> init) then None else heap s !! a.
Proof.
  revert s. induction l as [|x l IH]; intros s Hn.
  - cbn [free_all]. rewrite decide_False by set_solver. done.
  - cbn [free_all]. rewrite IH by set_solver.
    assert (x <> NULL) as Hx by set_solver.
    destruct (decide (a ∈ l /\ a <> init)) as [[Hin Hne] | Hno].
    + rewrite decide_True by set_solver. done.
    + destruct (decide (x <> init)) as [Hxi | Hxi].
      * unfold freeBlock. rewrite sk_free_nonnull by done.
        destruct (decide (a = x)) as [-> | Hax].
        -- rewrite decide_True by set_solver. destruct s; cbn. by rewrite lookup_delete_eq.
        -- rewrite decide_False by set_solver. destruct s; cbn. by rewrite lookup_delete_ne.
      * rewrite decide_False; [done |]. intros [Hin Hne].
        apply elem_of_cons in Hin as [-> | Hin]; [done | by apply Hno].
Qed.

Lemma free_all_fields init l s :
  fElemSize (free_all init l s) = fElemSize s /\
  fInitialStorage (free_all init l s) = fInitialStorage s /\
  fCount (free_all init l s) = fCount s /\
  fFront (free_all init l s) = fFront s /\
  fBack (free_all init l s) = fBack s /\
  brk (free_all init l s) = brk s.
Proof.
  revert s. induction l as [|x l IH]; intros s; [done |].
  cbn [free_all]. destruct (IH (if decide (x <> init) then freeBlock x s else s))
    as (-> & -> & -> & -> & -> & ->).
  destruct (decide (x <> init)); [| done].
  unfold freeBlock, sk_free. destruct (decide (x = NULL)); by destruct s.
Qed.

(** The loop follows the chain: it reads [fNext] of a Block before it
    frees the Block, and the Blocks still to come are untouched. *)
Lemma SkDeque_delete_loop_chain h0 f k l init l2 : forall l1 s fuel,
  chain h0 f k l -> l = l1 ++ l2 ->
  (forall a, a ∈ l2 -> heap s !! a = h0 !! a) ->
  (length l2 < fuel)%nat ->
  SkDeque_delete_loop fuel init (head0 l2) s = Ok (free_all init l2 s).
Proof.
  induction l2 as [|a l2 IH]; intros l1 s fuel C Hl Hsame Hfuel.
  - destruct fuel; [simpl in Hfuel; lia |]. cbn. done.
  - destruct fuel as [|fuel]; [simpl in Hfuel; lia |]. cbn [length] in Hfuel.
    destruct (chain_links _ _ _ _ C _ _ _ Hl) as (b & Hb & _ & Hnx).
    assert (a <> NULL) as Ha.
    { intros ->. apply (chain_nonnull _ _ _ _ C). rewrite Hl. set_solver. }
    rewrite head0_cons. cbn [SkDeque_delete_loop free_all].
    rewrite decide_False by done.
    rewrite (load_Some s a b) by (first [done | rewrite Hsame by set_solver; done]).
    cbn [bind]. rewrite Hnx.
    apply (IH (l1 ++ [a])); [done | by rewrite <- app_assoc | | lia].
    intros a' Ha'. rewrite <- Hsame by set_solver.
    destruct (decide (a <> init)); [| done].
    unfold freeBlock. rewrite sk_free_nonnull by done.
    assert (a' <> a) as Hne.
    { intros ->. pose proof (chain_nodup _ _ _ _ C) as Hnd. rewrite Hl in Hnd.
      apply NoDup_app in Hnd as (_ & _ & Hnd). apply NoDup_cons in Hnd as [Hnd _]. done. }
    destruct s; cbn. by rewrite lookup_delete_ne.
Qed.

Lemma SkDeque_delete_chain s l :
  chain (heap s) (fFront s) (fBack s) l ->
  SkDeque_delete s = Ok (free_all (fInitialStorage s) l s).
Proof.
  intros C. unfold SkDeque_delete. rewrite (chain_front _ _ _ _ C).
  apply (SkDeque_delete_loop_chain (heap s) _ _ l _ l [] s _ C); [done | done |].
  rewrite (chain_size _ _ _ _ C). lia.
Qed.

(** ** Blocks are freed once *)

Lemma rev_reverse {A} (l : list A) : rev l = reverse l.
Proof. unfold reverse. apply rev_alt. Qed.

Lemma heap_below_brk s l a :
  Inv s l -> is_Some (heap s !! a) -> a < brk s.
Proof.
  intros I [b Hb]. pose proof (inv_blocks _ _ I _ _ Hb) as (Ha & Hcap & Hlim & _).
  pose proof (inv_es _ _ I). pose proof sizeof_Block_pos. unfold start in *. lia.
Qed.

Lemma apply_op_freed_ok debug o s s' :
  reachable s -> freed_ok s -> apply_op debug o s = Ok s' -> freed_ok s'.
Proof.
  intros Hr [Hnd Hfr] Hrun. destruct (reachable_Inv s Hr) as [l I].
  destruct (apply_op_grows debug o s l s' I Hrun) as (_ & Hbrk & Hkeys).
  assert (Hold : forall a, a ∈ freed s -> heap s' !! a = None /\ a < brk s').
  { intros a Ha. destruct (Hfr a Ha) as [Hnone Hlt]. split; [| lia].
    destruct (heap s' !! a) as [b|] eqn:Hb; [| done].
    destruct (Hkeys a) as [[b0 H0] | H0]; [by eexists | congruence | lia]. }
  destruct (release_cases debug s o s' Hr Hrun)
    as [Hf | [(_ & b & Hb & _ & Hf & Hgone & _) | (_ & b & Hb & _ & Hf & Hgone & _)]].
  - split; rewrite Hf; done.
  - split; rewrite Hf.
    + apply NoDup_cons. split; [| done]. intros Hin.
      destruct (Hfr _ Hin) as [Hnone _]. congruence.
    + intros x Hx. apply elem_of_cons in Hx as [-> | Hx]; [| by apply Hold].
      split; [done |]. pose proof (heap_below_brk s l (fFront s) I ltac:(by eexists)). lia.
  - split; rewrite Hf.
    + apply NoDup_cons. split; [| done]. intros Hin.
      destruct (Hfr _ Hin) as [Hnone _]. congruence.
    + intros x Hx. apply elem_of_cons in Hx as [-> | Hx]; [| by apply Hold].
      split; [done |]. pose proof (heap_below_brk s l (fBack s) I ltac:(by eexists)). lia.
Qed.

Lemma reachable_freed_ok s : reachable s -> freed_ok s.
Proof.
  induction 1 as [es ac brk0 s Hes Hbrk Hnew | es sto sz ac brk0 s Hes Hsto Hsz Hfit Hbrk Hnew
                  | o s s' Hr IH Hv Hrun].
  - unfold SkDeque_new in Hnew. destruct (SkASSERT true _); cbn [bind] in Hnew; try discriminate.
    injection Hnew as <-. split; [apply NoDup_nil_2 | intros x Hx; cbn in Hx; set_solver].
  - unfold SkDeque_new_storage in Hnew.
    destruct (SkASSERT true _); cbn [bind] in Hnew; try discriminate.
    destruct (SkASSERT true _); cbn [bind] in Hnew; try discriminate.
    injection Hnew as <-.
    split; [case_decide; apply NoDup_nil_2 | intros x Hx; case_decide; cbn in Hx; set_solver].
  - by apply (apply_op_freed_ok false o s s').
Qed.

(** Every Block is passed to [sk_free] at most once, whatever the pushes
    and pops, and a Block that was passed is no Block of the deque any
    more: it is neither in the heap nor in the chain. *)
Theorem no_block_is_freed_twice (s : State) :
  reachable s ->
  NoDup (freed s) /\
  forall a, a ∈ freed s -> heap s !! a = None /\ a ∉ blocks s.
Proof.
  intros Hr. destruct (reachable_freed_ok s Hr) as [Hnd Hfr].
  destruct (reachable_Inv s Hr) as [l I]. pose proof (inv_chain _ _ I) as C.
  split; [done |]. intros a Ha. destruct (Hfr a Ha) as [Hnone _].
  split; [done |]. rewrite (blocks_chain s l C).
  intros Hin. apply (chain_dom _ _ _ _ C) in Hin as [b Hb]. congruence.
Qed.

Lemma destructor_frees_allocated_blocks_aux s :
  reachable s ->
  exists s',
    SkDeque_delete s = Ok s' /\
    freed s' = (rev (filter (fun a => a <> fInitialStorage s) (blocks s)) ++ freed s) /\
    NoDup (freed s') /\
    forall a, heap s' !! a =
      if decide (a = fInitialStorage s) then heap s !! a else None.
Proof.
  intros Hr. destruct (reachable_freed_ok s Hr) as [Hnd Hfr].
  destruct (reachable_Inv s Hr) as [l I]. pose proof (inv_chain _ _ I) as C.
  pose proof (chain_nonnull _ _ _ _ C) as Hnn.
  exists (free_all (fInitialStorage s) l s).
  rewrite (blocks_chain s l C).
  split; [by apply SkDeque_delete_chain |].
  split; [by apply free_all_freed |].
  split.
  - rewrite free_all_freed by done. apply NoDup_app. split; [| split; [| done]].
    + rewrite rev_reverse, reverse_Permutation.
      apply NoDup_filter, (chain_nodup _ _ _ _ C).
    + intros a Ha Hfa. rewrite rev_reverse in Ha.
      apply elem_of_reverse, list_elem_of_filter in Ha as [_ Ha].
      apply (chain_dom _ _ _ _ C) in Ha as [b Hb].
      destruct (Hfr a Hfa) as [Hnone _]. congruence.
  - intros a. rewrite free_all_heap by done.
    destruct (decide (a = fInitialStorage s)) as [-> | Hne].
    + rewrite decide_False; [done |]. by intros [_ ?].
    + destruct (decide (a ∈ l)) as [Hin | Hnin].
      * by rewrite decide_True.
      * rewrite decide_False by (by intros [? _]).
        destruct (heap s !! a) as [b|] eqn:Hb; [| done].
        exfalso. apply Hnin, (chain_dom _ _ _ _ C). by eexists.
Qed.

(** ** Where the slots lie *)

Lemma apart_lookup es c (i j : nat) x y :
  apart es c -> i <> j -> c !! i = Some x -> c !! j = Some y ->
  x + es <= y \/ y + es <= x.
Proof.
  revert i j. induction c as [|z c IH]; intros i j Hap Hij Hi Hj; [done |].
  destruct Hap as [Hz Hap]. destruct i as [|i], j as [|j]; cbn in Hi, Hj.
  - done.
  - injection Hi as ->. apply Hz. by eapply list_elem_of_lookup_2.
  - injection Hj as ->. destruct (Hz x); [by eapply list_elem_of_lookup_2 | |]; lia.
  - apply (IH i j); [done | lia | done | done].
Qed.

(** For elements of at least one byte, in a deque within the machine's
    range, the slots of the elements lie in the chunks of the Blocks of the
    chain, below the allocator and so within the address space; no two of
    them overlap, and none overlaps the header of a Block. *)
Theorem slots_are_inside_and_disjoint (s : State) :
  machine_reachable s -> 0 < fElemSize s ->
  (forall (i j : nat) x y, i <> j ->
     contents s !! i = Some x -> contents s !! j = Some y ->
     x + fElemSize s <= y \/ y + fElemSize s <= x) /\
  (forall x, x ∈ contents s ->
     (exists a b, a ∈ blocks s /\ heap s !! a = Some b /\
        start a <= x /\ x + fElemSize s <= fStop b /\ fStop b <= brk s /\
        brk s <= SIZE_MAX) /\
     (forall a' b', heap s !! a' = Some b' ->
        x + fElemSize s <= a' \/ a' + sizeof_Block <= x)).
Proof.
  intros Hm Hes. pose proof (machine_reachable_reachable s Hm) as Hr.
  destruct (machine_reachable_ok s Hm) as (_ & _ & _ & Hmax & _).
  destruct (reachable_Inv s Hr) as [l I].
  pose proof (inv_chain _ _ I) as C.
  rewrite (contents_Inv s l I), (blocks_chain s l C).
  split.
  - intros i j x y. apply apart_lookup. by apply Inv_apart.
  - intros x Hx. unfold contents_of in Hx.
    apply list_elem_of_bind in Hx as (a & Hx & Ha). unfold slots_at in Hx.
    destruct (heap s !! a) as [b|] eqn:Hb; [| set_solver].
    pose proof (inv_blocks _ _ I _ _ Hb) as Hok.
    destruct (slots_range _ _ _ _ _ Hok Hes Hx) as [Hlo Hhi].
    assert (fStop b <= brk s) as Hlim by (by destruct Hok as (_ & _ & ? & _)).
    split; [exists a, b; repeat (split; [done |]); lia |].
    intros a' b' Hb'. pose proof sizeof_Block_pos. unfold start in *.
    destruct (decide (a' = a)) as [-> | Hne]; [right; lia |].
    pose proof (inv_blocks _ _ I _ _ Hb') as (_ & Hcap' & _). unfold start in Hcap'.
    destruct (inv_disjoint _ _ I a b a' b' Hb Hb' ltac:(done)); [left | right]; lia.
Qed.

(** ** Pushes and pops on the contents *)

(** A push on a deque within the machine's range returns and frees
    nothing.  If the state it leads to is within the range again, the count
    is one more; and for elements of at least one byte the slot returned is
    new and not null; it is added at the end pushed to, the slots of the
    other elements staying where they were; and it is what [back()], for
    [push_back], or [front()], for [push_front], returns next. *)
Theorem push_adds_the_returned_slot (debug : bool) (s : State) :
  machine_reachable s ->
  (exists p s',
     push_back s = Ok (p, s') /\ freed s' = freed s /\
     (machine_ok s' ->
      machine_reachable s' /\ fCount s' = fCount s + 1 /\
      (0 < fElemSize s ->
       p <> NULL /\ (p ∉ contents s) /\ contents s' = contents s ++ [p] /\
       back debug s' = Ok p))) /\
  (exists p s',
     push_front s = Ok (p, s') /\ freed s' = freed s /\
     (machine_ok s' ->
      machine_reachable s' /\ fCount s' = fCount s + 1 /\
      (0 < fElemSize s ->
       p <> NULL /\ (p ∉ contents s) /\ contents s' = p :: contents s /\
       front debug s' = Ok p))).
Proof.
  intros Hm. pose proof (machine_reachable_reachable s Hm) as Hr.
  destruct (reachable_Inv s Hr) as [l I].
  pose proof (count_nonneg s Hr) as Hnn.
  rewrite (contents_Inv s l I). split.
  - destruct (push_back_spec s l I) as (p & s' & l' & Hp & I' & (Hes' & _) & Hc & Hf & Hcont & _).
    exists p, s'. split; [done |]. split; [done |]. intros Hok.
    split.
    { apply (mreach_step PushBack s s'); [done | done | | done].
      cbn [apply_op]. by rewrite Hp. }
    split; [done |].
    intros Hes. specialize (Hcont Hes). rewrite (contents_Inv s' l' I'), Hes', Hcont.
    assert (0 < fElemSize s') as Hes1 by lia.
    destruct (back_spec debug s' l' I' Hes1 ltac:(lia)) as (p' & c' & Hc' & Hb & Hpn).
    rewrite Hes', Hcont in Hc'. apply app_inj_tail in Hc' as [_ <-].
    pose proof (Inv_apart s' l' I' Hes1) as Hap. rewrite Hes', Hcont in Hap.
    apply apart_app in Hap as (_ & _ & Hap).
    split; [done |]. split; [| done].
    intros Hin. destruct (Hap p p Hin); [set_solver | |]; lia.
  - destruct (push_front_spec s l I) as (p & s' & l' & Hp & I' & (Hes' & _) & Hc & Hf & Hcont & _).
    exists p, s'. split; [done |]. split; [done |]. intros Hok.
    split.
    { apply (mreach_step PushFront s s'); [done | done | | done].
      cbn [apply_op]. by rewrite Hp. }
    split; [done |].
    intros Hes. specialize (Hcont Hes). rewrite (contents_Inv s' l' I'), Hes', Hcont.
    assert (0 < fElemSize s') as Hes1 by lia.
    destruct (front_spec debug s' l' I' Hes1 ltac:(lia)) as (p' & c' & Hc' & Hb & Hpn).
    rewrite Hes', Hcont in Hc'. injection Hc' as <- _.
    pose proof (Inv_apart s' l' I' Hes1) as Hap. rewrite Hes', Hcont in Hap.
    destruct Hap as [Hap _].
    split; [done |]. split; [| done].
    intros Hin. destruct (Hap p Hin); lia.
Qed.

(** For elements of at least one byte and a deque within the machine's
    range that holds an element, a pop that does not pass the caller's
    storage to [sk_free] returns, and leads to a state within the range:
    [pop_front] removes the slot [front()] returns and [pop_back] the slot
    [back()] returns, and nothing else: the other slots stay where they
    were, in their order. *)
Theorem pop_removes_the_end_slot (debug : bool) (s : State) :
  machine_reachable s -> 0 < fElemSize s -> 0 < fCount s ->
  (pop_front_ok s ->
   exists p s',
     front debug s = Ok p /\ pop_front debug s = Ok s' /\ machine_reachable s' /\
     contents s = p :: contents s' /\ fCount s' = fCount s - 1) /\
  (pop_back_ok s ->
   exists p s',
     back debug s = Ok p /\ pop_back debug s = Ok s' /\ machine_reachable s' /\
     contents s = contents s' ++ [p] /\ fCount s' = fCount s - 1).
Proof.
  intros Hm Hes Hc. pose proof (machine_reachable_reachable s Hm) as Hr.
  destruct (reachable_Inv s Hr) as [l I].
  rewrite (contents_Inv s l I). split.
  - intros Hguard.
    destruct (front_spec debug s l I Hes Hc) as (p & c & Hcont & Hf & _).
    destruct (pop_front_spec debug s l I Hes Hc)
      as (p' & s' & l' & Hpop & I' & (Hes' & _) & Hc' & Hcont').
    destruct (pop_front_machine debug s s' Hm Hc Hguard Hpop) as [Hm' _].
    exists p, s'. rewrite (contents_Inv s' l' I'), Hes'.
    rewrite Hcont in Hcont'. injection Hcont' as -> ->.
    rewrite Hcont. done.
  - intros Hguard.
    destruct (back_spec debug s l I Hes Hc) as (p & c & Hcont & Hf & _).
    destruct (pop_back_spec debug s l I Hes Hc)
      as (p' & s' & l' & Hpop & I' & (Hes' & _) & Hc' & Hcont').
    destruct (pop_back_machine debug s s' Hm Hc Hguard Hpop) as [Hm' _].
    exists p, s'. rewrite (contents_Inv s' l' I'), Hes'.
    rewrite Hcont in Hcont'. apply app_inj_tail in Hcont' as [-> ->].
    rewrite Hcont. done.
Qed.

(** ** How many Blocks a deque keeps *)

Lemma contents_of_length_live es h l :
  (forall a, a ∈ l -> slots_at es h a <> []) ->
  (length l <= length (contents_of es h l))%nat.
Proof.
  induction l as [|a l IH]; intros Hlive; [done |].
  rewrite contents_of_cons, length_app. cbn [length].
  specialize (IH ltac:(intros; apply Hlive; set_solver)).
  specialize (Hlive a ltac:(set_solver)).
  destruct (slots_at es h a); [done | cbn [length]; lia].
Qed.

Lemma Inv_blocks_bound s l :
  Inv s l -> 0 < fElemSize s -> Z.of_nat (length l) <= fCount s + 2.
Proof.
  intros I Hes. rewrite (inv_count _ _ I Hes).
  destruct l as [|a0 l]; [cbn [length]; lia |].
  destruct (list_snoc_case l) as [-> | (mid & z & ->)]; [cbn [length]; lia |].
  rewrite contents_of_cons, contents_of_snoc. cbn [length]. rewrite !length_app. cbn [length].
  assert (length mid <= length (contents_of (fElemSize s) (heap s) mid))%nat; [| lia].
  apply contents_of_length_live. intros a Ha.
  apply list_elem_of_split in Ha as (m1 & m2 & ->).
  destruct (chain_links _ _ _ _ (inv_chain _ _ I) (a0 :: m1) a (m2 ++ [z]))
    as (b & Hb & _); [by rewrite <- app_assoc |].
  pose proof (inv_middle _ _ I Hes (a0 :: m1) a (m2 ++ [z]) b) as Hlive.
  specialize (Hlive ltac:(by rewrite <- app_assoc) ltac:(done)
                    ltac:(by destruct m2) Hb).
  unfold slots_at. rewrite Hb. intros Hnil.
  by destruct (slots_nil_dead _ _ _ _ (inv_blocks _ _ I _ _ Hb) Hes Hnil).
Qed.

Lemma reachable_blocks_bound s l :
  reachable s -> Inv s l -> Z.of_nat (length l) <= fCount s + 2.
Proof.
  intros Hr I. pose proof (inv_chain _ _ I) as C. pose proof (inv_es _ _ I) as Hes.
  destruct (decide (fElemSize s = 0)) as [Hz | Hnz].
  - destruct (reachable_InvZ s Hr Hz) as (Hsz & Hc & _).
    rewrite (chain_size _ _ _ _ C) in Hsz. lia.
  - apply Inv_blocks_bound; [done | lia].
Qed.

(** A deque within the machine's range never keeps more Blocks than it
    holds elements, two apart: a Block marked empty is kept at either end
    only.  An empty deque has two Blocks at most.  The number of Blocks
    fits the [int] that [numBlocksAllocated] counts in. *)
Theorem at_most_two_spare_blocks (s : State) :
  machine_reachable s ->
  exists n : nat,
    numBlocksAllocated s = Ok (Z.of_nat n) /\ length (blocks s) = n /\
    Z.of_nat n <= fCount s + 2 /\ Z.of_nat n <= INT_MAX.
Proof.
  intros Hm. pose proof (machine_reachable_reachable s Hm) as Hr.
  destruct (machine_reachable_ok s Hm) as (_ & _ & Hsz & _).
  destruct (reachable_Inv s Hr) as [l I].
  pose proof (inv_chain _ _ I) as C. pose proof (inv_es _ _ I) as Hes.
  exists (length l). split; [by apply numBlocksAllocated_chain |].
  split; [by rewrite (blocks_chain s l C) |].
  split; [by apply reachable_blocks_bound |].
  by rewrite <- (chain_size _ _ _ _ C).
Qed.

(** ** Pushes that need no new Block *)

(** [push_back] into a back Block with room after [fEnd]. *)
Lemma push_back_in_place es sto cnt ac fr a (h : gmap Z Block) br fre b :
  a <> NULL -> fBegin b <> NULL -> fEnd b + es <= fStop b ->
  push_back (mkState es sto cnt ac fr a (<[a := b]> h) br fre) =
    Ok (fEnd b + es - es,
        mkState es sto (cnt + 1) ac fr a (<[a := set_fEnd (fEnd b + es) b]> h) br fre).
Proof.
  intros Ha Hlive Hroom.
  unfold push_back. ev. dec_false. do_load. dec_false. dec_false.
  do_poke. by rewrite insert_insert_eq.
Qed.

(** [push_back] into a back Block marked empty. *)
Lemma push_back_into_empty es sto cnt ac fr a (h : gmap Z Block) br fre b :
  a <> NULL -> fBegin b = NULL ->
  push_back (mkState es sto cnt ac fr a (<[a := b]> h) br fre) =
    Ok (start a + es - es,
        mkState es sto (cnt + 1) ac fr a
          (<[a := set_fEnd (start a + es) (set_fBegin (start a) b)]> h) br fre).
Proof.
  intros Ha Hdead.
  unfold push_back. ev. dec_false. do_load. dec_true.
  unfold push_back_init_chunk. do_poke. do_load. do_poke.
  by rewrite !insert_insert_eq.
Qed.

(** [push_back] when the back Block is full: a Block is allocated. *)
Lemma push_back_new_block es sto cnt ac fr a (h : gmap Z Block) br fre b :
  a <> NULL -> br <> NULL -> a <> br -> fBegin b <> NULL -> fEnd b + es > fStop b ->
  exists h',
    push_back (mkState es sto cnt ac fr a (<[a := b]> h) br fre) =
      Ok (start br + es - es,
          mkState es sto (cnt + 1) ac fr br h' (br + (sizeof_Block + ac * es)) fre) /\
    is_Some (h' !! br) /\ is_Some (h' !! a).
Proof.
  intros Ha Hbr Hne Hlive Hfull. eexists. split.
  { unfold push_back. ev. dec_false. do_load. dec_false. dec_true.
    do_poke. do_poke. unfold push_back_init_chunk. do_poke. do_load. do_poke.
    reflexivity. }
  split.
  - rewrite lookup_insert_eq. by eexists.
  - rewrite lookup_insert_ne, lookup_insert_ne, lookup_insert_eq by done. by eexists.
Qed.

Lemma push_backs_in_place debug es sto ac fr a (h : gmap Z Block) br fre (m : nat) :
  forall cnt b,
  a <> NULL -> 0 <= es -> fBegin b <> NULL -> fEnd b + Z.of_nat m * es <= fStop b ->
  run debug (replicate m PushBack) (mkState es sto cnt ac fr a (<[a := b]> h) br fre) =
    Ok (mkState es sto (cnt + Z.of_nat m) ac fr a
          (<[a := set_fEnd (fEnd b + Z.of_nat m * es) b]> h) br fre).
Proof.
  induction m as [|m IH]; intros cnt b Ha Hes Hlive Hroom.
  - cbn [replicate run]. do 2 f_equal; [lia |].
    f_equal. destruct b; unfold set_fEnd; cbn. f_equal. lia.
  - cbn [replicate run valid_op is_pop negb orb apply_op].
    rewrite push_back_in_place by (done || nia). cbn [bind snd].
    rewrite IH; [| done | done | done | cbn; nia].
    do 2 f_equal; [lia |]. f_equal. destruct b; unfold set_fEnd; cbn. f_equal. lia.
Qed.

(** ** The caller's storage *)

(** A deque over a storage that has room for the header and [k >= 1]
    elements takes its first [k] elements of [push_back] into this storage,
    one after the other from [start()] on: nothing is allocated, nothing is
    freed, and the caller's Block is the only one.  If the storage has no
    room for one element more, the next [push_back] allocates a Block and
    puts the element there. *)
Theorem inline_storage_holds_first_elements
    (debug : bool) (es storage size ac brk0 : Z) (k : nat) :
  0 < es -> 0 < storage -> 1 <= ac -> (1 <= k)%nat ->
  sizeof_Block + Z.of_nat k * es <= size ->
  exists s0 s,
    SkDeque_new_storage debug es storage size ac brk0 = Ok s0 /\
    run debug (replicate k PushBack) s0 = Ok s /\
    fCount s = Z.of_nat k /\ brk s = brk0 /\ freed s = [] /\
    blocks s = [storage] /\ numBlocksAllocated s = Ok 1 /\
    contents s = slots_from (start storage) es k /\
    (size < sizeof_Block + (Z.of_nat k + 1) * es -> 0 < brk0 -> storage <> brk0 ->
     exists p s',
       push_back s = Ok (p, s') /\ p = start brk0 /\
       brk s' = brk0 + (sizeof_Block + ac * es) /\ fBack s' = brk0 /\
       is_Some (heap s' !! brk0) /\ is_Some (heap s' !! storage)).
Proof.
  intros Hes Hsto Hac Hk Hfit. destruct k as [|m]; [lia |].
  pose proof sizeof_Block_pos as Hhdr.
  assert (storage <> NULL) as Hnn by (unfold NULL; lia).
  set (b0 := Block_init storage size).
  set (b1 := set_fEnd (start storage + es) (set_fBegin (start storage) b0)).
  set (b2 := set_fEnd (fEnd b1 + Z.of_nat m * es) b1).
  exists (mkState es storage 0 ac storage storage (<[storage := b0]> ∅) brk0 []).
  exists (mkState es storage (0 + 1 + Z.of_nat m) ac storage storage
            (<[storage := b2]> ∅) brk0 []).
  assert (Hb2 : (<[storage := b2]> (∅ : gmap Z Block)) !! storage = Some b2)
    by apply lookup_insert_eq.
  assert (Hlive : fBegin b2 <> NULL) by (cbn; unfold start, NULL; lia).
  assert (Hend : fEnd b2 = fBegin b2 + Z.of_nat (S m) * es) by (cbn; lia).
  assert (Hblocks : blocks (mkState es storage (0 + 1 + Z.of_nat m) ac storage storage
                              (<[storage := b2]> ∅) brk0 []) = [storage]).
  { unfold blocks. cbn [heap fFront]. rewrite insert_empty, map_size_singleton.
    cbn [walk]. rewrite decide_False by done. by rewrite lookup_singleton_eq. }
  split.
  { unfold SkDeque_new_storage.
    rewrite SkASSERT_holds by (by right). cbn [bind].
    rewrite SkASSERT_holds by lia. cbn [bind].
    rewrite decide_True by nia. reflexivity. }
  split.
  { cbn [replicate run valid_op is_pop negb orb apply_op].
    rewrite push_back_into_empty by done. cbn [bind snd].
    apply push_backs_in_place; [done | lia | cbn; unfold start, NULL; lia |].
    cbn. unfold start. nia. }
  split; [cbn; lia |]. split; [done |]. split; [done |]. split; [done |].
  split; [| split].
  - unfold numBlocksAllocated. cbn [heap fFront].
    rewrite insert_empty, map_size_singleton. cbn [numBlocks_loop].
    rewrite decide_False by done.
    rewrite (load_Some _ storage b2) by (first [done | apply lookup_singleton_eq]).
    cbn [bind]. rewrite decide_True by done. done.
  - unfold contents. rewrite Hblocks. cbn [heap fElemSize].
    change [storage] with ([] ++ [storage]).
    rewrite contents_of_snoc, contents_of_nil. cbn [app].
    unfold slots_at. rewrite Hb2. by rewrite (slots_live es b2 (S m)).
  - intros Hfull Hbrk Hne.
    destruct (push_back_new_block es storage (0 + 1 + Z.of_nat m) ac storage storage ∅
                brk0 [] b2) as (h' & Hpush & Hnew & Hold);
      [done | unfold NULL; lia | done | done | cbn; unfold start; nia |].
    eexists _, _. split; [exact Hpush |]. split; [lia | done].
Qed.

Lemma run_grows debug os : forall s l s',
  Inv s l -> run debug os s = Ok s' -> grows s s'.
Proof.
  induction os as [|o os IH]; intros s l s' I Hrun; cbn [run] in Hrun.
  - injection Hrun as <-. apply grows_refl.
  - destruct (valid_op o s) eqn:Hv; [| discriminate].
    apply bind_Ok_inv in Hrun as (s1 & Hop & Hrun).
    destruct (apply_op_Inv o s s1 l I) as [l1 I1].
    { intros Hp. unfold valid_op in Hv. rewrite Hp in Hv. cbn in Hv.
      by apply bool_decide_eq_true_1 in Hv. }
    { by apply (apply_op_release debug). }
    eapply grows_trans; [by eapply apply_op_grows | by eapply IH].
Qed.

(** A storage too small for the header and one element is left alone
    (the sum of the two sizes not wrapping): the deque starts without a
    Block, as with the other constructor, within the machine's range, and
    every Block it has after operations that stay within the range comes
    from the allocator, none lying in the caller's storage. *)
Theorem small_storage_is_not_used
    (debug : bool) (es storage size ac brk0 : Z) :
  0 <= es -> 0 <= storage -> 0 <= size -> storage + size <= brk0 ->
  storage < brk0 -> 0 < brk0 ->
  size = 0 \/ storage <> NULL -> 1 <= ac <= INT_MAX ->
  sizeof_Block + es <= SIZE_MAX -> brk0 + es <= SIZE_MAX ->
  size < sizeof_Block + es ->
  exists s0,
    SkDeque_new_storage debug es storage size ac brk0 = Ok s0 /\
    machine_reachable s0 /\
    fFront s0 = NULL /\ fBack s0 = NULL /\ heap s0 = ∅ /\
    numBlocksAllocated s0 = Ok 0 /\
    forall os, machine_run os s0 = true ->
      exists s, run false os s0 = Ok s /\ machine_reachable s /\
        forall a, is_Some (heap s !! a) -> brk0 <= a /\ storage + size <= a.
Proof.
  intros Hes Hsto Hsize Hfit Hlow Hbrk Hnull Hac Hsum Hmax Hsmall.
  assert (Hnew : forall d, SkDeque_new_storage d es storage size ac brk0 =
            Ok (mkState es storage 0 ac NULL NULL ∅ brk0 [])).
  { intros d. unfold SkDeque_new_storage.
    rewrite SkASSERT_holds by done. cbn [bind].
    rewrite SkASSERT_holds by lia. cbn [bind].
    rewrite decide_False by lia. reflexivity. }
  assert (machine_reachable (mkState es storage 0 ac NULL NULL ∅ brk0 [])) as Hm0.
  { apply (mreach_new_storage es storage size ac brk0); try done.
    pose proof INT_MAX_pos. unfold machine_ok. proj.
    split; [lia |]. split; [lia |]. split; [rewrite map_size_empty; lia |]. split; [done |].
    split; [apply map_Forall_empty |]. split; [done | apply not_elem_of_nil]. }
  eexists. split; [apply Hnew |].
  split; [done |].
  split; [done |]. split; [done |]. split; [done |]. split; [done |].
  intros os Hrun.
  destruct (machine_run_reachable os _ Hm0 Hrun) as (s & Hs & Hm).
  exists s. split; [done |]. split; [done |]. intros a Ha.
  destruct (Inv_new_storage es storage size ac brk0 _ Hes Hsto Hsize Hfit Hbrk (Hnew true))
    as [l I].
  destruct (run_grows false os _ l s I Hs) as (_ & _ & Hkeys).
  destruct (Hkeys a Ha) as [[b Hb] | Hge]; [cbn in Hb; by rewrite lookup_empty in Hb |].
  cbn in Hge. lia.
Qed.

(** ** Pops of an empty deque *)

Lemma load_cases s p : load s p = Fault \/ exists b, load s p = Ok b.
Proof.
  unfold load. destruct (decide (p = NULL)); [by left |].
  destruct (heap s !! p); [right; by eexists | by left].
Qed.

Lemma poke_cases p f s : poke p f s = Fault \/ exists s', poke p f s = Ok s'.
Proof.
  unfold poke. destruct (load_cases s p) as [-> | (b & ->)]; [by left |].
  right. by eexists.
Qed.

(** Without assertions a pop either faults or returns. *)
Ltac fault_or_ok :=
  repeat first
    [ rewrite SkASSERT_release; cbn [bind]
    | match goal with
      | |- context [load ?s0 ?p] =>
          destruct (load_cases s0 p) as [-> | (? & ->)]; [by left |]; cbn [bind]
      end
    | match goal with
      | |- context [poke ?p ?f ?s0] =>
          destruct (poke_cases p f s0) as [-> | (? & ->)]; [by left |]; cbn [bind]
      end
    | match goal with
      | |- context [decide ?P] => destruct (decide P)
      end ];
  right; by eexists.

Lemma pop_front_release_cases s :
  pop_front false s = Fault \/ exists s', pop_front false s = Ok s'.
Proof. unfold pop_front, pop_front_shrink. fault_or_ok. Qed.

Lemma pop_back_release_cases s :
  pop_back false s = Fault \/ exists s', pop_back false s = Ok s'.
Proof. unfold pop_back, pop_back_shrink. fault_or_ok. Qed.

(** On an empty deque a pop fails its first assertion.  Without the
    assertions it follows a null pointer, unless the deque has kept two
    Blocks: then the pop returns, having freed the end Block and left the
    count at -1. *)
Theorem pop_of_empty_deque (s : State) :
  reachable s -> fCount s = 0 ->
  pop_front true s = Abort /\ pop_back true s = Abort /\
  (pop_front false s = Fault \/
   exists s', pop_front false s = Ok s' /\ fCount s' = -1 /\
              freed s' = fFront s :: freed s /\ length (blocks s) = 2%nat) /\
  (pop_back false s = Fault \/
   exists s', pop_back false s = Ok s' /\ fCount s' = -1 /\
              freed s' = fBack s :: freed s /\ length (blocks s) = 2%nat).
Proof.
  intros Hr Hc. destruct (reachable_Inv s Hr) as [l I].
  pose proof (inv_chain _ _ I) as C.
  pose proof (reachable_blocks_bound s l Hr I) as Hlen.
  rewrite (blocks_chain s l C).
  split; [| split; [| split]].
  - unfold pop_front, SkASSERT. rewrite bool_decide_eq_false_2 by lia. done.
  - unfold pop_back, SkASSERT. rewrite bool_decide_eq_false_2 by lia. done.
  - destruct (pop_front_release_cases s) as [? | (s' & Hrun)]; [by left | right].
    exists s'. split; [done |].
    pose proof (fun a b => empty_all_dead s a b Hr Hc) as Hdead.
    destruct s as [es sto cnt ac fr bk h br fre]. proj.
    destruct (pop_front_inv _ _ _ _ _ _ _ _ _ _ _ _ C Hrun)
      as (a & l2 & b & -> & -> & Hb & [(Hlive & _) | (_ & a2 & l3 & b2 & -> & _ & _ & ->)]).
    + by destruct (Hdead a b Hb).
    + proj. split; [lia |]. split; [done |]. cbn [length] in *. lia.
  - destruct (pop_back_release_cases s) as [? | (s' & Hrun)]; [by left | right].
    exists s'. split; [done |].
    pose proof (fun a b => empty_all_dead s a b Hr Hc) as Hdead.
    destruct s as [es sto cnt ac fr bk h br fre]. proj.
    destruct (pop_back_inv _ _ _ _ _ _ _ _ _ _ _ _ C Hrun)
      as (a & l2 & b & -> & -> & Hb & [(Hlive & _) | (_ & a1 & l3 & b1 & -> & _ & _ & ->)]).
    + by destruct (Hdead a b Hb).
    + proj. split; [lia |]. split; [done |]. rewrite !length_app in *. cbn [length] in *. lia.
Qed.

(** ** Iterators moved both ways *)

Lemma slots_from_app p es (j k : nat) :
  slots_from p es (j + k) = slots_from p es j ++ slots_from (p + Z.of_nat j * es) es k.
Proof.
  revert p. induction j as [|j IH]; intros p.
  - cbn [plus slots_from app]. f_equal. lia.
  - cbn [plus slots_from app]. rewrite IH. do 3 f_equal. lia.
Qed.

(** An iterator that has the slots [x :: post] before it towards the back
    has [x] and the slots before [x] behind it, and the other way round. *)
Lemma it_fwd_bwd d l it pre x post :
  Inv d l -> 0 < fElemSize d ->
  contents_of (fElemSize d) (heap d) l = pre ++ x :: post ->
  it_fwd d l it (x :: post) -> it_bwd d l it (x :: rev pre).
Proof.
  intros I Hes Hc [Hsz [[_ ?] | (l1 & a & l2 & b & n & j & Hl & Hb & Hlive & Hn & Hj & Hcb & Hpos & HR)]];
    [done |].
  split; [done |]. right. exists l1, a, l2, b, n, j.
  do 7 (split; [done |]).
  rewrite Hl, (contents_of_split _ _ _ _ _ _ Hb), (slots_live _ b n) in Hc by done.
  replace n with (j + (n - j))%nat in Hc at 1 by lia.
  rewrite slots_from_app, <- Hpos, <- app_assoc, <- HR, app_assoc in Hc.
  apply app_inv_tail in Hc.
  destruct (n - j)%nat as [|k] eqn:Hk; [lia |].
  rewrite slots_from_head in HR. injection HR as Hx _.
  rewrite slots_from_snoc, app_assoc, Hc, <- Hpos, <- Hx, rev_unit. done.
Qed.

Lemma it_bwd_fwd d l it pre x post :
  Inv d l -> 0 < fElemSize d ->
  contents_of (fElemSize d) (heap d) l = pre ++ x :: post ->
  it_bwd d l it (x :: rev pre) -> it_fwd d l it (x :: post).
Proof.
  intros I Hes Hc [Hsz [[_ ?] | (l1 & a & l2 & b & n & j & Hl & Hb & Hlive & Hn & Hj & Hcb & Hpos & HR)]];
    [done |].
  split; [done |]. right. exists l1, a, l2, b, n, j.
  do 7 (split; [done |]).
  rewrite slots_from_snoc, app_assoc, rev_unit, <- Hpos in HR.
  injection HR as Hx Hpre. apply (f_equal (@rev Z)) in Hpre.
  rewrite !rev_involutive in Hpre.
  rewrite Hl, (contents_of_split _ _ _ _ _ _ Hb), (slots_live _ b n) in Hc by done.
  replace n with (j + (n - j))%nat in Hc at 1 by lia.
  rewrite slots_from_app, <- Hpos, <- app_assoc, app_assoc, <- Hpre in Hc.
  by apply app_inv_head in Hc.
Qed.

Lemma step_at debug d l it pos m :
  Inv d l -> 0 < fElemSize d -> it_at d l it pos ->
  exists it',
    Iter.step debug d m it =
      Ok (match pos with
          | None => NULL
          | Some i => default NULL (contents_of (fElemSize d) (heap d) l !! i)
          end, it') /\
    it_at d l it'
      (match pos with
       | None => None
       | Some i => cursor_move (contents_of (fElemSize d) (heap d) l) i m
       end).
Proof.
  intros I Hes Hit. set (c := contents_of (fElemSize d) (heap d) l) in *.
  destruct pos as [i|]; cbn [it_at] in Hit.
  2:{ exists it. split; [| done].
      destruct m; cbn [Iter.step]; [by apply next_exhausted | by apply prev_exhausted]. }
  destruct Hit as (x & Hx & Hfwd). fold c in Hx, Hfwd. rewrite Hx. cbn [default].
  pose proof (take_drop_middle c i x Hx) as Hmid.
  destruct m; cbn [Iter.step cursor_move].
  - destruct (next_fwd debug d l it x _ I Hes Hfwd) as (it' & Hn & Hfwd' & _).
    exists it'. split; [done |].
    destruct (decide (S i < length c)%nat) as [Hlt | Hge]; cbn [it_at].
    + destruct (lookup_lt_is_Some_2 c (S i) Hlt) as [y Hy].
      exists y. split; [done |]. by rewrite (drop_S c y (S i) Hy) in Hfwd'.
    + rewrite drop_ge in Hfwd' by lia. by apply it_fwd_nil in Hfwd'.
  - pose proof (it_fwd_bwd d l it (take i c) x (drop (S i) c) I Hes (eq_sym Hmid) Hfwd) as Hbwd.
    destruct (prev_bwd debug d l it x _ I Hes Hbwd) as (it' & Hp & Hbwd' & _).
    exists it'. split; [done |].
    destruct i as [|j]; cbn [it_at].
    + rewrite take_0 in Hbwd'. by apply it_bwd_nil in Hbwd'.
    + assert (j < length c)%nat as Hlt by (apply lookup_lt_Some in Hx; lia).
      destruct (lookup_lt_is_Some_2 c j Hlt) as [y Hy].
      exists y. split; [done |].
      rewrite (take_S_r c j y Hy), rev_unit in Hbwd'.
      apply (it_bwd_fwd d l it' (take j c) y (drop (S j) c)); [done | done | | done].
      symmetry. by apply take_drop_middle.
Qed.

Lemma steps_at debug d l ms : forall it pos,
  Inv d l -> 0 < fElemSize d -> it_at d l it pos ->
  exists it',
    Iter.steps debug ms d it =
      Ok (cursor (contents_of (fElemSize d) (heap d) l) pos ms, it').
Proof.
  induction ms as [|m ms IH]; intros it pos I Hes Hit.
  - exists it. done.
  - destruct (step_at debug d l it pos m I Hes Hit) as (it1 & Hstep & Hit1).
    destruct (IH it1 _ I Hes Hit1) as (it' & Hsteps).
    exists it'. cbn [Iter.steps]. rewrite Hstep. cbn [bind fst snd].
    rewrite Hsteps. cbn [bind fst snd]. by destruct pos.
Qed.

Lemma reset_at d l startLoc :
  Inv d l -> 0 < fElemSize d ->
  exists it, Iter.reset d startLoc = Ok it /\
    it_at d l it (cursor_start (contents_of (fElemSize d) (heap d) l) startLoc).
Proof.
  intros I Hes. destruct startLoc.
  - destruct (reset_front_fwd d l I Hes) as (it & Hr & Hfwd).
    exists it. split; [done |].
    destruct (contents_of (fElemSize d) (heap d) l) as [|x c'] eqn:Hc;
      cbn [cursor_start it_at].
    + by apply it_fwd_nil in Hfwd.
    + exists x. rewrite Hc. split; [done |]. by cbn [drop].
  - destruct (reset_back_bwd d l I Hes) as (it & Hr & Hbwd).
    exists it. split; [done |].
    destruct (list_snoc_case (contents_of (fElemSize d) (heap d) l)) as [Hc | (c' & x & Hc)].
    + rewrite Hc in *. cbn [cursor_start it_at]. by apply it_bwd_nil in Hbwd.
    + assert (cursor_start (contents_of (fElemSize d) (heap d) l) Iter.kBack_IterStart
              = Some (length c')) as ->.
      { rewrite Hc. destruct c'; cbn [app cursor_start]; f_equal;
          cbn [length]; rewrite ?length_app; cbn [length]; lia. }
      cbn [it_at]. exists x. rewrite Hc.
      split; [by rewrite lookup_app_r, Nat.sub_diag by lia |].
      rewrite drop_ge by (rewrite length_app; cbn [length]; lia).
      rewrite Hc, rev_unit in Hbwd.
      apply (it_bwd_fwd d l it c' x []); [done | done | done | done].
Qed.

(** For elements of at least one byte and a deque within the machine's
    range, an iterator moved by [next] and
    [prev] in any order behaves as a cursor over the slots of the deque:
    after a reset at the front it stands on the first slot, after a reset
    at the back on the last one; a call yields the slot it stands on and
    steps forward for [next], backward for [prev]; a step off either end
    exhausts it, and then every call yields null.  No call faults or fails
    an assertion. *)
Theorem iterator_is_a_cursor (debug : bool) (d : State)
    (startLoc : Iter.IterStart) (ms : list Iter.move) :
  machine_reachable d -> 0 < fElemSize d ->
  exists it it',
    Iter.reset d startLoc = Ok it /\
    Iter.steps debug ms d it =
      Ok (cursor (contents d) (cursor_start (contents d) startLoc) ms, it').
Proof.
  intros Hm Hes. destruct (reachable_Inv d (machine_reachable_reachable d Hm)) as [l I].
  rewrite (contents_Inv d l I).
  destruct (reset_at d l startLoc I Hes) as (it & Hreset & Hit).
  destruct (steps_at debug d l ms it _ I Hes Hit) as (it' & Hsteps).
  by exists it, it'.
Qed.

(** ** The two builds *)

Lemma apply_op_returns debug o s :
  reachable s -> 0 < fElemSize s -> (is_pop o = true -> 0 < fCount s) ->
  exists s', apply_op debug o s = Ok s' /\ apply_op false o s = Ok s' /\
             reachable s' /\ fElemSize s' = fElemSize s.
Proof.
  intros Hr Hes Hv. destruct (reachable_Inv s Hr) as [l I].
  assert (exists s', apply_op debug o s = Ok s' /\ same_config s s') as (s' & Hrun & Hcfg & _).
  { destruct o; cbn [apply_op is_pop] in *.
    - destruct (push_front_spec s l I) as (p & s' & l' & Hp & _ & Hcfg & _).
      exists s'. by rewrite Hp.
    - destruct (push_back_spec s l I) as (p & s' & l' & Hp & _ & Hcfg & _).
      exists s'. by rewrite Hp.
    - destruct (pop_front_spec debug s l I Hes (Hv eq_refl)) as (p & s' & l' & Hp & _ & Hcfg & _).
      by exists s'.
    - destruct (pop_back_spec debug s l I Hes (Hv eq_refl)) as (p & s' & l' & Hp & _ & Hcfg & _).
      by exists s'. }
  pose proof (apply_op_release debug o s s' Hrun) as Hrel.
  exists s'. split; [done |]. split; [done |]. split; [| done].
  by apply (reach_step o s s').
Qed.

(** For elements of at least one byte, a sequence of pushes and pops on a
    deque within the machine's range, no pop meeting an empty deque and
    every state on the way within the range, goes the same way with and
    without the assertions: none of them fails, no null pointer is
    followed, and the two builds end in the same state. *)
Theorem builds_agree_on_runs (s : State) (os : list op) :
  machine_reachable s -> 0 < fElemSize s -> machine_run os s = true ->
  exists s',
    run true os s = Ok s' /\ run false os s = Ok s' /\ machine_reachable s'.
Proof.
  revert s. induction os as [|o os IH]; intros s Hm Hes Hrun; cbn [run machine_run] in *.
  - by exists s.
  - apply andb_true_iff in Hrun as [Hv Hrun]. rewrite Hv.
    assert (is_pop o = true -> 0 < fCount s) as Hv'.
    { intros Hp. unfold valid_op in Hv. rewrite Hp in Hv. cbn in Hv.
      by apply bool_decide_eq_true_1 in Hv. }
    destruct (apply_op_returns true o s (machine_reachable_reachable s Hm) Hes Hv')
      as (s' & Ht & Hf & _ & Hes').
    rewrite Hf in Hrun. apply andb_true_iff in Hrun as [Hok Hrun].
    rewrite Ht, Hf. cbn [bind]. apply IH; [| lia | done].
    apply (mreach_step o s s'); [done | done | done | by apply machine_okb_ok].
Qed.

(** ** The allocation count *)

(** The constructors require [allocCount >= 1] by an assertion only.  With
    less, and no assertions, the Block the first [push_back] allocates has
    no room for an element, and the slot returned ends beyond the chunk of
    this Block.  (The size of the Block is taken not to wrap around: it is
    [sizeof(Block)] for [allocCount = 0].) *)
Theorem allocCount_below_one_overruns (es ac brk0 : Z) :
  0 < es -> ac < 1 -> 0 <= sizeof_Block + ac * es -> 0 < brk0 ->
  SkDeque_new true es ac brk0 = Abort /\
  exists s0 p s b,
    SkDeque_new false es ac brk0 = Ok s0 /\
    push_back s0 = Ok (p, s) /\
    heap s !! fBack s = Some b /\ p = start (fBack s) /\ fStop b < p + es.
Proof.
  intros Hes Hac Hsize Hbrk. split.
  { unfold SkDeque_new, SkASSERT. rewrite bool_decide_eq_false_2 by lia. done. }
  assert (brk0 <> NULL) as Hnn by (unfold NULL; lia).
  eexists _, _, _, _. split; [reflexivity |]. split.
  { unfold push_back. ev. dec_true. ev. do_load. dec_true.
    unfold push_back_init_chunk. do_poke. do_load. do_poke. reflexivity. }
  cbn [fBack heap]. split; [apply lookup_insert_eq |].
  split; [lia |]. cbn. unfold start. nia.
Qed.

(** ** More instances on example deques *)

(** After two pushes and two pops at the front, which free one Block. *)
Lemma no_block_is_freed_twice_witness :
  reachable (example_deque 4 1 [PushBack; PushBack; PopFront; PopFront]) /\
  freed (example_deque 4 1 [PushBack; PushBack; PopFront; PopFront]) = [1000] /\
  NoDup (freed (example_deque 4 1 [PushBack; PushBack; PopFront; PopFront])) /\
  heap (example_deque 4 1 [PushBack; PushBack; PopFront; PopFront]) !! 1000 = None /\
  1000 ∉ blocks (example_deque 4 1 [PushBack; PushBack; PopFront; PopFront]).
Proof.
  set (s := example_deque 4 1 [PushBack; PushBack; PopFront; PopFront]).
  assert (reachable s) as Hr.
  { apply example_deque_reachable; [lia | lia | vm_compute; reflexivity]. }
  assert (freed s = [1000]) as Hf by (vm_compute; reflexivity).
  split; [exact Hr |]. split; [exact Hf |].
  destruct (no_block_is_freed_twice s Hr) as (Hnd & Hgone).
  split; [exact Hnd |]. apply Hgone. rewrite Hf. apply list_elem_of_here.
Defined.

(** On three elements in Blocks of two. *)
Lemma slots_are_inside_and_disjoint_witness :
  machine_reachable (example_deque 4 2 [PushBack; PushBack; PushBack]) /\
  0 < fElemSize (example_deque 4 2 [PushBack; PushBack; PushBack]) /\
  contents (example_deque 4 2 [PushBack; PushBack; PushBack]) = [1040; 1044; 1088] /\
  (1040 + fElemSize (example_deque 4 2 [PushBack; PushBack; PushBack]) <= 1088 \/
   1088 + fElemSize (example_deque 4 2 [PushBack; PushBack; PushBack]) <= 1040) /\
  exists a b,
    a ∈ blocks (example_deque 4 2 [PushBack; PushBack; PushBack]) /\
    heap (example_deque 4 2 [PushBack; PushBack; PushBack]) !! a = Some b /\
    start a <= 1088 /\
    1088 + fElemSize (example_deque 4 2 [PushBack; PushBack; PushBack]) <= fStop b /\
    fStop b <= brk (example_deque 4 2 [PushBack; PushBack; PushBack]) /\
    brk (example_deque 4 2 [PushBack; PushBack; PushBack]) <= SIZE_MAX.
Proof.
  set (s := example_deque 4 2 [PushBack; PushBack; PushBack]).
  assert (machine_reachable s) as Hm.
  { apply example_deque_machine_reachable;
      [lia | lia | vm_compute; reflexivity | vm_compute; reflexivity]. }
  assert (0 < fElemSize s) as Hes by reflexivity.
  assert (contents s = [1040; 1044; 1088]) as Hc by (vm_compute; reflexivity).
  split; [exact Hm |]. split; [exact Hes |]. split; [exact Hc |].
  destruct (slots_are_inside_and_disjoint s Hm Hes) as (Hap & Hin).
  split.
  - apply (Hap 0%nat 2%nat); [lia | rewrite Hc; reflexivity | rewrite Hc; reflexivity].
  - apply Hin. rewrite Hc. do 2 apply list_elem_of_further. apply list_elem_of_here.
Defined.

(** A push at either end of a deque of two elements. *)
Lemma push_adds_the_returned_slot_witness :
  machine_reachable (example_deque 4 2 [PushBack; PushBack]) /\
  0 < fElemSize (example_deque 4 2 [PushBack; PushBack]) /\
  (exists p s',
     push_back (example_deque 4 2 [PushBack; PushBack]) = Ok (p, s') /\
     machine_ok s' /\ machine_reachable s' /\
     fCount s' = fCount (example_deque 4 2 [PushBack; PushBack]) + 1 /\
     (p ∉ contents (example_deque 4 2 [PushBack; PushBack])) /\
     contents s' = contents (example_deque 4 2 [PushBack; PushBack]) ++ [p] /\
     back true s' = Ok p) /\
  (exists p s',
     push_front (example_deque 4 2 [PushBack; PushBack]) = Ok (p, s') /\
     machine_ok s' /\ machine_reachable s' /\
     fCount s' = fCount (example_deque 4 2 [PushBack; PushBack]) + 1 /\
     (p ∉ contents (example_deque 4 2 [PushBack; PushBack])) /\
     contents s' = p :: contents (example_deque 4 2 [PushBack; PushBack]) /\
     front true s' = Ok p).
Proof.
  set (s := example_deque 4 2 [PushBack; PushBack]).
  assert (machine_reachable s) as Hm.
  { apply example_deque_machine_reachable;
      [lia | lia | vm_compute; reflexivity | vm_compute; reflexivity]. }
  assert (0 < fElemSize s) as Hes by reflexivity.
  split; [exact Hm |]. split; [exact Hes |].
  destruct (push_adds_the_returned_slot true s Hm)
    as ((p & s' & Hp & _ & Hb) & (q & t' & Hq & _ & Hf)).
  assert (machine_ok s') as Hok.
  { assert (s' = example_deque 4 2 [PushBack; PushBack; PushBack]) as ->.
    { pose proof Hp as Hp'. vm_compute in Hp'. injection Hp' as _ <-.
      vm_compute. reflexivity. }
    apply machine_okb_ok. vm_compute. reflexivity. }
  assert (machine_ok t') as Hok'.
  { assert (t' = example_deque 4 2 [PushBack; PushBack; PushFront]) as ->.
    { pose proof Hq as Hq'. vm_compute in Hq'. injection Hq' as _ <-.
      vm_compute. reflexivity. }
    apply machine_okb_ok. vm_compute. reflexivity. }
  destruct (Hb Hok) as (Hm1 & Hc1 & Hb').
  destruct (Hf Hok') as (Hm2 & Hc2 & Hf').
  destruct (Hb' Hes) as (_ & Hb1 & Hb2 & Hb3).
  destruct (Hf' Hes) as (_ & Hf1 & Hf2 & Hf3).
  split.
  - exists p, s'. exact (conj Hp (conj Hok (conj Hm1 (conj Hc1 (conj Hb1 (conj Hb2 Hb3)))))).
  - exists q, t'. exact (conj Hq (conj Hok' (conj Hm2 (conj Hc2 (conj Hf1 (conj Hf2 Hf3)))))).
Defined.

(** A pop at either end of a deque of three elements. *)
Lemma pop_removes_the_end_slot_witness :
  machine_reachable (example_deque 4 2 [PushBack; PushBack; PushBack]) /\
  0 < fElemSize (example_deque 4 2 [PushBack; PushBack; PushBack]) /\
  0 < fCount (example_deque 4 2 [PushBack; PushBack; PushBack]) /\
  pop_front_ok (example_deque 4 2 [PushBack; PushBack; PushBack]) /\
  pop_back_ok (example_deque 4 2 [PushBack; PushBack; PushBack]) /\
  (exists p s',
     front true (example_deque 4 2 [PushBack; PushBack; PushBack]) = Ok p /\
     pop_front true (example_deque 4 2 [PushBack; PushBack; PushBack]) = Ok s' /\
     machine_reachable s' /\
     contents (example_deque 4 2 [PushBack; PushBack; PushBack]) = p :: contents s' /\
     fCount s' = fCount (example_deque 4 2 [PushBack; PushBack; PushBack]) - 1) /\
  (exists p s',
     back true (example_deque 4 2 [PushBack; PushBack; PushBack]) = Ok p /\
     pop_back true (example_deque 4 2 [PushBack; PushBack; PushBack]) = Ok s' /\
     machine_reachable s' /\
     contents (example_deque 4 2 [PushBack; PushBack; PushBack]) = contents s' ++ [p] /\
     fCount s' = fCount (example_deque 4 2 [PushBack; PushBack; PushBack]) - 1).
Proof.
  set (s := example_deque 4 2 [PushBack; PushBack; PushBack]).
  assert (machine_reachable s) as Hm.
  { apply example_deque_machine_reachable;
      [lia | lia | vm_compute; reflexivity | vm_compute; reflexivity]. }
  assert (0 < fElemSize s) as Hes by reflexivity.
  assert (0 < fCount s) as Hc by reflexivity.
  assert (pop_front_ok s) as Hgf by (intros b _ _; vm_compute; discriminate).
  assert (pop_back_ok s) as Hgb by (intros b _ _; vm_compute; discriminate).
  split; [exact Hm |]. split; [exact Hes |]. split; [exact Hc |].
  split; [exact Hgf |]. split; [exact Hgb |].
  destruct (pop_removes_the_end_slot true s Hm Hes Hc) as (Hf & Hb).
  split; [exact (Hf Hgf) | exact (Hb Hgb)].
Defined.

(** On an empty deque that kept two Blocks. *)
Lemma at_most_two_spare_blocks_witness :
  machine_reachable (example_deque 4 1 [PushBack; PushBack; PopFront; PopBack]) /\
  fCount (example_deque 4 1 [PushBack; PushBack; PopFront; PopBack]) = 0 /\
  length (blocks (example_deque 4 1 [PushBack; PushBack; PopFront; PopBack])) = 2%nat /\
  exists n : nat,
    numBlocksAllocated (example_deque 4 1 [PushBack; PushBack; PopFront; PopBack])
      = Ok (Z.of_nat n) /\
    length (blocks (example_deque 4 1 [PushBack; PushBack; PopFront; PopBack])) = n /\
    Z.of_nat n <= fCount (example_deque 4 1 [PushBack; PushBack; PopFront; PopBack]) + 2 /\
    Z.of_nat n <= INT_MAX.
Proof.
  set (s := example_deque 4 1 [PushBack; PushBack; PopFront; PopBack]).
  assert (machine_reachable s) as Hm.
  { apply example_deque_machine_reachable;
      [lia | lia | vm_compute; reflexivity | vm_compute; reflexivity]. }
  split; [exact Hm |]. split; [reflexivity |]. split; [vm_compute; reflexivity |].
  exact (at_most_two_spare_blocks s Hm).
Defined.

(** Three elements of 8 bytes in a storage with room for exactly three. *)
Lemma inline_storage_holds_first_elements_witness :
  exists s0 s,
    SkDeque_new_storage true 8 1000 (sizeof_Block + 24) 1 2000 = Ok s0 /\
    run true (replicate 3 PushBack) s0 = Ok s /\
    fCount s = Z.of_nat 3 /\ brk s = 2000 /\ freed s = [] /\
    blocks s = [1000] /\ numBlocksAllocated s = Ok 1 /\
    contents s = slots_from (start 1000) 8 3 /\
    (sizeof_Block + 24 < sizeof_Block + (Z.of_nat 3 + 1) * 8 -> 0 < 2000 -> 1000 <> 2000 ->
     exists p s',
       push_back s = Ok (p, s') /\ p = start 2000 /\
       brk s' = 2000 + (sizeof_Block + 1 * 8) /\ fBack s' = 2000 /\
       is_Some (heap s' !! 2000) /\ is_Some (heap s' !! 1000)).
Proof.
  apply (inline_storage_holds_first_elements true 8 1000 (sizeof_Block + 24) 1 2000 3);
    [lia | lia | lia | lia | unfold sizeof_Block; lia].
Defined.

(** A storage of the size of the header alone. *)
Lemma small_storage_is_not_used_witness :
  exists s0,
    SkDeque_new_storage true 8 1000 sizeof_Block 1 2000 = Ok s0 /\
    machine_reachable s0 /\
    fFront s0 = NULL /\ fBack s0 = NULL /\ heap s0 = ∅ /\
    numBlocksAllocated s0 = Ok 0 /\
    forall os, machine_run os s0 = true ->
      exists s, run false os s0 = Ok s /\ machine_reachable s /\
        forall a, is_Some (heap s !! a) -> 2000 <= a /\ 1000 + sizeof_Block <= a.
Proof.
  apply (small_storage_is_not_used true 8 1000 sizeof_Block 1 2000);
    [lia | lia | by vm_compute | by vm_compute | lia | lia | by right
    | by vm_compute | by vm_compute | by vm_compute | lia].
Defined.

(** On an empty deque that kept two Blocks: without the assertions
    [pop_front] returns. *)
Lemma pop_of_empty_deque_witness :
  reachable (example_deque 4 1 [PushBack; PushBack; PopFront; PopBack]) /\
  fCount (example_deque 4 1 [PushBack; PushBack; PopFront; PopBack]) = 0 /\
  pop_front true (example_deque 4 1 [PushBack; PushBack; PopFront; PopBack]) = Abort /\
  pop_back true (example_deque 4 1 [PushBack; PushBack; PopFront; PopBack]) = Abort /\
  exists s',
    pop_front false (example_deque 4 1 [PushBack; PushBack; PopFront; PopBack]) = Ok s' /\
    fCount s' = -1.
Proof.
  set (s := example_deque 4 1 [PushBack; PushBack; PopFront; PopBack]).
  assert (reachable s) as Hr.
  { apply example_deque_reachable; [lia | lia | vm_compute; reflexivity]. }
  assert (fCount s = 0) as Hc by reflexivity.
  split; [exact Hr |]. split; [exact Hc |].
  destruct (pop_of_empty_deque s Hr Hc) as (Hf & Hb & [Hfault | (s' & Hrun & Hc' & _)] & _).
  - vm_compute in Hfault. discriminate.
  - split; [exact Hf |]. split; [exact Hb |]. exists s'. exact (conj Hrun Hc').
Defined.

(** From the front of a deque of two elements whose front Block is marked
    empty: forward, backward, forward again, then off the front end. *)
Lemma iterator_is_a_cursor_witness :
  machine_reachable (example_deque 4 1 [PushBack; PushBack; PushBack; PopFront]) /\
  0 < fElemSize (example_deque 4 1 [PushBack; PushBack; PushBack; PopFront]) /\
  exists it it',
    Iter.reset (example_deque 4 1 [PushBack; PushBack; PushBack; PopFront])
               Iter.kFront_IterStart = Ok it /\
    Iter.steps true [Iter.Next; Iter.Prev; Iter.Prev; Iter.Next]
               (example_deque 4 1 [PushBack; PushBack; PushBack; PopFront]) it
      = Ok ([1084; 1128; 1084; NULL], it').
Proof.
  set (s := example_deque 4 1 [PushBack; PushBack; PushBack; PopFront]).
  assert (machine_reachable s) as Hm.
  { apply example_deque_machine_reachable;
      [lia | lia | vm_compute; reflexivity | vm_compute; reflexivity]. }
  assert (0 < fElemSize s) as Hes by reflexivity.
  split; [exact Hm |]. split; [exact Hes |].
  destruct (iterator_is_a_cursor true s Iter.kFront_IterStart
              [Iter.Next; Iter.Prev; Iter.Prev; Iter.Next] Hm Hes) as (it & it' & Hreset & Hsteps).
  exists it, it'. split; [exact Hreset |].
  rewrite Hsteps. vm_compute. reflexivity.
Defined.

(** On a run that ends with the deque empty again. *)
Lemma builds_agree_on_runs_witness :
  machine_reachable (example_deque 4 1 []) /\
  0 < fElemSize (example_deque 4 1 []) /\
  machine_run [PushBack; PushFront; PopBack; PopBack] (example_deque 4 1 []) = true /\
  exists s',
    run true [PushBack; PushFront; PopBack; PopBack] (example_deque 4 1 []) = Ok s' /\
    run false [PushBack; PushFront; PopBack; PopBack] (example_deque 4 1 []) = Ok s' /\
    machine_reachable s'.
Proof.
  assert (machine_reachable (example_deque 4 1 [])) as Hm.
  { apply example_deque_machine_reachable;
      [lia | lia | vm_compute; reflexivity | reflexivity]. }
  assert (0 < fElemSize (example_deque 4 1 [])) as Hes by reflexivity.
  assert (machine_run [PushBack; PushFront; PopBack; PopBack] (example_deque 4 1 []) = true)
    as Hrun by (vm_compute; reflexivity).
  split; [exact Hm |]. split; [exact Hes |]. split; [exact Hrun |].
  exact (builds_agree_on_runs _ [PushBack; PushFront; PopBack; PopBack] Hm Hes Hrun).
Defined.

(** With an allocation count of 0. *)
Lemma allocCount_below_one_overruns_witness :
  SkDeque_new true 4 0 1000 = Abort /\
  exists s0 p s b,
    SkDeque_new false 4 0 1000 = Ok s0 /\
    push_back s0 = Ok (p, s) /\
    heap s !! fBack s = Some b /\ p = start (fBack s) /\ fStop b < p + 4.
Proof.
  apply (allocCount_below_one_overruns 4 0 1000); [lia | lia | unfold sizeof_Block; lia | lia].
Defined.

(** ** The life of a deque *)

Lemma run_reachable_build debug os : forall s s',
  reachable s -> run debug os s = Ok s' -> reachable s'.
Proof.
  induction os as [|o os IH]; intros s s' Hr Hrun; cbn [run] in Hrun.
  - by injection Hrun as <-.
  - destruct (valid_op o s) eqn:Hv; [| discriminate].
    apply bind_Ok_inv in Hrun as (s1 & Hop & Hrun).
    apply (IH s1); [| done]. apply (reach_step o s s1); [done | |].
    + intros Hp. unfold valid_op in Hv. rewrite Hp in Hv. cbn in Hv.
      by apply bool_decide_eq_true_1 in Hv.
    + by apply (apply_op_release debug).
Qed.

(** A deque built without a storage of the caller's, used in any way that
    returns and then destroyed, leaves no Block behind: the destructor
    returns, the heap of the deque is empty after it, and over the whole
    life no Block was freed twice. *)
Theorem no_block_is_left_behind
    (debug : bool) (es ac brk0 : Z) (os : list op) (s0 s : State) :
  0 <= es -> 0 < brk0 ->
  SkDeque_new true es ac brk0 = Ok s0 ->
  run debug os s0 = Ok s ->
  exists s',
    SkDeque_delete s = Ok s' /\ heap s' = ∅ /\ NoDup (freed s') /\
    forall a, is_Some (heap s !! a) -> a ∈ freed s'.
Proof.
  intros Hes Hbrk Hnew Hrun.
  assert (reachable s0) as Hr0 by (by apply (reach_new es ac brk0)).
  pose proof (run_reachable_build debug os s0 s Hr0 Hrun) as Hr.
  destruct (reachable_Inv s0 Hr0) as [l0 I0].
  destruct (run_grows debug os s0 l0 s I0 Hrun) as ((_ & Hsto & _) & _).
  assert (fInitialStorage s = NULL) as Hnull.
  { rewrite Hsto. unfold SkDeque_new in Hnew.
    destruct (SkASSERT true _); cbn [bind] in Hnew; try discriminate.
    by injection Hnew as <-. }
  destruct (reachable_Inv s Hr) as [l I]. pose proof (inv_chain _ _ I) as C.
  assert (heap s !! NULL = None) as Hn.
  { destruct (heap s !! NULL) as [b|] eqn:Hb; [| done].
    destruct (inv_blocks _ _ I _ _ Hb) as (Hpos & _). unfold NULL in Hpos. lia. }
  destruct (destructor_frees_allocated_blocks_aux s Hr) as (s' & Hdel & Hf & Hnd & Hheap).
  exists s'. split; [done |]. split; [| split; [done |]].
  - apply map_eq. intros a. rewrite Hheap, lookup_empty.
    destruct (decide (a = fInitialStorage s)) as [-> | ?]; [by rewrite Hnull | done].
  - intros a Ha. rewrite Hf, elem_of_app, rev_reverse, elem_of_reverse. left.
    apply list_elem_of_filter. split.
    + intros ->. rewrite Hnull, Hn in Ha. by destruct Ha.
    + rewrite (blocks_chain s l C). by apply (chain_dom _ _ _ _ C).
Qed.

(** Three pushes, a pop, and the destructor. *)
Lemma no_block_is_left_behind_witness :
  0 <= 4 /\ 0 < 1000 /\
  SkDeque_new true 4 1 1000 = Ok (example_deque 4 1 []) /\
  run true [PushBack; PushFront; PushBack; PopFront] (example_deque 4 1 [])
    = Ok (example_deque 4 1 [PushBack; PushFront; PushBack; PopFront]) /\
  exists s',
    SkDeque_delete (example_deque 4 1 [PushBack; PushFront; PushBack; PopFront]) = Ok s' /\
    heap s' = ∅ /\ NoDup (freed s') /\
    forall a, is_Some (heap (example_deque 4 1 [PushBack; PushFront; PushBack; PopFront]) !! a) ->
              a ∈ freed s'.
Proof.
  assert (SkDeque_new true 4 1 1000 = Ok (example_deque 4 1 [])) as Hnew by reflexivity.
  assert (run true [PushBack; PushFront; PushBack; PopFront] (example_deque 4 1 [])
          = Ok (example_deque 4 1 [PushBack; PushFront; PushBack; PopFront])) as Hrun
    by (vm_compute; reflexivity).
  split; [lia |]. split; [lia |]. split; [exact Hnew |]. split; [exact Hrun |].
  apply (no_block_is_left_behind true 4 1 1000 _ _ _ ltac:(lia) ltac:(lia) Hnew Hrun).
Defined.

(** ** The destructor *)

(** What a run passes to [sk_free] was a Block of the deque before it, or
    was handed out by the allocator since. *)
Lemma run_freed_origin os : forall s s',
  reachable s -> run false os s = Ok s' ->
  forall a, a ∈ freed s' -> a ∈ freed s \/ is_Some (heap s !! a) \/ brk s <= a.
Proof.
  induction os as [|o os IH]; intros s s' Hr Hrun a Ha; cbn [run] in Hrun.
  - injection Hrun as <-. by left.
  - destruct (valid_op o s) eqn:Hv; [| discriminate].
    apply bind_Ok_inv in Hrun as (s1 & Hop & Hrun).
    assert (reachable s1) as Hr1.
    { apply (reach_step o s s1); [done | | done].
      intros Hp. unfold valid_op in Hv. rewrite Hp in Hv. cbn in Hv.
      by apply bool_decide_eq_true_1 in Hv. }
    destruct (reachable_Inv s Hr) as [l I].
    destruct (apply_op_grows false o s l s1 I Hop) as (_ & Hbrk & Hkeys).
    destruct (IH s1 s' Hr1 Hrun a Ha) as [Hin | [Hkey | Hge]].
    + destruct (release_cases false s o s1 Hr Hop)
        as [Hf | [(_ & b & Hb & _ & Hf & _) | (_ & b & Hb & _ & Hf & _)]];
        rewrite Hf in Hin.
      * by left.
      * apply elem_of_cons in Hin as [-> | Hin]; [right; left; by eexists | by left].
      * apply elem_of_cons in Hin as [-> | Hin]; [right; left; by eexists | by left].
    + destruct (Hkeys a Hkey) as [? | ?]; [right; by left | right; by right].
    + right. right. lia.
Qed.

(** A deque built over a storage of the caller's and used within the
    machine's range, every pop on a deque that holds an element: the
    destructor returns.  It passes to [sk_free] every Block of the chain
    but the caller's, from the front one on, and no Block that was freed
    before; everything freed over the life of the deque was handed out by
    the allocator, the caller's storage never; and the one Block that can
    be left is the caller's, as the constructor accepted it. *)
Theorem destructor_frees_allocated_blocks
    (es storage size ac brk0 : Z) (os : list op) (s0 : State) :
  0 <= es -> 0 <= storage -> 0 <= size -> storage + size <= brk0 -> 0 < brk0 ->
  sizeof_Block + es <= SIZE_MAX ->
  SkDeque_new_storage true es storage size ac brk0 = Ok s0 ->
  machine_ok s0 ->
  machine_run os s0 = true ->
  exists s s',
    run false os s0 = Ok s /\ machine_reachable s /\
    SkDeque_delete s = Ok s' /\
    freed s' = rev (filter (fun a => a <> storage) (blocks s)) ++ freed s /\
    NoDup (freed s') /\
    (forall a, a ∈ freed s' -> brk0 <= a /\ a <> storage) /\
    heap s' !! storage = heap s !! storage /\
    (forall a, is_Some (heap s' !! a) -> a = storage /\ is_Some (heap s0 !! storage)).
Proof.
  intros Hes Hsto Hsize Hfit Hbrk Hsum Hnew Hok0 Hmrun.
  assert (machine_reachable s0) as Hm0
    by (by apply (mreach_new_storage es storage size ac brk0)).
  pose proof (machine_reachable_reachable s0 Hm0) as Hr0.
  destruct (machine_run_reachable os s0 Hm0 Hmrun) as (s & Hrun & Hm).
  pose proof (machine_reachable_reachable s Hm) as Hr.
  assert (fInitialStorage s0 = storage /\ brk s0 = brk0 /\ freed s0 = [] /\
          forall a, is_Some (heap s0 !! a) -> a = storage) as (E0 & B0 & F0 & K0).
  { unfold SkDeque_new_storage in Hnew.
    destruct (SkASSERT true _); cbn [bind] in Hnew; try discriminate.
    destruct (SkASSERT true _); cbn [bind] in Hnew; try discriminate.
    injection Hnew as <-. case_decide; cbn.
    - repeat (split; [done |]). intros x [bx Hb].
      destruct (decide (x = storage)) as [-> | Hne]; [done |].
      by rewrite lookup_insert_ne, lookup_empty in Hb.
    - repeat (split; [done |]). intros x [bx Hb]. by rewrite lookup_empty in Hb. }
  assert (storage < brk0) as Hlow.
  { destruct Hok0 as (_ & _ & _ & _ & _ & Hlt & _). by rewrite E0, B0 in Hlt. }
  destruct (reachable_Inv s0 Hr0) as [l0 I0].
  destruct (run_grows false os s0 l0 s I0 Hrun) as ((_ & Esto & _) & _ & Hkeys).
  rewrite E0 in Esto. rewrite B0 in Hkeys.
  destruct (reachable_Inv s Hr) as [l I]. pose proof (inv_chain _ _ I) as C.
  destruct (destructor_frees_allocated_blocks_aux s Hr) as (s' & Hdel & Hf & Hnd & Hheap).
  rewrite Esto in Hf, Hheap.
  exists s, s'. split; [done |]. split; [done |]. split; [done |]. split; [done |].
  split; [done |]. split; [| split].
  - intros a Ha. rewrite Hf in Ha. apply elem_of_app in Ha as [Ha | Ha].
    + rewrite rev_reverse in Ha. apply elem_of_reverse, list_elem_of_filter in Ha as [Hne Ha].
      split; [| done]. rewrite (blocks_chain s l C) in Ha.
      apply (chain_dom _ _ _ _ C) in Ha.
      destruct (Hkeys a Ha) as [Hk | Hge]; [| done]. by destruct Hne, (K0 a Hk).
    + destruct (run_freed_origin os s0 s Hr0 Hrun a Ha) as [Hin | [Hk | Hge]].
      * rewrite F0 in Hin. by apply elem_of_nil in Hin.
      * exfalso. rewrite (K0 a Hk) in Ha.
        destruct (machine_reachable_ok s Hm) as (_ & _ & _ & _ & _ & _ & Hnf).
        by rewrite Esto in Hnf.
      * rewrite B0 in Hge. split; [done | lia].
  - rewrite Hheap. by rewrite decide_True.
  - intros a Ha. rewrite Hheap in Ha.
    destruct (decide (a = storage)) as [-> | Hne]; [| by destruct Ha].
    split; [done |]. destruct (Hkeys storage Ha) as [Hk | Hge]; [done | lia].
Qed.

(** The destructor on a deque over the caller's storage (at 1000, with room
    for three elements) with one Block allocated besides (at 2000): the
    allocated Block is freed, the caller's is not. *)
Lemma destructor_frees_allocated_blocks_witness :
  SkDeque_new_storage true 8 1000 (sizeof_Block + 24) 1 2000 = Ok (example_inline_deque []) /\
  machine_ok (example_inline_deque []) /\
  machine_run [PushBack; PushBack; PushBack; PushBack] (example_inline_deque []) = true /\
  exists s s',
    run false [PushBack; PushBack; PushBack; PushBack] (example_inline_deque []) = Ok s /\
    blocks s = [1000; 2000] /\
    SkDeque_delete s = Ok s' /\
    freed s' = [2000] /\ NoDup (freed s') /\
    is_Some (heap s' !! 1000) /\ heap s' !! 2000 = None.
Proof.
  assert (SkDeque_new_storage true 8 1000 (sizeof_Block + 24) 1 2000
          = Ok (example_inline_deque [])) as Hnew by (vm_compute; reflexivity).
  assert (machine_ok (example_inline_deque [])) as Hok.
  { apply machine_okb_ok. vm_compute. reflexivity. }
  assert (machine_run [PushBack; PushBack; PushBack; PushBack] (example_inline_deque [])
          = true) as Hmrun by (vm_compute; reflexivity).
  split; [exact Hnew |]. split; [exact Hok |]. split; [exact Hmrun |].
  destruct (destructor_frees_allocated_blocks 8 1000 (sizeof_Block + 24) 1 2000
              [PushBack; PushBack; PushBack; PushBack] (example_inline_deque []))
    as (s & s' & Hrun & _ & Hdel & Hf & Hnd & _ & Hkeep & Hleft);
    [lia | lia | by vm_compute | by vm_compute | lia | by vm_compute
    | exact Hnew | exact Hok | exact Hmrun |].
  assert (s = example_inline_deque [PushBack; PushBack; PushBack; PushBack]) as Hs.
  { pose proof Hrun as Hrun'. vm_compute in Hrun'. injection Hrun' as <-.
    vm_compute. reflexivity. }
  assert (blocks s = [1000; 2000]) as Hb by (rewrite Hs; vm_compute; reflexivity).
  exists s, s'. split; [exact Hrun |]. split; [exact Hb |]. split; [exact Hdel |].
  split; [rewrite Hf, Hb, Hs; vm_compute; reflexivity |]. split; [exact Hnd |].
  split.
  - rewrite Hkeep, Hs. vm_compute. eexists. reflexivity.
  - destruct (heap s' !! 2000) as [b|] eqn:E; [| reflexivity].
    destruct (Hleft 2000) as [Hne _]; [by eexists | discriminate Hne].
Defined.
